(** * IR remote-control endpoint: protocol codec, learning engine, database cache

    A shallow embedding of the C sources

      - [src/irdb_protocol.c]  (protocol table, encoder, decoder, name
                                lookup, CSV reader),
      - [src/ir_learning.c]    (capture state machine, analysis, similarity,
                                replay),
      - [src/irdb_loader.c]    (fixed-size database cache),
      - [src/ir_hal.c]         (PWM transmitter, edge receiver),
      - [src/ir_service.c]     (sending an entry, receiving one),

    together with the properties the design document states about them
    and further ones read off the code.

    Conventions.  A [uintN_t] value is a [Z] and every place where the C
    arithmetic can wrap is written out with [u8], [u16], [u32] or [u64].
    A C function returning [0] or a negative errno returns a [result]; the
    third constructor, [Fault], stands for executions the C standard leaves
    undefined (a division by zero, a read outside a buffer, a [free] of a
    block that the C library did not allocate).  Pointer
    arguments that the C code checks against [NULL] are always present in
    the embedding, so these checks have no counterpart; a callback is a
    [bool], [false] standing for [NULL]. *)

From Stdlib Require Import ZArith Lia List Bool String.
From stdpp Require Import base numbers list option gmap strings.

Local Open Scope Z_scope.

(** ** Machine integers and return codes *)

Definition u8 (x : Z) : Z := x mod 2 ^ 8.
Definition u16 (x : Z) : Z := x mod 2 ^ 16.
Definition u32 (x : Z) : Z := x mod 2 ^ 32.
Definition u64 (x : Z) : Z := x mod 2 ^ 64.

Definition UINT32_MAX : Z := 2 ^ 32 - 1.

Inductive errno : Type :=
| EINVAL
| ENOMEM
| ENOTSUP
| ENOENT
| EBUSY.

Inductive undefined : Type :=
| DivisionByZero
| OutOfBounds
| InvalidFree.

Inductive result (A : Type) : Type :=
| Ok (a : A)
| Err (e : errno)
| Fault (u : undefined).

Arguments Ok {A} a.
Arguments Err {A} e.
Arguments Fault {A} u.

Definition bind {A B : Type} (r : result A) (k : A -> result B) : result B :=
  match r with
  | Ok a => k a
  | Err e => Err e
  | Fault u => Fault u
  end.

Notation "'let*' x ':=' r 'in' k" := (bind r (fun x => k))
  (at level 10, x name, r at level 100, k at level 200).

Definition len {A : Type} (l : list A) : Z := Z.of_nat (length l).

(** [strncpy(dst, src, n)] into a zeroed field of [n + 1] bytes.  The last
    byte of the field is never written and so stays the terminator: the
    field then reads as the first [n] characters of [src]. *)
Definition strncpy (src : string) (n : nat) : string := substring 0 n src.

(** ** irdb_protocol.h / irdb_protocol.c *)

Module Protocol.

Definition IRDB_PROTOCOL_NEC1 : Z := 1.
Definition IRDB_PROTOCOL_NEC2 : Z := 2.
Definition IRDB_PROTOCOL_RC5 : Z := 4.
Definition IRDB_PROTOCOL_RC6 : Z := 5.
Definition IRDB_PROTOCOL_SONY12 : Z := 15.
Definition IRDB_PROTOCOL_SONY15 : Z := 16.
Definition IRDB_PROTOCOL_SONY20 : Z := 17.
Definition IRDB_PROTOCOL_SAMSUNG32 : Z := 20.
Definition IRDB_PROTOCOL_SAMSUNG36 : Z := 21.

Record irdb_entry_t : Type := {
  function_name : string;
  protocol : Z;
  device : Z;
  subdevice : Z;
  function : Z
}.

Record irdb_protocol_params_t : Type := {
  protocol_id : Z;
  name : string;
  frequency : Z;
  duty_cycle : Z;
  header_mark : Z;
  header_space : Z;
  bit_mark : Z;
  bit_0_space : Z;
  bit_1_space : Z;
  trailer_mark : Z;
  gap : Z;
  device_bits : Z;
  subdevice_bits : Z;
  function_bits : Z;
  toggle_bit : bool
}.

Definition TOLERANCE_PERCENT : Z := 20.

Definition nec1_params : irdb_protocol_params_t :=
  {| protocol_id := IRDB_PROTOCOL_NEC1; name := "NEC1";
     frequency := 38000; duty_cycle := 33;
     header_mark := 9000; header_space := 4500;
     bit_mark := 560; bit_0_space := 560; bit_1_space := 1690;
     trailer_mark := 560; gap := 108000;
     device_bits := 8; subdevice_bits := 8; function_bits := 8;
     toggle_bit := false |}.

Definition nec2_params : irdb_protocol_params_t :=
  {| protocol_id := IRDB_PROTOCOL_NEC2; name := "NEC2";
     frequency := 38000; duty_cycle := 33;
     header_mark := 9000; header_space := 4500;
     bit_mark := 560; bit_0_space := 560; bit_1_space := 1690;
     trailer_mark := 560; gap := 108000;
     device_bits := 16; subdevice_bits := 0; function_bits := 8;
     toggle_bit := false |}.

Definition rc5_params : irdb_protocol_params_t :=
  {| protocol_id := IRDB_PROTOCOL_RC5; name := "RC5";
     frequency := 36000; duty_cycle := 25;
     header_mark := 0; header_space := 0;
     bit_mark := 889; bit_0_space := 889; bit_1_space := 889;
     trailer_mark := 0; gap := 113792;
     device_bits := 5; subdevice_bits := 0; function_bits := 6;
     toggle_bit := true |}.

Definition sony12_params : irdb_protocol_params_t :=
  {| protocol_id := IRDB_PROTOCOL_SONY12; name := "Sony12";
     frequency := 40000; duty_cycle := 33;
     header_mark := 2400; header_space := 600;
     bit_mark := 1200; bit_0_space := 600; bit_1_space := 600;
     trailer_mark := 0; gap := 45000;
     device_bits := 5; subdevice_bits := 0; function_bits := 7;
     toggle_bit := false |}.

Definition sony15_params : irdb_protocol_params_t :=
  {| protocol_id := IRDB_PROTOCOL_SONY15; name := "Sony15";
     frequency := 40000; duty_cycle := 33;
     header_mark := 2400; header_space := 600;
     bit_mark := 1200; bit_0_space := 600; bit_1_space := 600;
     trailer_mark := 0; gap := 45000;
     device_bits := 8; subdevice_bits := 0; function_bits := 7;
     toggle_bit := false |}.

Definition samsung32_params : irdb_protocol_params_t :=
  {| protocol_id := IRDB_PROTOCOL_SAMSUNG32; name := "Samsung32";
     frequency := 38000; duty_cycle := 33;
     header_mark := 4500; header_space := 4500;
     bit_mark := 560; bit_0_space := 560; bit_1_space := 1690;
     trailer_mark := 560; gap := 108000;
     device_bits := 8; subdevice_bits := 8; function_bits := 8;
     toggle_bit := false |}.

Definition protocol_params : list irdb_protocol_params_t :=
  [nec1_params; nec2_params; rc5_params; sony12_params; sony15_params;
   samsung32_params].

(** Linear search of the table; [None] is the C [NULL]. *)
Definition irdb_get_protocol_params (proto : Z) : option irdb_protocol_params_t :=
  List.find (fun p => protocol_id p =? proto) protocol_params.

(** [(1 << bits) - 1], computed in [int]. *)
Definition field_mask (bits : Z) : Z := Z.shiftl 1 bits - 1.

(** The code word and its width, as assembled between the header and the
    bit loop of [irdb_encode_to_raw].  [code] is a [uint64_t], [total_bits]
    a [uint32_t]. *)
Definition assemble_code (p : irdb_protocol_params_t) (e : irdb_entry_t) : Z * Z :=
  let code := 0 in
  let total_bits := 0 in
  let '(code, total_bits) :=
    if device_bits p >? 0
    then (Z.lor (u64 (Z.shiftl code (device_bits p)))
                (Z.land (device e) (field_mask (device_bits p))),
          u32 (total_bits + device_bits p))
    else (code, total_bits) in
  let '(code, total_bits) :=
    if subdevice_bits p >? 0
    then (Z.lor (u64 (Z.shiftl code (subdevice_bits p)))
                (Z.land (subdevice e) (field_mask (subdevice_bits p))),
          u32 (total_bits + subdevice_bits p))
    else (code, total_bits) in
  let code := Z.lor (u64 (Z.shiftl code (function_bits p)))
                    (Z.land (function e) (field_mask (function_bits p))) in
  let total_bits := u32 (total_bits + function_bits p) in
  if protocol e =? IRDB_PROTOCOL_NEC1
  then (Z.lor (u64 (Z.shiftl code 8)) (Z.land (Z.lnot (function e)) 255),
        u32 (total_bits + 8))
  else (code, total_bits).

(** The two durations written for one data bit: the body of the bit loop
    after the capacity check. *)
Definition emit_bit (proto : Z) (p : irdb_protocol_params_t) (bit : bool) : list Z :=
  if proto =? IRDB_PROTOCOL_RC5 then
    if bit then [bit_0_space p; bit_mark p]
    else [bit_mark p; bit_0_space p]
  else if (IRDB_PROTOCOL_SONY12 <=? proto) && (proto <=? IRDB_PROTOCOL_SONY20) then
    [if bit then bit_mark p else bit_mark p / 2; bit_0_space p]
  else
    [bit_mark p; if bit then bit_1_space p else bit_0_space p].

(** [bool bit = (code >> i) & 1]. *)
Definition code_bit (code : Z) (i : Z) : bool :=
  negb (Z.land (Z.shiftr code i) 1 =? 0).

(** [for (int i = total_bits - 1; i >= 0; i--)]: the argument [n] is
    [i + 1]; [out] is [timings_out[0 .. idx)], so [idx] is its length. *)
Fixpoint encode_bits (proto : Z) (p : irdb_protocol_params_t) (code : Z)
    (n : nat) (max_length : Z) (out : list Z) : result (list Z) :=
  match n with
  | O => Ok out
  | S i =>
      if len out + 2 >? max_length then Err ENOMEM
      else encode_bits proto p code i max_length
             (out ++ emit_bit proto p (code_bit code (Z.of_nat i)))
  end.

Definition irdb_encode_to_raw (e : irdb_entry_t) (max_length : Z) : result (list Z) :=
  match irdb_get_protocol_params (protocol e) with
  | None => Err ENOTSUP
  | Some p =>
      let* out :=
        (if header_mark p >? 0
         then if 0 + 2 >? max_length then Err ENOMEM
              else Ok [header_mark p; header_space p]
         else Ok []) in
      let '(code, total_bits) := assemble_code p e in
      let* out :=
        encode_bits (protocol e) p code (Z.to_nat total_bits) max_length out in
      if trailer_mark p >? 0
      then if len out + 1 >? max_length then Err ENOMEM
           else Ok (out ++ [trailer_mark p])
      else Ok out
  end.

(** [timing_match]: all arithmetic is [uint32_t]. *)
Definition timing_match (measured expected : Z) : bool :=
  if expected =? 0 then measured =? 0
  else
    let tolerance := u32 (expected * TOLERANCE_PERCENT) / 100 in
    (u32 (expected - tolerance) <=? measured) &&
    (measured <=? u32 (expected + tolerance)).

(** [timings[i]]; every read of the decoder is guarded by [idx + 1 < length]. *)
Definition timing_at (timings : list Z) (i : Z) : Z :=
  nth (Z.to_nat i) timings 0.

(** One iteration of the decoding loop: [None] is [break]. *)
Definition decode_bit (proto : Z) (p : irdb_protocol_params_t) (t0 t1 : Z) : option bool :=
  if proto =? IRDB_PROTOCOL_RC5 then
    if timing_match t0 (bit_mark p) && timing_match t1 (bit_0_space p)
    then Some false
    else if timing_match t0 (bit_0_space p) && timing_match t1 (bit_mark p)
    then Some true
    else None
  else
    if negb (timing_match t0 (bit_mark p)) then None
    else if timing_match t1 (bit_0_space p) then Some false
    else if timing_match t1 (bit_1_space p) then Some true
    else None.

(** [while (idx + 1 < length && bits_decoded < total_bits)].  The argument
    [remaining] is [total_bits - bits_decoded], which every iteration that
    does not [break] decreases by one.  Returns [decoded] and
    [bits_decoded] at loop exit. *)
Fixpoint decode_bits (proto : Z) (p : irdb_protocol_params_t) (timings : list Z)
    (idx decoded bits_decoded : Z) (remaining : nat) : Z * Z :=
  match remaining with
  | O => (decoded, bits_decoded)
  | S r =>
      if idx + 1 <? len timings then
        match decode_bit proto p (timing_at timings idx) (timing_at timings (idx + 1)) with
        | Some b =>
            decode_bits proto p timings (idx + 2)
              (Z.lor (u64 (Z.shiftl decoded 1)) (if b then 1 else 0))
              (bits_decoded + 1) r
        | None => (decoded, bits_decoded)
        end
      else (decoded, bits_decoded)
  end.

(** The three fields read back from the decoded word. *)
Definition extract_fields (proto : Z) (p : irdb_protocol_params_t) (decoded : Z)
    : Z * Z * Z :=
  let function := u16 (Z.land decoded (field_mask (function_bits p))) in
  let decoded := Z.shiftr decoded (function_bits p) in
  let decoded := if proto =? IRDB_PROTOCOL_NEC1 then Z.shiftr decoded 8 else decoded in
  let '(subdevice, decoded) :=
    if subdevice_bits p >? 0
    then (u16 (Z.land decoded (field_mask (subdevice_bits p))),
          Z.shiftr decoded (subdevice_bits p))
    else (0, decoded) in
  let device := u16 (Z.land decoded (field_mask (device_bits p))) in
  (device, subdevice, function).

(** The body of the [for] loop over the database: [true] when the entry is
    the one copied to [entry_out], [false] for every [continue]. *)
Definition entry_matches (timings : list Z) (e : irdb_entry_t) : bool :=
  match irdb_get_protocol_params (protocol e) with
  | None => false
  | Some p =>
      let header :=
        if header_mark p >? 0 then
          if 0 + 2 >? len timings then None
          else if negb (timing_match (timing_at timings 0) (header_mark p))
                  || negb (timing_match (timing_at timings (0 + 1)) (header_space p))
          then None
          else Some 2
        else Some 0 in
      match header with
      | None => false
      | Some idx =>
          let total_bits := device_bits p + subdevice_bits p + function_bits p in
          let total_bits :=
            if protocol e =? IRDB_PROTOCOL_NEC1 then total_bits + 8 else total_bits in
          let '(decoded, bits_decoded) :=
            decode_bits (protocol e) p timings idx 0 0 (Z.to_nat total_bits) in
          if negb (bits_decoded =? total_bits) then false
          else
            let '(device', subdevice', function') :=
              extract_fields (protocol e) p decoded in
            (device' =? device e) && (subdevice' =? subdevice e)
            && (function' =? function e)
      end
  end.

(** [db] is the array [db->entries[0 .. entry_count)]. *)
Definition irdb_decode_from_raw (db : list irdb_entry_t) (timings : list Z)
    : result irdb_entry_t :=
  if len timings <? 4 then Err EINVAL
  else match List.find (entry_matches timings) db with
       | Some e => Ok e
       | None => Err ENOENT
       end.

Definition power : irdb_entry_t :=
  {| function_name := "Power"; protocol := IRDB_PROTOCOL_NEC1;
     device := 7; subdevice := 7; function := 12 |}.

(** *** Bits of a code word, most significant first *)

Fixpoint msb_bits (v : Z) (n : nat) : list bool :=
  match n with
  | O => []
  | S i => Z.testbit v (Z.of_nat i) :: msb_bits v i
  end.

(** Pulse-distance symbol of one bit: a fixed mark, then the space of the
    bit value. *)
Definition pulse_distance (p : irdb_protocol_params_t) (b : bool) : list Z :=
  [bit_mark p; if b then bit_1_space p else bit_0_space p].

(** Manchester symbol of one bit: space then mark for a one, mark then
    space for a zero. *)
Definition manchester (p : irdb_protocol_params_t) (b : bool) : list Z :=
  if b then [bit_0_space p; bit_mark p] else [bit_mark p; bit_0_space p].

(** Pulse-width symbol of one bit: a full or a half mark, then a fixed
    space. *)
Definition pulse_width (p : irdb_protocol_params_t) (b : bool) : list Z :=
  [if b then bit_mark p else bit_mark p / 2; bit_0_space p].

Lemma code_bit_testbit code i : 0 <= i -> code_bit code i = Z.testbit code i.
Proof.
  intros Hi. unfold code_bit.
  change 1 with (Z.ones 1). rewrite Z.land_ones by lia.
  replace (Z.testbit code i) with (Z.testbit (Z.shiftr code i) 0)
    by (rewrite Z.shiftr_spec by lia; f_equal; lia).
  rewrite Z.bit0_odd. change (2 ^ 1) with 2. rewrite Zmod_odd.
  destruct (Z.odd (Z.shiftr code i)); reflexivity.
Qed.

Lemma msb_bits_length v n : length (msb_bits v n) = n.
Proof. induction n; simpl; congruence. Qed.

Lemma msb_bits_ext v w n :
  (forall i, 0 <= i < Z.of_nat n -> Z.testbit v i = Z.testbit w i) ->
  msb_bits v n = msb_bits w n.
Proof.
  induction n as [|n IH]; intros H; simpl; [reflexivity|].
  rewrite H by lia. f_equal. apply IH. intros i Hi. apply H. lia.
Qed.

Lemma msb_bits_app a b n k :
  0 <= b < 2 ^ Z.of_nat k ->
  msb_bits (a * 2 ^ Z.of_nat k + b) (n + k) = msb_bits a n ++ msb_bits b k.
Proof.
  intros Hb. induction n as [|n IH]; simpl.
  - apply msb_bits_ext. intros i Hi.
    rewrite <- (Z.mod_pow2_bits_low _ (Z.of_nat k)) by lia.
    rewrite Z.add_comm, Z.mod_add by lia.
    rewrite Z.mod_small by lia. reflexivity.
  - rewrite IH. f_equal.
    replace (Z.of_nat (n + k)) with (Z.of_nat n + Z.of_nat k) by lia.
    rewrite <- (Z.div_pow2_bits _ (Z.of_nat k)) by lia.
    f_equal. rewrite Z.add_comm, Z.div_add by lia.
    rewrite Z.div_small by lia. reflexivity.
Qed.

Lemma msb_bits_mod v n : msb_bits (v mod 2 ^ Z.of_nat n) n = msb_bits v n.
Proof.
  apply msb_bits_ext. intros i Hi. apply Z.mod_pow2_bits_low. lia.
Qed.

Lemma msb_bits_lnot v n : msb_bits (Z.lnot v) n = map negb (msb_bits v n).
Proof.
  induction n as [|n IH]; simpl; [reflexivity|].
  rewrite Z.lnot_spec by lia. f_equal. exact IH.
Qed.

Lemma testbit_above_pow2 b k i :
  0 <= b < 2 ^ k -> 0 <= k <= i -> Z.testbit b i = false.
Proof.
  intros Hb Hi. rewrite <- (Z.mod_small b (2 ^ k)) by exact Hb.
  apply Z.mod_pow2_bits_high. exact Hi.
Qed.

Lemma lor_shiftl_add a b k :
  0 <= k -> 0 <= b < 2 ^ k -> Z.lor (Z.shiftl a k) b = a * 2 ^ k + b.
Proof.
  intros Hk Hb. rewrite Z.shiftl_mul_pow2 by lia.
  assert (Z.land (a * 2 ^ k) b = 0) as Hdisj.
  { apply Z.bits_inj'. intros i Hi. rewrite Z.land_spec, Z.bits_0.
    destruct (Z.lt_ge_cases i k) as [Hlt|Hge].
    - rewrite Z.mul_pow2_bits_low by lia. reflexivity.
    - rewrite (testbit_above_pow2 b k i) by lia. apply andb_false_r. }
  rewrite <- Z.lxor_lor by exact Hdisj.
  symmetry. apply Z.add_nocarry_lxor. exact Hdisj.
Qed.

Lemma land_field_mask v bits :
  0 <= bits -> Z.land v (field_mask bits) = v mod 2 ^ bits.
Proof.
  intros Hb. unfold field_mask. rewrite Z.shiftl_1_l.
  replace (2 ^ bits - 1) with (Z.ones bits) by (rewrite Z.ones_equiv; lia).
  apply Z.land_ones. exact Hb.
Qed.

(** The bit loop writes, after what is already in the buffer, the symbols
    of the [n] low bits of [code], most significant first. *)
Lemma encode_bits_ok proto p code n max_length out :
  len out + 2 * Z.of_nat n <= max_length ->
  encode_bits proto p code n max_length out =
  Ok (out ++ flat_map (emit_bit proto p) (msb_bits code n)).
Proof.
  revert out. induction n as [|n IH]; intros out Hlen; simpl.
  - rewrite app_nil_r. reflexivity.
  - destruct (Z.gtb_spec (len out + 2) max_length) as [Hgt|_]; [lia|].
    rewrite code_bit_testbit by lia.
    rewrite IH.
    + rewrite <- app_assoc. reflexivity.
    + unfold len in *. rewrite length_app.
      assert (length (emit_bit proto p (Z.testbit code (Z.of_nat n))) = 2%nat)
        as ->; [|lia].
      unfold emit_bit. repeat case_match; reflexivity.
Qed.

(** *** The code word as a packing of fields *)

(** A field is a value and a width; packing appends the low [width] bits
    of each value below what is already there. *)
Definition pack_step (acc : Z) (f : Z * Z) : Z :=
  acc * 2 ^ snd f + fst f mod 2 ^ snd f.

Definition pack (fields : list (Z * Z)) : Z := fold_left pack_step fields 0.

Definition width (fields : list (Z * Z)) : Z :=
  fold_right (fun f s => snd f + s) 0 fields.

Definition field_bits (fields : list (Z * Z)) : list bool :=
  flat_map (fun f => msb_bits (fst f) (Z.to_nat (snd f))) fields.

(** The fields [irdb_encode_to_raw] concatenates, in order. *)
Definition fields_of (p : irdb_protocol_params_t) (e : irdb_entry_t) : list (Z * Z) :=
  (if device_bits p >? 0 then [(device e, device_bits p)] else []) ++
  (if subdevice_bits p >? 0 then [(subdevice e, subdevice_bits p)] else []) ++
  [(function e, function_bits p)] ++
  (if protocol e =? IRDB_PROTOCOL_NEC1 then [(Z.lnot (function e), 8)] else []).

Definition widths_ok (fields : list (Z * Z)) : Prop :=
  Forall (fun f => 0 <= snd f) fields.

Lemma width_app fs gs : width (fs ++ gs) = width fs + width gs.
Proof. induction fs as [|f fs IH]; simpl; [reflexivity|]. rewrite IH. lia. Qed.

Lemma width_nonneg fs : widths_ok fs -> 0 <= width fs.
Proof. induction 1; simpl; lia. Qed.

Lemma pack_step_bound acc f n :
  0 <= n -> 0 <= snd f -> 0 <= acc < 2 ^ n ->
  0 <= pack_step acc f < 2 ^ (n + snd f).
Proof.
  intros Hn Hw Hacc. unfold pack_step. rewrite Z.pow_add_r by lia.
  pose proof (Z.mod_pos_bound (fst f) (2 ^ snd f) ltac:(lia)).
  nia.
Qed.

Lemma fold_pack_bound fs acc n :
  widths_ok fs -> 0 <= n -> 0 <= acc < 2 ^ n ->
  0 <= fold_left pack_step fs acc < 2 ^ (n + width fs).
Proof.
  intros Hfs. revert acc n.
  induction Hfs as [|f fs Hf Hfs IH]; intros acc n Hn Hacc; simpl.
  - rewrite Z.add_0_r. exact Hacc.
  - replace (n + (snd f + width fs)) with ((n + snd f) + width fs) by lia.
    apply IH; [lia|]. apply pack_step_bound; assumption.
Qed.

Lemma pack_bound fs : widths_ok fs -> 0 <= pack fs < 2 ^ width fs.
Proof.
  intros Hfs. apply (fold_pack_bound fs 0 0 Hfs); simpl; lia.
Qed.

Lemma fold_pack_bits fs acc n :
  widths_ok fs ->
  msb_bits (fold_left pack_step fs acc) (n + Z.to_nat (width fs)) =
  msb_bits acc n ++ field_bits fs.
Proof.
  intros Hfs. revert acc n.
  induction Hfs as [|f fs Hf Hfs IH]; intros acc n; simpl.
  - rewrite Nat.add_0_r, app_nil_r. reflexivity.
  - pose proof (width_nonneg fs Hfs) as Hw.
    replace (n + Z.to_nat (snd f + width fs))%nat
      with ((n + Z.to_nat (snd f)) + Z.to_nat (width fs))%nat by lia.
    rewrite IH. unfold pack_step.
    replace (snd f) with (Z.of_nat (Z.to_nat (snd f))) at 1 2 by lia.
    rewrite msb_bits_app by (apply Z.mod_pos_bound; lia).
    rewrite msb_bits_mod, <- app_assoc. reflexivity.
Qed.

Lemma pack_bits fs :
  widths_ok fs -> msb_bits (pack fs) (Z.to_nat (width fs)) = field_bits fs.
Proof. intros Hfs. apply (fold_pack_bits fs 0 0 Hfs). Qed.

(** Invariant of the assembly: the pair [(code, total_bits)] is the packing
    of the fields appended so far, and still fits the [uint64_t]. *)
Definition assembled (code total_bits : Z) (fs : list (Z * Z)) : Prop :=
  code = pack fs /\ total_bits = width fs /\ widths_ok fs /\ width fs <= 64.

Lemma assembled_nil : assembled 0 0 [].
Proof. repeat split; [constructor | simpl; lia]. Qed.

Lemma assembled_append code total_bits fs v bits :
  assembled code total_bits fs -> 0 <= bits -> width fs + bits <= 64 ->
  assembled (Z.lor (u64 (Z.shiftl code bits)) (Z.land v (field_mask bits)))
            (u32 (total_bits + bits)) (fs ++ [(v, bits)]).
Proof.
  intros (-> & -> & Hfs & Hle) Hbits Hsum.
  pose proof (pack_bound fs Hfs) as Hb.
  pose proof (width_nonneg fs Hfs) as Hw.
  assert (widths_ok (fs ++ [(v, bits)])) as Hfs'.
  { apply Forall_app. split; [exact Hfs|]. repeat constructor. exact Hbits. }
  repeat split.
  - unfold pack. rewrite fold_left_app. simpl. fold (pack fs).
    pose proof (pack_step_bound (pack fs) (v, bits) (width fs) Hw Hbits Hb) as Hs.
    simpl in Hs.
    assert (2 ^ (width fs + bits) <= 2 ^ 64) by (apply Z.pow_le_mono_r; lia).
    rewrite land_field_mask by exact Hbits.
    pose proof (Z.mod_pos_bound v (2 ^ bits) ltac:(lia)) as Hv.
    assert (0 <= pack fs * 2 ^ bits < 2 ^ 64) as Hsh.
    { unfold pack_step in Hs. simpl in Hs. nia. }
    rewrite Z.shiftl_mul_pow2 by exact Hbits.
    unfold u64. rewrite Z.mod_small by exact Hsh.
    rewrite <- Z.shiftl_mul_pow2 by exact Hbits.
    rewrite lor_shiftl_add by assumption. reflexivity.
  - rewrite width_app. simpl. unfold u32. rewrite Z.mod_small; lia.
  - exact Hfs'.
  - rewrite width_app. simpl. lia.
Qed.

Lemma mask_255 : 255 = field_mask 8.
Proof. reflexivity. Qed.

Lemma assemble_code_pack p e :
  0 <= device_bits p -> 0 <= subdevice_bits p -> 0 <= function_bits p ->
  device_bits p + subdevice_bits p + function_bits p + 8 <= 64 ->
  assembled (fst (assemble_code p e)) (snd (assemble_code p e)) (fields_of p e).
Proof.
  intros Hd Hs Hf Hsum. unfold assemble_code, fields_of.
  pose proof assembled_nil as H0.
  assert (exists c1 t1 fs1,
    (if device_bits p >? 0
     then (Z.lor (u64 (Z.shiftl 0 (device_bits p)))
             (Z.land (device e) (field_mask (device_bits p))),
           u32 (0 + device_bits p))
     else (0, 0)) = (c1, t1) /\
    (if device_bits p >? 0 then [(device e, device_bits p)] else []) = fs1 /\
    assembled c1 t1 fs1 /\ width fs1 <= device_bits p) as (c1 & t1 & fs1 & -> & -> & H1 & W1).
  { destruct (device_bits p >? 0); do 3 eexists;
      (split; [reflexivity|]); (split; [reflexivity|]); split.
    - apply (assembled_append 0 0 [] _ _ H0); simpl; lia.
    - simpl; lia.
    - exact H0.
    - simpl; lia. }
  assert (exists c2 t2 fs2,
    (if subdevice_bits p >? 0
     then (Z.lor (u64 (Z.shiftl c1 (subdevice_bits p)))
             (Z.land (subdevice e) (field_mask (subdevice_bits p))),
           u32 (t1 + subdevice_bits p))
     else (c1, t1)) = (c2, t2) /\
    fs1 ++ (if subdevice_bits p >? 0 then [(subdevice e, subdevice_bits p)] else []) = fs2 /\
    assembled c2 t2 fs2 /\ width fs2 <= device_bits p + subdevice_bits p)
    as (c2 & t2 & fs2 & -> & Hfs2 & H2 & W2).
  { destruct (subdevice_bits p >? 0); do 3 eexists;
      (split; [reflexivity|]); (split; [reflexivity|]); split.
    - apply assembled_append; [exact H1|lia|lia].
    - rewrite width_app; simpl; lia.
    - rewrite app_nil_r. exact H1.
    - rewrite app_nil_r. lia. }
  rewrite app_assoc, Hfs2.
  assert (assembled
    (Z.lor (u64 (Z.shiftl c2 (function_bits p)))
           (Z.land (function e) (field_mask (function_bits p))))
    (u32 (t2 + function_bits p)) (fs2 ++ [(function e, function_bits p)])) as H3.
  { apply assembled_append; [exact H2|lia|lia]. }
  rewrite app_assoc.
  destruct (protocol e =? IRDB_PROTOCOL_NEC1); simpl fst; simpl snd.
  - rewrite mask_255. apply assembled_append; [exact H3|lia|].
    rewrite width_app; simpl; lia.
  - rewrite app_nil_r. exact H3.
Qed.

(** *** The encoder's output, symbol by symbol *)

Definition header_of (p : irdb_protocol_params_t) : list Z :=
  if header_mark p >? 0 then [header_mark p; header_space p] else [].

Definition trailer_of (p : irdb_protocol_params_t) : list Z :=
  if trailer_mark p >? 0 then [trailer_mark p] else [].

Definition encoded_length (p : irdb_protocol_params_t) (e : irdb_entry_t) : Z :=
  len (header_of p) + 2 * width (fields_of p e) + len (trailer_of p).

Lemma params_in_table proto p :
  irdb_get_protocol_params proto = Some p ->
  In p protocol_params /\ protocol_id p = proto.
Proof.
  intros H. apply find_some in H. destruct H as [Hin Heq].
  split; [exact Hin | lia].
Qed.

Lemma params_widths proto p :
  irdb_get_protocol_params proto = Some p ->
  0 <= device_bits p /\ 0 <= subdevice_bits p /\ 0 <= function_bits p /\
  device_bits p + subdevice_bits p + function_bits p + 8 <= 64.
Proof.
  intros H. apply params_in_table in H. destruct H as [Hin _].
  simpl in Hin.
  repeat (destruct Hin as [<-|Hin]; [simpl; lia|]). destruct Hin.
Qed.

Lemma fields_of_widths_ok p e :
  0 <= device_bits p -> 0 <= subdevice_bits p -> 0 <= function_bits p ->
  widths_ok (fields_of p e).
Proof.
  intros Hd Hs Hf. unfold fields_of, widths_ok.
  repeat (apply Forall_app; split).
  all: repeat case_match; repeat constructor; simpl; lia.
Qed.

Lemma encode_layout e p max_length :
  irdb_get_protocol_params (protocol e) = Some p ->
  encoded_length p e <= max_length ->
  irdb_encode_to_raw e max_length =
  Ok (header_of p
      ++ flat_map (emit_bit (protocol e) p) (field_bits (fields_of p e))
      ++ trailer_of p).
Proof.
  intros Hp Hlen. unfold irdb_encode_to_raw. rewrite Hp.
  destruct (params_widths _ _ Hp) as (Hd & Hs & Hf & Hsum).
  pose proof (assemble_code_pack p e Hd Hs Hf Hsum) as (Hc & Ht & Hfs & Hw).
  pose proof (width_nonneg _ Hfs) as Hw0.
  destruct (assemble_code p e) as [code total_bits]. simpl in Hc, Ht. subst.
  unfold encoded_length in Hlen.
  assert (0 <= len (trailer_of p)) as Htr by (unfold len; lia).
  assert ((if header_mark p >? 0
           then if 0 + 2 >? max_length then Err ENOMEM
                else Ok [header_mark p; header_space p]
           else Ok []) = Ok (header_of p)) as ->.
  { unfold header_of in *. destruct (header_mark p >? 0); [|reflexivity].
    destruct (Z.gtb_spec (0 + 2) max_length); [|reflexivity].
    unfold len in Hlen. simpl in Hlen. lia. }
  simpl bind. rewrite encode_bits_ok by lia. simpl bind.
  rewrite pack_bits by exact Hfs.
  unfold trailer_of in *.
  destruct (trailer_mark p >? 0).
  - destruct (Z.gtb_spec
      (len (header_of p ++ flat_map (emit_bit (protocol e) p)
              (field_bits (fields_of p e))) + 1) max_length) as [Hgt|_].
    + exfalso. revert Hgt. unfold len in *. rewrite length_app.
      rewrite (flat_map_constant_length (c := 2%nat)).
      * rewrite <- pack_bits by exact Hfs. rewrite msb_bits_length.
        simpl length in Hlen. lia.
      * intros b _. unfold emit_bit. repeat case_match; reflexivity.
    + rewrite <- app_assoc. reflexivity.
  - rewrite app_nil_r. reflexivity.
Qed.

Lemma emit_bit_pulse_distance proto p :
  proto <> IRDB_PROTOCOL_RC5 ->
  ~ (IRDB_PROTOCOL_SONY12 <= proto <= IRDB_PROTOCOL_SONY20) ->
  emit_bit proto p = pulse_distance p.
Proof.
  intros Hrc5 Hsony. unfold emit_bit, pulse_distance.
  destruct (Z.eqb_spec proto IRDB_PROTOCOL_RC5); [contradiction|].
  destruct (Z.leb_spec IRDB_PROTOCOL_SONY12 proto);
    destruct (Z.leb_spec proto IRDB_PROTOCOL_SONY20); simpl; try reflexivity.
  exfalso. apply Hsony. lia.
Qed.

Lemma emit_bit_manchester p : emit_bit IRDB_PROTOCOL_RC5 p = manchester p.
Proof. reflexivity. Qed.

Lemma emit_bit_pulse_width proto p :
  IRDB_PROTOCOL_SONY12 <= proto <= IRDB_PROTOCOL_SONY20 ->
  emit_bit proto p = pulse_width p.
Proof.
  intros [Hlo Hhi]. unfold emit_bit, pulse_width.
  destruct (Z.eqb_spec proto IRDB_PROTOCOL_RC5) as [->|_].
  - unfold IRDB_PROTOCOL_RC5, IRDB_PROTOCOL_SONY12 in *. lia.
  - destruct (Z.leb_spec IRDB_PROTOCOL_SONY12 proto); [|lia].
    destruct (Z.leb_spec proto IRDB_PROTOCOL_SONY20); [|lia].
    reflexivity.
Qed.

Lemma nec1_field_bits e :
  protocol e = IRDB_PROTOCOL_NEC1 ->
  field_bits (fields_of nec1_params e) =
  msb_bits (device e) 8 ++ msb_bits (subdevice e) 8
  ++ msb_bits (function e) 8 ++ map negb (msb_bits (function e) 8).
Proof.
  intros Hproto. unfold fields_of. rewrite Hproto.
  rewrite <- msb_bits_lnot.
  rewrite <- (app_nil_r (msb_bits (Z.lnot (function e)) 8)).
  reflexivity.
Qed.

Lemma rc5_field_bits e :
  protocol e = IRDB_PROTOCOL_RC5 ->
  field_bits (fields_of rc5_params e) =
  msb_bits (device e) 5 ++ msb_bits (function e) 6.
Proof.
  intros Hproto. unfold fields_of. rewrite Hproto.
  rewrite <- (app_nil_r (msb_bits (function e) 6)).
  reflexivity.
Qed.

(** C2. For every NEC1 entry the encoder writes the header, then the
    pulse-distance symbols of device (8 bits), subdevice (8 bits), function
    (8 bits) and the bitwise complement of the function (8 bits), each most
    significant bit first, and the trailer mark right after the complement. *)
Theorem nec1_encode_function_then_complement (e : irdb_entry_t) (max_length : Z) :
  protocol e = IRDB_PROTOCOL_NEC1 ->
  67 <= max_length ->
  irdb_encode_to_raw e max_length =
  Ok ([header_mark nec1_params; header_space nec1_params]
      ++ flat_map (pulse_distance nec1_params)
           (msb_bits (device e) 8 ++ msb_bits (subdevice e) 8
            ++ msb_bits (function e) 8 ++ map negb (msb_bits (function e) 8))
      ++ [trailer_mark nec1_params]).
Proof.
  intros Hproto Hmax.
  rewrite (encode_layout e nec1_params).
  - rewrite Hproto.
    rewrite emit_bit_pulse_distance
      by (unfold IRDB_PROTOCOL_NEC1, IRDB_PROTOCOL_RC5, IRDB_PROTOCOL_SONY12; lia).
    rewrite nec1_field_bits by exact Hproto. reflexivity.
  - rewrite Hproto. reflexivity.
  - unfold encoded_length, fields_of. rewrite Hproto. simpl. unfold len. simpl. lia.
Qed.

(** The instance named in the design document: device 7, subdevice 7,
    function 12 (00001100) is followed by 11110011 and the trailer. *)
Lemma nec1_encode_function_then_complement_witness :
  irdb_encode_to_raw power 67 =
  Ok ([9000; 4500]
      ++ flat_map (pulse_distance nec1_params)
           ([false; false; false; false; false; true; true; true]
            ++ [false; false; false; false; false; true; true; true]
            ++ [false; false; false; false; true; true; false; false]
            ++ [true; true; true; true; false; false; true; true])
      ++ [560]).
Proof.
  apply (nec1_encode_function_then_complement power 67); [reflexivity | lia].
Defined.

(** C4. Every data bit of an RC5 entry is written as a Manchester pair: a
    one as (space, mark), a zero as (mark, space), both halves taken from
    the two fixed durations of the parameter record.  The first part is the
    whole output for the RC5 row of the table; the second is the bit loop
    for any parameter record. *)
Theorem rc5_manchester_encoding (e : irdb_entry_t) (max_length : Z) :
  protocol e = IRDB_PROTOCOL_RC5 ->
  22 <= max_length ->
  irdb_encode_to_raw e max_length =
    Ok (flat_map (manchester rc5_params)
          (msb_bits (device e) 5 ++ msb_bits (function e) 6))
  /\ (forall p code n out,
        len out + 2 * Z.of_nat n <= max_length ->
        encode_bits (protocol e) p code n max_length out =
        Ok (out ++ flat_map
                     (fun bit : bool =>
                        if bit then [bit_0_space p; bit_mark p]
                        else [bit_mark p; bit_0_space p])
                     (msb_bits code n))).
Proof.
  intros Hproto Hmax. split.
  - rewrite (encode_layout e rc5_params).
    + rewrite Hproto, emit_bit_manchester.
      rewrite rc5_field_bits by exact Hproto.
      change (header_of rc5_params) with (@nil Z).
      change (trailer_of rc5_params) with (@nil Z).
      rewrite app_nil_r. reflexivity.
    + rewrite Hproto. reflexivity.
    + unfold encoded_length, fields_of. rewrite Hproto. simpl. unfold len. simpl. lia.
  - intros p code n out Hlen. rewrite Hproto.
    rewrite encode_bits_ok by exact Hlen. reflexivity.
Qed.

(** A parameter record whose mark and space differ, to tell the two halves
    of a Manchester pair apart. *)
Definition uneven_halves : irdb_protocol_params_t :=
  {| protocol_id := IRDB_PROTOCOL_RC5; name := "RC5";
     frequency := 36000; duty_cycle := 25;
     header_mark := 0; header_space := 0;
     bit_mark := 889; bit_0_space := 900; bit_1_space := 900;
     trailer_mark := 0; gap := 113792;
     device_bits := 5; subdevice_bits := 0; function_bits := 6;
     toggle_bit := true |}.

Lemma rc5_manchester_encoding_witness :
  irdb_encode_to_raw
    {| function_name := "Mute"; protocol := IRDB_PROTOCOL_RC5;
       device := 5; subdevice := 0; function := 13 |} 22 =
    Ok (flat_map (manchester rc5_params)
          ([false; false; true; false; true]
           ++ [false; false; true; true; false; true]))
  /\ encode_bits IRDB_PROTOCOL_RC5 uneven_halves 2 2 22 [] =
     Ok [900; 889; 889; 900].
Proof.
  pose proof (rc5_manchester_encoding
    {| function_name := "Mute"; protocol := IRDB_PROTOCOL_RC5;
       device := 5; subdevice := 0; function := 13 |} 22
    eq_refl ltac:(lia)) as [H1 H2].
  split; [exact H1|].
  apply (H2 uneven_halves 2 2%nat []). unfold len. simpl. lia.
Defined.

(** *** Tolerance matching *)

Lemma timing_match_window measured expected :
  0 < expected ->
  expected * TOLERANCE_PERCENT <= UINT32_MAX ->
  timing_match measured expected = true <->
  expected - expected * 20 / 100 <= measured <= expected + expected * 20 / 100.
Proof.
  unfold TOLERANCE_PERCENT, UINT32_MAX. intros Hpos Hno.
  unfold timing_match, TOLERANCE_PERCENT.
  destruct (Z.eqb_spec expected 0) as [->|_]; [lia|].
  unfold u32. rewrite (Z.mod_small (expected * 20)) by lia.
  pose proof (Z.div_mod (expected * 20) 100 ltac:(lia)) as Hdm.
  pose proof (Z.mod_pos_bound (expected * 20) 100 ltac:(lia)) as Hmb.
  set (t := expected * 20 / 100) in *.
  rewrite (Z.mod_small (expected - t)) by lia.
  rewrite (Z.mod_small (expected + t)) by lia.
  rewrite andb_true_iff, Z.leb_le, Z.leb_le. lia.
Qed.

Lemma timing_match_refl expected :
  0 <= expected ->
  expected * TOLERANCE_PERCENT <= UINT32_MAX ->
  timing_match expected expected = true.
Proof.
  intros H0 Hno. destruct (Z.eq_dec expected 0) as [->|Hne]; [reflexivity|].
  apply timing_match_window; [lia|exact Hno|].
  unfold TOLERANCE_PERCENT, UINT32_MAX in Hno.
  pose proof (Z.div_pos (expected * 20) 100 ltac:(lia) ltac:(lia)). lia.
Qed.

(** C3. As long as [expected * 20] does not wrap (it never does for a
    duration of the protocol table, see [table_durations_small]), a measured
    duration matches a non-zero expected one exactly when it lies within
    20 percent of it, and matches an expected zero exactly when it is zero. *)
Theorem timing_match_tolerance (measured expected : Z) :
  0 <= expected ->
  expected * TOLERANCE_PERCENT <= UINT32_MAX ->
  (expected = 0 -> (timing_match measured expected = true <-> measured = 0))
  /\ (0 < expected ->
      (timing_match measured expected = true <->
       100 * Z.abs (measured - expected) <= TOLERANCE_PERCENT * expected)).
Proof.
  unfold TOLERANCE_PERCENT, UINT32_MAX. intros He Hno. split.
  - intros ->. unfold timing_match. simpl. apply Z.eqb_eq.
  - intros Hpos.
    rewrite timing_match_window
      by (unfold TOLERANCE_PERCENT, UINT32_MAX; lia).
    pose proof (Z.div_mod (expected * 20) 100 ltac:(lia)) as Hdm.
    pose proof (Z.mod_pos_bound (expected * 20) 100 ltac:(lia)) as Hmb.
    lia.
Qed.

Lemma timing_match_tolerance_witness :
  (560 = 0 -> (timing_match 672 560 = true <-> 672 = 0))
  /\ (0 < 560 ->
      (timing_match 672 560 = true <->
       100 * Z.abs (672 - 560) <= TOLERANCE_PERCENT * 560)).
Proof.
  apply (timing_match_tolerance 672 560); [lia | vm_compute; discriminate].
Defined.

(** Every duration the decoder passes as [expected] comes from the table. *)
Lemma table_durations_small p :
  In p protocol_params ->
  Forall (fun expected => 0 <= expected /\ expected * TOLERANCE_PERCENT <= UINT32_MAX)
    [header_mark p; header_space p; bit_mark p; bit_0_space p; bit_1_space p].
Proof.
  intros Hin. simpl in Hin.
  repeat (destruct Hin as [<-|Hin];
          [repeat constructor; vm_compute; discriminate|]).
  destruct Hin.
Qed.

(** *** The decoder on a stream of symbols *)

(** [decoded = (decoded << 1) | (bit_value ? 1 : 0)]. *)
Definition acc_bit (decoded : Z) (b : bool) : Z :=
  Z.lor (u64 (Z.shiftl decoded 1)) (if b then 1 else 0).

(** The decoding loop seen on the list of transmitted bits: [g] says what
    the decoder reads for the symbol of a bit, [None] when it gives up. *)
Fixpoint decode_stream (g : bool -> option bool) (bits : list bool)
    (decoded bits_decoded : Z) : Z * Z :=
  match bits with
  | [] => (decoded, bits_decoded)
  | b :: bs =>
      match g b with
      | Some v => decode_stream g bs (acc_bit decoded v) (bits_decoded + 1)
      | None => (decoded, bits_decoded)
      end
  end.

Lemma timing_at_app_0 pre t rest :
  timing_at (pre ++ t :: rest) (len pre) = t.
Proof.
  unfold timing_at, len. rewrite Nat2Z.id. apply nth_middle.
Qed.

Lemma timing_at_app_1 pre t0 t1 rest :
  timing_at (pre ++ t0 :: t1 :: rest) (len pre + 1) = t1.
Proof.
  unfold timing_at, len.
  replace (Z.to_nat (Z.of_nat (length pre) + 1)) with (S (length pre)) by lia.
  change (pre ++ t0 :: t1 :: rest) with (pre ++ [t0] ++ t1 :: rest).
  rewrite app_assoc.
  replace (S (length pre)) with (length (pre ++ [t0]))
    by (rewrite length_app; simpl; lia).
  apply nth_middle.
Qed.

Section Stream.

(** The symbols [sym] of one protocol, and what the decoder makes of each. *)
Variables (proto : Z) (p : irdb_protocol_params_t).
Variables (sym : bool -> Z * Z) (g : bool -> option bool).
Hypothesis reading :
  forall b, decode_bit proto p (fst (sym b)) (snd (sym b)) = g b.

Lemma decode_bits_stream bits :
  forall pre post decoded bits_decoded,
  decode_bits proto p
    (pre ++ flat_map (fun b => [fst (sym b); snd (sym b)]) bits ++ post)
    (len pre) decoded bits_decoded (length bits) =
  decode_stream g bits decoded bits_decoded.
Proof.
  pose proof reading as Hg.
  induction bits as [|b bs IH]; intros pre post d bd; simpl.
  - reflexivity.
  - destruct (Z.ltb_spec (len pre + 1)
      (len (pre ++ fst (sym b) :: snd (sym b)
              :: flat_map (fun b => [fst (sym b); snd (sym b)]) bs ++ post)))
      as [_|Hge].
    + rewrite timing_at_app_0, timing_at_app_1, Hg.
      destruct (g b) as [v|]; [|reflexivity].
      specialize (IH (pre ++ [fst (sym b); snd (sym b)]) post
                     (acc_bit d v) (bd + 1)).
      rewrite <- app_assoc in IH. simpl in IH.
      replace (len pre + 2) with (len (pre ++ [fst (sym b); snd (sym b)]))
        by (unfold len; rewrite length_app; simpl; lia).
      exact IH.
    + exfalso. revert Hge. unfold len. rewrite length_app. simpl. lia.
Qed.

End Stream.

Lemma acc_bit_add decoded b :
  0 <= decoded < 2 ^ 63 -> acc_bit decoded b = 2 * decoded + Z.b2z b.
Proof.
  intros Hd. unfold acc_bit, u64.
  rewrite Z.shiftl_mul_pow2 by lia.
  rewrite Z.mod_small by lia.
  rewrite <- Z.shiftl_mul_pow2 by lia.
  rewrite lor_shiftl_add by (destruct b; simpl; lia).
  destruct b; simpl; lia.
Qed.

Lemma mod_pow2_succ v n :
  0 <= n ->
  v mod 2 ^ (n + 1) = Z.b2z (Z.testbit v n) * 2 ^ n + v mod 2 ^ n.
Proof.
  intros Hn. rewrite Z.pow_add_r by lia. change (2 ^ 1) with 2.
  rewrite Z.rem_mul_r by lia.
  rewrite Z.testbit_spec' by lia. lia.
Qed.

(** Reading back all symbols of a word faithfully rebuilds the word. *)
Lemma fold_acc_bit v n decoded m :
  0 <= m -> 0 <= decoded < 2 ^ m -> m + Z.of_nat n <= 64 ->
  fold_left acc_bit (msb_bits v n) decoded =
  decoded * 2 ^ Z.of_nat n + v mod 2 ^ Z.of_nat n.
Proof.
  revert decoded m. induction n as [|n IH]; intros d m Hm Hd Hsum; simpl msb_bits.
  - simpl. rewrite Z.mod_1_r. lia.
  - simpl fold_left.
    assert (2 ^ m <= 2 ^ 63) by (apply Z.pow_le_mono_r; lia).
    rewrite acc_bit_add by lia.
    rewrite (IH _ (m + 1)); try lia.
    + replace (Z.of_nat (S n)) with (Z.of_nat n + 1) by lia.
      rewrite mod_pow2_succ by lia.
      rewrite Z.pow_add_r by lia. change (2 ^ 1) with 2. ring.
    + rewrite Z.pow_add_r by lia. change (2 ^ 1) with 2.
      destruct (Z.testbit v (Z.of_nat n)); simpl; lia.
Qed.

Lemma decode_stream_faithful bits decoded bits_decoded :
  decode_stream Some bits decoded bits_decoded =
  (fold_left acc_bit bits decoded, bits_decoded + len bits).
Proof.
  revert decoded bits_decoded.
  induction bits as [|b bs IH]; intros d bd; simpl.
  - unfold len. simpl. f_equal. lia.
  - rewrite IH. f_equal. unfold len. simpl length. lia.
Qed.

Lemma field_bits_length fs :
  widths_ok fs -> length (field_bits fs) = Z.to_nat (width fs).
Proof.
  intros Hfs. rewrite <- (pack_bits fs Hfs). apply msb_bits_length.
Qed.

Lemma decode_stream_pack fs :
  widths_ok fs -> width fs <= 64 ->
  decode_stream Some (field_bits fs) 0 0 = (pack fs, width fs).
Proof.
  intros Hfs Hw. pose proof (width_nonneg fs Hfs) as Hw0.
  rewrite decode_stream_faithful. f_equal.
  - rewrite <- (pack_bits fs Hfs).
    rewrite (fold_acc_bit _ _ 0 0); try lia.
    rewrite Z2Nat.id by lia. simpl.
    apply Z.mod_small. apply pack_bound. exact Hfs.
  - unfold len. rewrite field_bits_length by exact Hfs. lia.
Qed.

(** *** One database entry against an encoded signal *)

(** The outcome of the decoder's loop body for entry [e] once the data bits
    have been read: compare the bit count, extract, compare the fields. *)
Definition verdict (e : irdb_entry_t) (p : irdb_protocol_params_t)
    (read : Z * Z) : bool :=
  if negb (snd read =? width (fields_of p e)) then false
  else
    let '(device', subdevice', function') :=
      extract_fields (protocol e) p (fst read) in
    (device' =? device e) && (subdevice' =? subdevice e)
    && (function' =? function e).

Lemma decoder_total_bits p e :
  0 <= device_bits p -> 0 <= subdevice_bits p ->
  (if protocol e =? IRDB_PROTOCOL_NEC1
   then device_bits p + subdevice_bits p + function_bits p + 8
   else device_bits p + subdevice_bits p + function_bits p) =
  width (fields_of p e).
Proof.
  intros Hd Hs. unfold fields_of. rewrite !width_app.
  destruct (Z.gtb_spec (device_bits p) 0);
    destruct (Z.gtb_spec (subdevice_bits p) 0);
    destruct (protocol e =? IRDB_PROTOCOL_NEC1); simpl; lia.
Qed.

Lemma emit_bit_pair proto p b :
  emit_bit proto p b =
  [nth 0 (emit_bit proto p b) 0; nth 1 (emit_bit proto p b) 0].
Proof. unfold emit_bit. repeat case_match; reflexivity. Qed.

Lemma header_self_match p :
  In p protocol_params ->
  timing_match (header_mark p) (header_mark p) = true /\
  timing_match (header_space p) (header_space p) = true.
Proof.
  intros Hin. pose proof (table_durations_small p Hin) as Hs.
  inversion Hs as [|? ? [? ?] Hs1]; subst.
  inversion Hs1 as [|? ? [? ?] _]; subst.
  split; apply timing_match_refl; assumption.
Qed.

Lemma entry_matches_encoded e p g post :
  irdb_get_protocol_params (protocol e) = Some p ->
  (forall b,
     decode_bit (protocol e) p (nth 0 (emit_bit (protocol e) p b) 0)
       (nth 1 (emit_bit (protocol e) p b) 0) = g b) ->
  entry_matches
    (header_of p
     ++ flat_map (emit_bit (protocol e) p) (field_bits (fields_of p e))
     ++ post) e =
  verdict e p (decode_stream g (field_bits (fields_of p e)) 0 0).
Proof.
  intros Hp Hg.
  destruct (params_widths _ _ Hp) as (Hd & Hs & Hf & Hsum).
  pose proof (fields_of_widths_ok p e Hd Hs Hf) as Hfs.
  destruct (params_in_table _ _ Hp) as [Hin _].
  destruct (header_self_match p Hin) as [Hhm Hhs].
  set (sym := fun b => (nth 0 (emit_bit (protocol e) p b) 0,
                        nth 1 (emit_bit (protocol e) p b) 0)).
  rewrite (flat_map_ext (emit_bit (protocol e) p)
             (fun b => [fst (sym b); snd (sym b)]))
    by (intros b; apply emit_bit_pair).
  unfold entry_matches. rewrite Hp.
  set (timings := header_of p ++ _).
  assert ((if header_mark p >? 0
           then if 0 + 2 >? len timings then None
                else if negb (timing_match (timing_at timings 0) (header_mark p))
                        || negb (timing_match (timing_at timings (0 + 1))
                                   (header_space p))
                     then None else Some 2
           else Some 0) = Some (len (header_of p))) as ->.
  { subst timings. unfold header_of.
    destruct (header_mark p >? 0); [|reflexivity].
    destruct (Z.gtb_spec (0 + 2)
      (len ([header_mark p; header_space p]
            ++ flat_map (fun b => [fst (sym b); snd (sym b)])
                 (field_bits (fields_of p e)) ++ post))) as [Hgt|_].
    - exfalso. revert Hgt. unfold len. simpl. lia.
    - unfold timing_at. simpl. rewrite Hhm, Hhs. reflexivity. }
  rewrite (decoder_total_bits p e Hd Hs).
  rewrite <- (field_bits_length _ Hfs).
  subst timings.
  rewrite (decode_bits_stream (protocol e) p sym g Hg).
  unfold verdict.
  destruct (decode_stream g (field_bits (fields_of p e)) 0 0) as [decoded bd].
  reflexivity.
Qed.

(** *** Reading the fields back *)

Lemma pack_snoc fs v w :
  pack (fs ++ [(v, w)]) = pack fs * 2 ^ w + v mod 2 ^ w.
Proof. unfold pack. rewrite fold_left_app. reflexivity. Qed.

Lemma pack_snoc_low fs v w :
  0 <= w -> Z.land (pack (fs ++ [(v, w)])) (field_mask w) = v mod 2 ^ w.
Proof.
  intros Hw. rewrite land_field_mask by exact Hw. rewrite pack_snoc.
  rewrite Z.add_comm, Z.mod_add by lia. apply Z.mod_mod. lia.
Qed.

Lemma pack_snoc_high fs v w :
  0 <= w -> Z.shiftr (pack (fs ++ [(v, w)])) w = pack fs.
Proof.
  intros Hw. rewrite Z.shiftr_div_pow2 by exact Hw. rewrite pack_snoc.
  rewrite Z.add_comm, Z.div_add by lia.
  rewrite Z.div_small by (apply Z.mod_pos_bound; lia). reflexivity.
Qed.

Lemma u16_small v w : 0 <= w <= 16 -> u16 (v mod 2 ^ w) = v mod 2 ^ w.
Proof.
  intros Hw. unfold u16. apply Z.mod_small.
  pose proof (Z.mod_pos_bound v (2 ^ w) ltac:(lia)).
  assert (2 ^ w <= 2 ^ 16) by (apply Z.pow_le_mono_r; lia). lia.
Qed.

(** The function field the decoder extracts from a correctly received NEC1
    word is the complement byte: the word ends with it, and the decoder
    masks the low eight bits before it skips eight bits. *)
Lemma nec1_extracts_complement e :
  protocol e = IRDB_PROTOCOL_NEC1 ->
  snd (extract_fields (protocol e) nec1_params (pack (fields_of nec1_params e))) =
  Z.lnot (function e) mod 2 ^ 8.
Proof.
  intros Hproto. unfold fields_of, extract_fields. rewrite Hproto.
  change (device_bits nec1_params) with 8.
  change (subdevice_bits nec1_params) with 8.
  change (function_bits nec1_params) with 8.
  change (IRDB_PROTOCOL_NEC1 =? IRDB_PROTOCOL_NEC1) with true.
  change (8 >? 0) with true. cbv iota. simpl snd.
  change [(device e, 8); (subdevice e, 8); (function e, 8);
          (Z.lnot (function e), 8)]
    with ([(device e, 8); (subdevice e, 8); (function e, 8)]
          ++ [(Z.lnot (function e), 8)]).
  rewrite pack_snoc_low by lia.
  apply u16_small. lia.
Qed.

(** No value equals the complement of its own low byte. *)
Lemma complement_byte_differs f : Z.lnot f mod 2 ^ 8 <> f.
Proof.
  unfold Z.lnot. change (2 ^ 8) with 256. intros Heq.
  pose proof (Z.mod_pos_bound (Z.pred (- f)) 256 ltac:(lia)) as Hb.
  pose proof (Z.div_mod (Z.pred (- f)) 256 ltac:(lia)) as Hdm.
  lia.
Qed.

Definition in_range (p : irdb_protocol_params_t) (e : irdb_entry_t) : Prop :=
  0 <= device e < 2 ^ device_bits p /\
  0 <= subdevice e < 2 ^ subdevice_bits p /\
  0 <= function e < 2 ^ function_bits p.

(** Outside NEC1 the extraction undoes the packing. *)
Lemma extract_fields_pack e p :
  protocol e <> IRDB_PROTOCOL_NEC1 ->
  0 <= device_bits p <= 16 -> 0 <= subdevice_bits p <= 16 ->
  0 <= function_bits p <= 16 ->
  in_range p e ->
  extract_fields (protocol e) p (pack (fields_of p e)) =
  (device e, subdevice e, function e).
Proof.
  intros Hproto Hd Hs Hf (Hde & Hse & Hfe).
  unfold fields_of, extract_fields.
  destruct (Z.eqb_spec (protocol e) IRDB_PROTOCOL_NEC1) as [|_]; [contradiction|].
  rewrite app_nil_r, !app_assoc.
  rewrite pack_snoc_low, pack_snoc_high by lia.
  rewrite u16_small, (Z.mod_small (function e)) by lia.
  destruct (Z.gtb_spec (subdevice_bits p) 0) as [Hs0|Hs0].
  - rewrite pack_snoc_low, pack_snoc_high by lia.
    rewrite u16_small, (Z.mod_small (subdevice e)) by lia.
    destruct (Z.gtb_spec (device_bits p) 0) as [Hd0|Hd0].
    + change [(device e, device_bits p)] with ([] ++ [(device e, device_bits p)]).
      rewrite pack_snoc_low by lia.
      rewrite u16_small, (Z.mod_small (device e)) by lia. reflexivity.
    + replace (device_bits p) with 0 in * by lia.
      change (2 ^ 0) with 1 in Hde. replace (device e) with 0 by lia.
      reflexivity.
  - replace (subdevice_bits p) with 0 in * by lia.
    change (2 ^ 0) with 1 in Hse. replace (subdevice e) with 0 by lia.
    rewrite app_nil_r.
    destruct (Z.gtb_spec (device_bits p) 0) as [Hd0|Hd0].
    + change [(device e, device_bits p)] with ([] ++ [(device e, device_bits p)]).
      rewrite pack_snoc_low by lia.
      rewrite u16_small, (Z.mod_small (device e)) by lia. reflexivity.
    + replace (device_bits p) with 0 in * by lia.
      change (2 ^ 0) with 1 in Hde. replace (device e) with 0 by lia.
      reflexivity.
Qed.

(** *** Encoding and then decoding *)

Lemma encoded_len proto p bits :
  len (header_of p ++ flat_map (emit_bit proto p) bits ++ trailer_of p) =
  len (header_of p) + 2 * len bits + len (trailer_of p).
Proof.
  unfold len. rewrite !length_app.
  rewrite (flat_map_constant_length (c := 2%nat)).
  - lia.
  - intros b _. unfold emit_bit. repeat case_match; reflexivity.
Qed.

Lemma decode_singleton e timings :
  4 <= len timings ->
  irdb_decode_from_raw [e] timings =
  if entry_matches timings e then Ok e else Err ENOENT.
Proof.
  intros Hlen. unfold irdb_decode_from_raw.
  destruct (Z.ltb_spec (len timings) 4); [lia|].
  simpl. destruct (entry_matches timings e); reflexivity.
Qed.

Lemma decode_head e rest timings :
  4 <= len timings -> entry_matches timings e = true ->
  irdb_decode_from_raw (e :: rest) timings = Ok e.
Proof.
  intros Hlen Hm. unfold irdb_decode_from_raw.
  destruct (Z.ltb_spec (len timings) 4); [lia|].
  simpl. rewrite Hm. reflexivity.
Qed.

(** C1, NEC1. Decoding what the encoder wrote for an NEC1 entry never finds
    that entry, whatever its field values: the decoder takes the complement
    byte for the function code. *)
Theorem nec1_round_trip_fails (e : irdb_entry_t) (max_length : Z) :
  protocol e = IRDB_PROTOCOL_NEC1 ->
  67 <= max_length ->
  exists timings,
    irdb_encode_to_raw e max_length = Ok timings /\
    irdb_decode_from_raw [e] timings = Err ENOENT.
Proof.
  intros Hproto Hmax.
  assert (irdb_get_protocol_params (protocol e) = Some nec1_params) as Hp
    by (rewrite Hproto; reflexivity).
  destruct (params_widths _ _ Hp) as (Hd & Hs & Hf & Hsum).
  pose proof (fields_of_widths_ok nec1_params e Hd Hs Hf) as Hfs.
  assert (width (fields_of nec1_params e) = 32) as Hw
    by (unfold fields_of; rewrite Hproto; reflexivity).
  eexists. split.
  - apply (encode_layout e nec1_params _ Hp).
    unfold encoded_length. rewrite Hw. unfold len. simpl. lia.
  - rewrite decode_singleton.
    + rewrite (entry_matches_encoded e nec1_params Some).
      * rewrite decode_stream_pack by (rewrite ?Hw; first [exact Hfs | lia]).
        unfold verdict. cbn [fst snd]. rewrite Z.eqb_refl. simpl negb.
        pose proof (nec1_extracts_complement e Hproto) as Hc.
        destruct (extract_fields (protocol e) nec1_params
                    (pack (fields_of nec1_params e))) as [[d' s'] f'].
        simpl in Hc. subst f'.
        rewrite (proj2 (Z.eqb_neq _ _) (complement_byte_differs (function e))).
        rewrite andb_false_r. reflexivity.
      * exact Hp.
      * rewrite Hproto. intros [|]; reflexivity.
    + rewrite encoded_len. unfold len.
      rewrite field_bits_length, Hw by exact Hfs. simpl. lia.
Qed.

Lemma nec1_round_trip_fails_witness :
  exists timings,
    irdb_encode_to_raw power 67 = Ok timings /\
    irdb_decode_from_raw [power] timings = Err ENOENT.
Proof.
  apply (nec1_round_trip_fails power 67); [reflexivity | lia].
Defined.

(** X4. NEC2 and Samsung32 are the two protocols for which the round trip
    holds: what the encoder writes for an in-range entry decodes to that
    entry when it is the first of the database. *)
Lemma pulse_distance_round_trip e p rest max_length :
  protocol e = IRDB_PROTOCOL_NEC2 \/ protocol e = IRDB_PROTOCOL_SAMSUNG32 ->
  irdb_get_protocol_params (protocol e) = Some p ->
  in_range p e ->
  encoded_length p e <= max_length ->
  exists timings,
    irdb_encode_to_raw e max_length = Ok timings /\
    irdb_decode_from_raw (e :: rest) timings = Ok e.
Proof.
  intros Hproto Hp Hr Hmax.
  destruct (params_widths _ _ Hp) as (Hd & Hs & Hf & Hsum).
  pose proof (fields_of_widths_ok p e Hd Hs Hf) as Hfs.
  assert (protocol e <> IRDB_PROTOCOL_NEC1) as Hne
    by (destruct Hproto as [-> | ->]; discriminate).
  assert (device_bits p <= 16 /\ subdevice_bits p <= 16 /\
          function_bits p <= 16 /\ 8 <= width (fields_of p e) <= 64 /\
          len (header_of p) = 2 /\
          forall b, decode_bit (protocol e) p
                      (nth 0 (emit_bit (protocol e) p b) 0)
                      (nth 1 (emit_bit (protocol e) p b) 0) = Some b)
    as (Hd16 & Hs16 & Hf16 & Hw & Hh & Hg).
  { unfold fields_of.
    destruct Hproto as [Hproto | Hproto]; rewrite Hproto in *;
      injection Hp as <-; repeat split; try (vm_compute; congruence);
      intros [|]; reflexivity. }
  eexists. split.
  - apply (encode_layout e p _ Hp Hmax).
  - apply decode_head.
    + rewrite encoded_len. unfold len in *.
      rewrite field_bits_length by exact Hfs. lia.
    + rewrite (entry_matches_encoded e p Some _ Hp Hg).
      rewrite decode_stream_pack by (first [exact Hfs | lia]).
      unfold verdict. cbn [fst snd]. rewrite Z.eqb_refl. simpl negb.
      rewrite extract_fields_pack by (first [assumption | lia]).
      rewrite !Z.eqb_refl. reflexivity.
Qed.

(** RC5: both halves of a Manchester pair last 889 microseconds, so every
    pair reads as a zero. *)
Lemma decode_stream_zeros bits bits_decoded :
  decode_stream (fun _ => Some false) bits 0 bits_decoded =
  (0, bits_decoded + len bits).
Proof.
  revert bits_decoded. induction bits as [|b bs IH]; intros bd; simpl.
  - unfold len. simpl. f_equal. lia.
  - change (acc_bit 0 false) with 0. rewrite IH.
    unfold len. simpl length. f_equal. lia.
Qed.

(** X5. What the encoder writes for an RC5 entry decodes to that entry
    only when its device, subdevice and function are all zero; for every
    other RC5 entry the decoder answers [ENOENT]. *)
Lemma rc5_round_trip_only_zero e max_length :
  protocol e = IRDB_PROTOCOL_RC5 ->
  22 <= max_length ->
  exists timings,
    irdb_encode_to_raw e max_length = Ok timings /\
    irdb_decode_from_raw [e] timings =
    if (device e =? 0) && (subdevice e =? 0) && (function e =? 0)
    then Ok e else Err ENOENT.
Proof.
  intros Hproto Hmax.
  assert (irdb_get_protocol_params (protocol e) = Some rc5_params) as Hp
    by (rewrite Hproto; reflexivity).
  destruct (params_widths _ _ Hp) as (Hd & Hs & Hf & Hsum).
  pose proof (fields_of_widths_ok rc5_params e Hd Hs Hf) as Hfs.
  assert (width (fields_of rc5_params e) = 11) as Hw
    by (unfold fields_of; rewrite Hproto; reflexivity).
  eexists. split.
  - apply (encode_layout e rc5_params _ Hp).
    unfold encoded_length. rewrite Hw. unfold len. simpl. lia.
  - rewrite decode_singleton.
    + rewrite (entry_matches_encoded e rc5_params (fun _ => Some false) _ Hp)
        by (rewrite Hproto; intros [|]; reflexivity).
      rewrite decode_stream_zeros.
      unfold verdict. cbn [fst snd].
      unfold len. rewrite field_bits_length by exact Hfs.
      rewrite Z2Nat.id, Z.add_0_l, Z.eqb_refl by lia. simpl negb.
      rewrite Hproto.
      change (extract_fields IRDB_PROTOCOL_RC5 rc5_params 0) with (0, 0, 0).
      cbv iota beta.
      rewrite (Z.eqb_sym 0 (device e)), (Z.eqb_sym 0 (subdevice e)),
        (Z.eqb_sym 0 (function e)).
      reflexivity.
    + rewrite encoded_len. unfold len.
      rewrite field_bits_length, Hw by exact Hfs. simpl. lia.
Qed.

(** Sony: the encoder writes pulse-width symbols, the decoder reads
    pulse-distance ones.  A zero (half mark) stops the decoder and a one
    (full mark, fixed space) reads as a zero. *)
Definition sony_reading (b : bool) : option bool :=
  if b then Some false else None.

Lemma decode_stream_sony bits bits_decoded :
  exists n,
    decode_stream sony_reading bits 0 bits_decoded = (0, bits_decoded + n) /\
    0 <= n <= len bits /\
    (n = len bits -> Forall (fun b => b = true) bits).
Proof.
  revert bits_decoded. induction bits as [|b bs IH]; intros bd; simpl.
  - exists 0. unfold len. simpl. repeat split; try lia.
    + f_equal. lia.
    + constructor.
  - destruct b; simpl.
    + change (acc_bit 0 false) with 0.
      destruct (IH (bd + 1)) as (n & -> & Hn & Hall).
      exists (n + 1). unfold len in *. simpl length. repeat split; try lia.
      * f_equal. lia.
      * intros Heq. constructor; [reflexivity|]. apply Hall. lia.
    + exists 0. unfold len. simpl length. repeat split; try lia.
      f_equal. lia.
Qed.

(** X6. What the encoder writes for a Sony12 or Sony15 entry never decodes
    to that entry: the decoder answers [ENOENT] whatever the field values. *)
Lemma sony_round_trip_fails e p max_length :
  protocol e = IRDB_PROTOCOL_SONY12 \/ protocol e = IRDB_PROTOCOL_SONY15 ->
  irdb_get_protocol_params (protocol e) = Some p ->
  encoded_length p e <= max_length ->
  exists timings,
    irdb_encode_to_raw e max_length = Ok timings /\
    irdb_decode_from_raw [e] timings = Err ENOENT.
Proof.
  intros Hproto Hp Hmax.
  destruct (params_widths _ _ Hp) as (Hd & Hs & Hf & Hsum).
  pose proof (fields_of_widths_ok p e Hd Hs Hf) as Hfs.
  pose proof (width_nonneg _ Hfs) as Hw0.
  assert (8 <= width (fields_of p e) /\
          len (header_of p) = 2 /\
          (forall b, decode_bit (protocol e) p
                       (nth 0 (emit_bit (protocol e) p b) 0)
                       (nth 1 (emit_bit (protocol e) p b) 0) = sony_reading b) /\
          extract_fields (protocol e) p 0 = (0, 0, 0) /\
          exists pre, field_bits (fields_of p e) =
                      pre ++ [Z.testbit (function e) 0])
    as (Hw & Hh & Hg & Hx & pre & Hbits).
  { unfold fields_of.
    destruct Hproto as [Hproto | Hproto]; rewrite Hproto in *;
      injection Hp as <-; repeat split; try (vm_compute; congruence);
      try (intros [|]; reflexivity).
    - exists (msb_bits (device e) 5 ++ removelast (msb_bits (function e) 7)).
      rewrite <- app_assoc. reflexivity.
    - exists (msb_bits (device e) 8 ++ removelast (msb_bits (function e) 7)).
      rewrite <- app_assoc. reflexivity. }
  eexists. split.
  - apply (encode_layout e p _ Hp Hmax).
  - rewrite decode_singleton.
    + rewrite (entry_matches_encoded e p sony_reading _ Hp Hg).
      destruct (decode_stream_sony (field_bits (fields_of p e)) 0)
        as (n & -> & Hn & Hall).
      unfold verdict. cbn [fst snd]. rewrite Z.add_0_l.
      destruct (Z.eqb_spec n (width (fields_of p e))) as [Heq|_];
        [|reflexivity].
      simpl negb. rewrite Hx.
      assert (function e <> 0) as Hne.
      { intros H0. unfold len in Hall.
        rewrite field_bits_length in Hall by exact Hfs.
        specialize (Hall ltac:(lia)). rewrite Hbits in Hall.
        apply Forall_app in Hall. destruct Hall as [_ Hlast].
        inversion Hlast as [|? ? Hb _]; subst. rewrite H0 in Hb.
        discriminate. }
      destruct (Z.eqb_spec 0 (function e)) as [H0|_]; [congruence|].
      rewrite andb_false_r. reflexivity.
    + rewrite encoded_len. unfold len in *.
      rewrite field_bits_length by exact Hfs. lia.
Qed.

(** ** Further properties of the codec *)

(** *** Every outcome of the encoder *)

Definition supported (proto : Z) : bool :=
  existsb (Z.eqb proto)
    [IRDB_PROTOCOL_NEC1; IRDB_PROTOCOL_NEC2; IRDB_PROTOCOL_RC5;
     IRDB_PROTOCOL_SONY12; IRDB_PROTOCOL_SONY15; IRDB_PROTOCOL_SAMSUNG32].

(** The number of durations in the frame of each supported protocol. *)
Definition frame_length (proto : Z) : Z :=
  if proto =? IRDB_PROTOCOL_NEC1 then 67
  else if proto =? IRDB_PROTOCOL_NEC2 then 51
  else if proto =? IRDB_PROTOCOL_RC5 then 22
  else if proto =? IRDB_PROTOCOL_SONY12 then 26
  else if proto =? IRDB_PROTOCOL_SONY15 then 32
  else 51.

Lemma params_supported proto :
  if supported proto
  then exists p, irdb_get_protocol_params proto = Some p /\ protocol_id p = proto
  else irdb_get_protocol_params proto = None.
Proof.
  unfold supported, irdb_get_protocol_params, protocol_params.
  cbv [IRDB_PROTOCOL_NEC1 IRDB_PROTOCOL_NEC2 IRDB_PROTOCOL_RC5
       IRDB_PROTOCOL_SONY12 IRDB_PROTOCOL_SONY15 IRDB_PROTOCOL_SAMSUNG32
       existsb].
  destruct (Z.eq_dec proto 1) as [->|H1]; [eexists; split; reflexivity|].
  destruct (Z.eq_dec proto 2) as [->|H2]; [eexists; split; reflexivity|].
  destruct (Z.eq_dec proto 4) as [->|H4]; [eexists; split; reflexivity|].
  destruct (Z.eq_dec proto 15) as [->|H15]; [eexists; split; reflexivity|].
  destruct (Z.eq_dec proto 16) as [->|H16]; [eexists; split; reflexivity|].
  destruct (Z.eq_dec proto 20) as [->|H20]; [eexists; split; reflexivity|].
  rewrite !(proj2 (Z.eqb_neq proto _)) by assumption.
  cbn [orb find protocol_id nec1_params nec2_params rc5_params sony12_params
       sony15_params samsung32_params].
  rewrite !(proj2 (Z.eqb_neq _ proto)) by (apply not_eq_sym; assumption).
  reflexivity.
Qed.

Lemma encoded_length_frame e p :
  irdb_get_protocol_params (protocol e) = Some p ->
  encoded_length p e = frame_length (protocol e).
Proof.
  intros Hp. destruct (params_in_table _ _ Hp) as [Hin Hid].
  unfold encoded_length, fields_of, frame_length. rewrite <- Hid.
  simpl in Hin.
  repeat (destruct Hin as [<-|Hin]; [reflexivity|]). destruct Hin.
Qed.

Lemma encode_bits_short proto p code n max_length out :
  (0 < n)%nat -> max_length < len out + 2 * Z.of_nat n ->
  encode_bits proto p code n max_length out = Err ENOMEM.
Proof.
  revert out. induction n as [|n IH]; intros out Hn Hlt; [lia|]. simpl.
  destruct (Z.gtb_spec (len out + 2) max_length) as [|Hfit]; [reflexivity|].
  apply IH; [lia|].
  unfold len in *. rewrite length_app.
  assert (length (emit_bit proto p (code_bit code (Z.of_nat n))) = 2%nat) as ->
    by (unfold emit_bit; repeat case_match; reflexivity).
  lia.
Qed.

Lemma encode_short e p max_length :
  irdb_get_protocol_params (protocol e) = Some p ->
  max_length < encoded_length p e ->
  irdb_encode_to_raw e max_length = Err ENOMEM.
Proof.
  intros Hp Hlt. unfold irdb_encode_to_raw. rewrite Hp.
  destruct (params_widths _ _ Hp) as (Hd & Hs & Hf & Hsum).
  pose proof (assemble_code_pack p e Hd Hs Hf Hsum) as (Hc & Ht & Hfs & Hw).
  destruct (assemble_code p e) as [code total_bits]. simpl in Hc, Ht. subst.
  assert (0 < width (fields_of p e)) as Hpos.
  { rewrite <- (decoder_total_bits p e Hd Hs).
    destruct (params_in_table _ _ Hp) as [Hin _]. simpl in Hin.
    repeat (destruct Hin as [<-|Hin];
            [destruct (protocol e =? IRDB_PROTOCOL_NEC1); simpl; lia|]).
    destruct Hin. }
  unfold encoded_length, header_of, trailer_of in Hlt.
  destruct (header_mark p >? 0).
  - destruct (Z.gtb_spec (0 + 2) max_length) as [|H2]; [reflexivity|].
    simpl bind. unfold len in Hlt. simpl length in Hlt.
    destruct (Z.ltb_spec max_length (2 + 2 * width (fields_of p e))) as [Hb|Hb].
    + rewrite encode_bits_short; [reflexivity|lia|unfold len; simpl; lia].
    + rewrite encode_bits_ok by (unfold len; simpl length; lia). simpl bind.
      destruct (trailer_mark p >? 0); [|simpl in Hlt; lia].
      match goal with |- context [?a >? max_length] =>
        destruct (Z.gtb_spec a max_length) as [|Hfit]; [reflexivity|] end.
      exfalso. revert Hfit. unfold len. simpl length. rewrite ?length_app.
      rewrite (flat_map_constant_length (c := 2%nat))
        by (intros b _; unfold emit_bit; repeat case_match; reflexivity).
      rewrite msb_bits_length. simpl length in *. lia.
  - simpl bind. unfold len in Hlt. simpl length in Hlt.
    destruct (Z.ltb_spec max_length (2 * width (fields_of p e))) as [Hb|Hb].
    + rewrite encode_bits_short; [reflexivity|lia|unfold len; simpl; lia].
    + rewrite encode_bits_ok by (unfold len; simpl length; lia). simpl bind.
      destruct (trailer_mark p >? 0); [|simpl in Hlt; lia].
      match goal with |- context [?a >? max_length] =>
        destruct (Z.gtb_spec a max_length) as [|Hfit]; [reflexivity|] end.
      exfalso. revert Hfit. unfold len. simpl length. rewrite ?length_app.
      rewrite (flat_map_constant_length (c := 2%nat))
        by (intros b _; unfold emit_bit; repeat case_match; reflexivity).
      rewrite msb_bits_length. simpl length in *. lia.
Qed.

(** X1. The encoder has exactly three outcomes.  A protocol outside the six
    rows of the table (RC6, Sony20 and Samsung36 are declared but have no
    row) gives [ENOTSUP]; a buffer shorter than the frame of the protocol
    gives [ENOMEM]; otherwise the frame is returned, its length depends on
    the protocol only, and a larger buffer does not change it. *)
Theorem encode_outcome (e : irdb_entry_t) (max_length : Z) :
  if negb (supported (protocol e)) then
    irdb_encode_to_raw e max_length = Err ENOTSUP
  else if max_length <? frame_length (protocol e) then
    irdb_encode_to_raw e max_length = Err ENOMEM
  else
    exists timings,
      irdb_encode_to_raw e max_length = Ok timings /\
      len timings = frame_length (protocol e) /\
      irdb_encode_to_raw e (frame_length (protocol e)) = Ok timings.
Proof.
  pose proof (params_supported (protocol e)) as Hs.
  destruct (supported (protocol e)); simpl.
  - destruct Hs as (p & Hp & _).
    pose proof (encoded_length_frame e p Hp) as Hlen.
    destruct (Z.ltb_spec max_length (frame_length (protocol e))) as [Hlt|Hge].
    + apply (encode_short e p); [exact Hp|lia].
    + eexists. split; [apply (encode_layout e p _ Hp); lia|].
      split.
      * rewrite encoded_len, <- Hlen. unfold encoded_length, len.
        destruct (params_widths _ _ Hp) as (Hd & Hsb & Hf & _).
        rewrite field_bits_length by (apply fields_of_widths_ok; assumption).
        pose proof (width_nonneg _ (fields_of_widths_ok p e Hd Hsb Hf)). lia.
      * apply (encode_layout e p _ Hp). lia.
  - unfold irdb_encode_to_raw. rewrite Hs. reflexivity.
Qed.

(** *** Decoding what was actually measured *)

(** Every measured duration matches the nominal one at the same position. *)
Definition within_tolerance (measured nominal : list Z) : Prop :=
  Forall2 (fun m n => timing_match m n = true) measured nominal.

Definition pair_list (s : Z * Z) : list Z := [fst s; snd s].

Lemma decode_bits_pairs proto p syms :
  forall bits pre post decoded bits_decoded,
    Forall2 (fun s b => decode_bit proto p (fst s) (snd s) = Some b) syms bits ->
    decode_bits proto p (pre ++ flat_map pair_list syms ++ post)
      (len pre) decoded bits_decoded (length syms) =
    (fold_left acc_bit bits decoded, bits_decoded + len bits).
Proof.
  induction syms as [|s syms IH]; intros bits pre post d bd Hall;
    inversion Hall as [|? b ? bs Hs Hrest]; subst; simpl.
  - unfold len. simpl. f_equal. lia.
  - unfold pair_list at 1. simpl app.
    match goal with |- context [?a <? ?b] =>
      destruct (Z.ltb_spec a b) as [_|Hge] end.
    + rewrite timing_at_app_0, timing_at_app_1, Hs.
      specialize (IH bs (pre ++ [fst s; snd s]) post (acc_bit d b) (bd + 1) Hrest).
      rewrite <- app_assoc in IH. simpl in IH.
      replace (len pre + 2) with (len (pre ++ [fst s; snd s]))
        by (unfold len; rewrite length_app; simpl; lia).
      eapply eq_trans; [exact IH|]. f_equal. unfold len. simpl length. lia.
    + exfalso. revert Hge. unfold len. rewrite length_app. simpl. lia.
Qed.

(** A measured sequence that matches a sequence of symbol pairs splits into
    pairs that match symbol by symbol. *)
Lemma within_tolerance_pairs (sym : bool -> list Z) bits :
  (forall b, exists x y, sym b = [x; y]) ->
  forall measured,
    within_tolerance measured (flat_map sym bits) ->
    exists syms,
      measured = flat_map pair_list syms /\
      Forall2 (fun s b => within_tolerance (pair_list s) (sym b)) syms bits.
Proof.
  intros Hsym. induction bits as [|b bits IH]; intros measured Hm; simpl in Hm.
  - inversion Hm; subst. exists []. split; [reflexivity|constructor].
  - destruct (Hsym b) as (x & y & Hb). rewrite Hb in Hm. simpl in Hm.
    inversion Hm as [|m0 ? l0 ? H0 Hm1]; subst.
    inversion Hm1 as [|m1 ? l1 ? H1 Hm2]; subst.
    destruct (IH _ Hm2) as (syms & -> & Hall).
    exists ((m0, m1) :: syms). split; [reflexivity|].
    constructor; [|exact Hall].
    rewrite Hb. unfold pair_list. simpl. repeat constructor; assumption.
Qed.

(** The loop body of the decoder on any measured sequence made of a header
    that matches, symbol pairs the decoder reads as [bits], and anything
    after them. *)
Lemma entry_matches_read e p hdr syms bits post :
  irdb_get_protocol_params (protocol e) = Some p ->
  within_tolerance hdr (header_of p) ->
  Forall2 (fun s b => decode_bit (protocol e) p (fst s) (snd s) = Some b)
    syms bits ->
  len bits = width (fields_of p e) ->
  entry_matches (hdr ++ flat_map pair_list syms ++ post) e =
  verdict e p (fold_left acc_bit bits 0, len bits).
Proof.
  intros Hp Hhdr Hread Hlen.
  destruct (params_widths _ _ Hp) as (Hd & Hs & Hf & Hsum).
  unfold entry_matches. rewrite Hp.
  set (timings := hdr ++ _).
  assert ((if header_mark p >? 0
           then if 0 + 2 >? len timings then None
                else if negb (timing_match (timing_at timings 0) (header_mark p))
                        || negb (timing_match (timing_at timings (0 + 1))
                                   (header_space p))
                     then None else Some 2
           else Some 0) = Some (len hdr)) as ->.
  { subst timings. unfold header_of in Hhdr.
    destruct (header_mark p >? 0).
    - inversion Hhdr as [|m0 ? l0 ? H0 Hh1]; subst.
      inversion Hh1 as [|m1 ? l1 ? H1 Hh2]; subst.
      inversion Hh2; subst.
      match goal with |- context [?a >? ?b] =>
        destruct (Z.gtb_spec a b) as [Hgt|_] end.
      + exfalso. revert Hgt. unfold len. simpl. lia.
      + unfold timing_at. simpl. rewrite H0, H1. reflexivity.
    - inversion Hhdr; subst. reflexivity. }
  rewrite (decoder_total_bits p e Hd Hs).
  assert (Z.to_nat (width (fields_of p e)) = length syms) as ->.
  { rewrite <- Hlen. unfold len. rewrite Nat2Z.id.
    symmetry. apply (Forall2_length _ _ _ Hread). }
  subst timings. rewrite (decode_bits_pairs _ _ _ _ _ _ _ _ Hread).
  unfold verdict. cbn [fst snd]. rewrite Z.add_0_l, Hlen. reflexivity.
Qed.

(** A pulse-distance parameter record whose two spaces cannot be confused,
    within tolerance. *)
Definition spaces_apart (p : irdb_protocol_params_t) : Prop :=
  0 < bit_mark p /\ 0 < bit_0_space p /\ 0 < bit_1_space p /\
  bit_1_space p * TOLERANCE_PERCENT <= UINT32_MAX /\
  bit_mark p * TOLERANCE_PERCENT <= UINT32_MAX /\
  bit_0_space p + bit_0_space p * 20 / 100 <
  bit_1_space p - bit_1_space p * 20 / 100.

Lemma decode_bit_pulse_distance proto p b t0 t1 :
  proto <> IRDB_PROTOCOL_RC5 ->
  spaces_apart p ->
  within_tolerance [t0; t1] (pulse_distance p b) ->
  decode_bit proto p t0 t1 = Some b.
Proof.
  intros Hproto (Hm & H0 & H1 & Hn1 & Hnm & Hgap) Hw.
  inversion Hw as [|? ? ? ? Ht0 Hw1]; subst.
  inversion Hw1 as [|? ? ? ? Ht1 _]; subst.
  unfold decode_bit.
  destruct (Z.eqb_spec proto IRDB_PROTOCOL_RC5); [contradiction|].
  rewrite Ht0. simpl negb. cbv iota.
  destruct b.
  - assert (timing_match t1 (bit_0_space p) = false) as ->.
    { apply not_true_is_false. intros Hc.
      assert (bit_0_space p * TOLERANCE_PERCENT <= UINT32_MAX) as Hn0.
      { unfold TOLERANCE_PERCENT, UINT32_MAX in *.
        pose proof (Z.div_mod (bit_0_space p * 20) 100 ltac:(lia)).
        pose proof (Z.mod_pos_bound (bit_0_space p * 20) 100 ltac:(lia)).
        pose proof (Z.div_mod (bit_1_space p * 20) 100 ltac:(lia)).
        pose proof (Z.mod_pos_bound (bit_1_space p * 20) 100 ltac:(lia)).
        lia. }
      apply timing_match_window in Hc; [|lia|exact Hn0].
      apply timing_match_window in Ht1; [|lia|exact Hn1]. lia. }
    rewrite Ht1. reflexivity.
  - rewrite Ht1. reflexivity.
Qed.

Lemma nec_spaces_apart p :
  p = nec2_params \/ p = samsung32_params \/ p = nec1_params ->
  spaces_apart p.
Proof.
  intros [-> | [-> | ->]]; unfold spaces_apart;
    repeat split; vm_compute; congruence.
Qed.

(** X2. NEC2 and Samsung32 entries survive the air: whenever every measured
    header and data duration lies within 20 percent of what the encoder
    wrote for an in-range entry, the decoder finds the entry, whatever
    follows the last data bit.  The trailer mark is never looked at. *)
Theorem tolerant_round_trip (e : irdb_entry_t) (p : irdb_protocol_params_t)
    (rest : list irdb_entry_t) (measured tail : list Z) :
  protocol e = IRDB_PROTOCOL_NEC2 \/ protocol e = IRDB_PROTOCOL_SAMSUNG32 ->
  irdb_get_protocol_params (protocol e) = Some p ->
  in_range p e ->
  within_tolerance measured
    (header_of p ++ flat_map (pulse_distance p) (field_bits (fields_of p e))) ->
  irdb_decode_from_raw (e :: rest) (measured ++ tail) = Ok e.
Proof.
  intros Hproto Hp Hr Hw.
  destruct (params_widths _ _ Hp) as (Hd & Hs & Hf & Hsum).
  pose proof (fields_of_widths_ok p e Hd Hs Hf) as Hfs.
  assert (protocol e <> IRDB_PROTOCOL_NEC1 /\ protocol e <> IRDB_PROTOCOL_RC5)
    as [Hne Hrc5] by (destruct Hproto as [-> | ->]; split; discriminate).
  assert (device_bits p <= 16 /\ subdevice_bits p <= 16 /\
          function_bits p <= 16 /\ 8 <= width (fields_of p e) <= 64 /\
          len (header_of p) = 2 /\ spaces_apart p)
    as (Hd16 & Hs16 & Hf16 & Hwd & Hh & Hsp).
  { unfold fields_of.
    destruct Hproto as [Hproto | Hproto]; rewrite Hproto in *;
      injection Hp as <-; repeat split; try (vm_compute; congruence). }
  apply Forall2_app_inv_r in Hw.
  destruct Hw as (hdr & body & Hhdr & Hbody & ->).
  destruct (within_tolerance_pairs (pulse_distance p) _
              ltac:(intros b; unfold pulse_distance; eauto) _ Hbody)
    as (syms & -> & Hsyms).
  assert (Forall2 (fun s b => decode_bit (protocol e) p (fst s) (snd s) = Some b)
            syms (field_bits (fields_of p e))) as Hread.
  { eapply Forall2_impl; [exact Hsyms|]. intros s b Hsb.
    apply decode_bit_pulse_distance; assumption. }
  pose proof (Forall2_length _ _ _ Hhdr) as Hlh.
  pose proof (Forall2_length _ _ _ Hsyms) as Hls.
  rewrite field_bits_length in Hls by exact Hfs.
  apply decode_head.
  - unfold len in *. rewrite !length_app.
    rewrite (flat_map_constant_length (c := 2%nat)) by (intros; reflexivity).
    lia.
  - rewrite <- app_assoc.
    rewrite (entry_matches_read e p hdr syms (field_bits (fields_of p e)) tail
               Hp Hhdr Hread)
      by (unfold len; rewrite field_bits_length by exact Hfs; lia).
    pose proof (decode_stream_pack _ Hfs ltac:(lia)) as Hpack.
    rewrite decode_stream_faithful in Hpack. injection Hpack as Hfold Hcount.
    rewrite Hfold. unfold verdict. cbn [fst snd].
    rewrite Z.add_0_l in Hcount. rewrite Hcount, Z.eqb_refl. simpl negb.
    rewrite extract_fields_pack by (first [assumption | lia]).
    rewrite !Z.eqb_refl. reflexivity.
Qed.

Fixpoint within_tolerance_b (measured nominal : list Z) : bool :=
  match measured, nominal with
  | [], [] => true
  | m :: ms, n :: ns => timing_match m n && within_tolerance_b ms ns
  | _, _ => false
  end.

Lemma within_tolerance_b_ok measured nominal :
  within_tolerance_b measured nominal = true ->
  within_tolerance measured nominal.
Proof.
  revert nominal. induction measured as [|m ms IH]; intros [|n ns] H;
    simpl in H; try discriminate.
  - constructor.
  - apply andb_true_iff in H. destruct H as [Hm Hrest].
    constructor; [exact Hm|]. apply IH. exact Hrest.
Qed.

(** A key of an NEC2 remote, and a receiver that measures every duration a
    tenth too long. *)
Definition volume_up : irdb_entry_t :=
  {| function_name := "Vol+"; protocol := IRDB_PROTOCOL_NEC2;
     device := 57568; subdevice := 0; function := 7 |}.

Definition stretched (t : Z) : Z := t + t / 10.

Lemma tolerant_round_trip_witness :
  irdb_decode_from_raw [volume_up]
    (map stretched
       (header_of nec2_params
        ++ flat_map (pulse_distance nec2_params)
             (field_bits (fields_of nec2_params volume_up)))
     ++ [9999; 1]) = Ok volume_up.
Proof.
  apply (tolerant_round_trip volume_up nec2_params []).
  - left. reflexivity.
  - reflexivity.
  - unfold in_range. repeat split; vm_compute; congruence.
  - apply within_tolerance_b_ok. vm_compute. reflexivity.
Defined.

(** *** One frame, two protocols *)

Lemma entry_matches_own_frame e p post :
  protocol e = IRDB_PROTOCOL_NEC2 \/ protocol e = IRDB_PROTOCOL_SAMSUNG32 ->
  irdb_get_protocol_params (protocol e) = Some p ->
  in_range p e ->
  entry_matches
    (header_of p
     ++ flat_map (emit_bit (protocol e) p) (field_bits (fields_of p e))
     ++ post) e = true.
Proof.
  intros Hproto Hp Hr.
  destruct (params_widths _ _ Hp) as (Hd & Hs & Hf & Hsum).
  pose proof (fields_of_widths_ok p e Hd Hs Hf) as Hfs.
  assert (protocol e <> IRDB_PROTOCOL_NEC1) as Hne
    by (destruct Hproto as [-> | ->]; discriminate).
  assert (device_bits p <= 16 /\ subdevice_bits p <= 16 /\
          function_bits p <= 16 /\ width (fields_of p e) <= 64 /\
          forall b, decode_bit (protocol e) p
                      (nth 0 (emit_bit (protocol e) p b) 0)
                      (nth 1 (emit_bit (protocol e) p b) 0) = Some b)
    as (Hd16 & Hs16 & Hf16 & Hw & Hg).
  { unfold fields_of.
    destruct Hproto as [Hproto | Hproto]; rewrite Hproto in *;
      injection Hp as <-; repeat split; try (vm_compute; congruence);
      intros [|]; reflexivity. }
  rewrite (entry_matches_encoded e p Some _ Hp Hg).
  rewrite decode_stream_pack by (first [exact Hfs | lia]).
  unfold verdict. cbn [fst snd]. rewrite Z.eqb_refl. simpl negb.
  rewrite extract_fields_pack by (first [assumption | lia]).
  rewrite !Z.eqb_refl. reflexivity.
Qed.

Lemma nec1_own_frame_rejected e post :
  protocol e = IRDB_PROTOCOL_NEC1 ->
  entry_matches
    (header_of nec1_params
     ++ flat_map (emit_bit (protocol e) nec1_params)
          (field_bits (fields_of nec1_params e))
     ++ post) e = false.
Proof.
  intros Hproto.
  assert (irdb_get_protocol_params (protocol e) = Some nec1_params) as Hp
    by (rewrite Hproto; reflexivity).
  destruct (params_widths _ _ Hp) as (Hd & Hs & Hf & Hsum).
  pose proof (fields_of_widths_ok nec1_params e Hd Hs Hf) as Hfs.
  assert (width (fields_of nec1_params e) = 32) as Hw
    by (unfold fields_of; rewrite Hproto; reflexivity).
  rewrite (entry_matches_encoded e nec1_params Some _ Hp)
    by (rewrite Hproto; intros [|]; reflexivity).
  rewrite decode_stream_pack by (rewrite ?Hw; first [exact Hfs | lia]).
  unfold verdict. cbn [fst snd]. rewrite Z.eqb_refl. simpl negb.
  pose proof (nec1_extracts_complement e Hproto) as Hc.
  destruct (extract_fields (protocol e) nec1_params
              (pack (fields_of nec1_params e))) as [[d' s'] f'].
  simpl in Hc. subst f'.
  rewrite (proj2 (Z.eqb_neq _ _) (complement_byte_differs (function e))).
  apply andb_false_r.
Qed.

Lemma decode_skip e rest timings :
  entry_matches timings e = false ->
  irdb_decode_from_raw (e :: rest) timings = irdb_decode_from_raw rest timings.
Proof.
  intros Hm. unfold irdb_decode_from_raw.
  destruct (len timings <? 4); [reflexivity|].
  cbn [find]. rewrite Hm. reflexivity.
Qed.

(** X3. An NEC1 frame is accepted as an NEC2 frame.  The frame the encoder
    writes for an NEC1 key with device [d], subdevice [s] and function [f]
    (all below 256) decodes to an NEC2 entry with device [d * 256 + s] and
    function [f]: the decoder stops after the 24 bits of NEC2 and ignores
    the complement byte.  A database holding both reports the NEC2 one. *)
Theorem nec1_frame_read_as_nec2 (e e2 : irdb_entry_t) (max_length : Z) :
  protocol e = IRDB_PROTOCOL_NEC1 ->
  protocol e2 = IRDB_PROTOCOL_NEC2 ->
  0 <= device e < 256 -> 0 <= subdevice e < 256 -> 0 <= function e < 256 ->
  device e2 = device e * 256 + subdevice e ->
  subdevice e2 = 0 ->
  function e2 = function e ->
  67 <= max_length ->
  exists timings,
    irdb_encode_to_raw e max_length = Ok timings /\
    irdb_decode_from_raw [e2] timings = Ok e2 /\
    irdb_decode_from_raw [e; e2] timings = Ok e2.
Proof.
  intros Hp1 Hp2 Hd Hs Hf Hd2 Hs2 Hf2 Hmax.
  assert (irdb_get_protocol_params (protocol e) = Some nec1_params) as Hl1
    by (rewrite Hp1; reflexivity).
  assert (irdb_get_protocol_params (protocol e2) = Some nec2_params) as Hl2
    by (rewrite Hp2; reflexivity).
  assert (field_bits (fields_of nec1_params e) =
          field_bits (fields_of nec2_params e2)
          ++ map negb (msb_bits (function e) 8)) as Hbits.
  { rewrite nec1_field_bits by exact Hp1.
    unfold fields_of. rewrite Hp2.
    change (field_bits _) with
      (msb_bits (device e2) 16 ++ msb_bits (function e2) 8 ++ []).
    rewrite app_nil_r, Hd2, Hf2.
    change (msb_bits (device e * 256 + subdevice e) 16)
      with (msb_bits (device e * 2 ^ Z.of_nat 8 + subdevice e) (8 + 8)).
    rewrite (msb_bits_app (device e) (subdevice e) 8 8)
      by (change (2 ^ Z.of_nat 8) with 256; lia).
    rewrite <- !app_assoc. reflexivity. }
  set (post := flat_map (emit_bit (protocol e2) nec2_params)
                 (map negb (msb_bits (function e) 8))
               ++ trailer_of nec1_params).
  assert (header_of nec1_params
          ++ flat_map (emit_bit (protocol e) nec1_params)
               (field_bits (fields_of nec1_params e))
          ++ trailer_of nec1_params =
          header_of nec2_params
          ++ flat_map (emit_bit (protocol e2) nec2_params)
               (field_bits (fields_of nec2_params e2))
          ++ post) as Hframe.
  { rewrite Hbits, Hp1, Hp2. subst post. rewrite Hp2.
    rewrite flat_map_app, <- !app_assoc. reflexivity. }
  assert (in_range nec2_params e2) as Hr2.
  { unfold in_range. rewrite Hd2, Hs2, Hf2.
    change (2 ^ device_bits nec2_params) with 65536.
    change (2 ^ subdevice_bits nec2_params) with 1.
    change (2 ^ function_bits nec2_params) with 256. lia. }
  pose proof (entry_matches_own_frame e2 nec2_params post
                (or_introl Hp2) Hl2 Hr2) as Hm2.
  pose proof (nec1_own_frame_rejected e (trailer_of nec1_params) Hp1) as Hm1.
  rewrite <- Hframe in Hm2.
  eexists. split; [|split].
  - apply (encode_layout e nec1_params _ Hl1).
    rewrite (encoded_length_frame e _ Hl1), Hp1. exact Hmax.
  - apply decode_head; [|exact Hm2].
    rewrite encoded_len. unfold len.
    rewrite field_bits_length
      by (apply fields_of_widths_ok; vm_compute; congruence).
    unfold fields_of. rewrite Hp1. simpl. lia.
  - rewrite (decode_skip e [e2] _ Hm1).
    apply decode_head; [|exact Hm2].
    rewrite encoded_len. unfold len.
    rewrite field_bits_length
      by (apply fields_of_widths_ok; vm_compute; congruence).
    unfold fields_of. rewrite Hp1. simpl. lia.
Qed.

Lemma nec1_frame_read_as_nec2_witness :
  exists timings,
    irdb_encode_to_raw power 67 = Ok timings /\
    irdb_decode_from_raw
      [{| function_name := "Menu"; protocol := IRDB_PROTOCOL_NEC2;
          device := 1799; subdevice := 0; function := 12 |}] timings =
    Ok {| function_name := "Menu"; protocol := IRDB_PROTOCOL_NEC2;
          device := 1799; subdevice := 0; function := 12 |} /\
    irdb_decode_from_raw
      [power;
       {| function_name := "Menu"; protocol := IRDB_PROTOCOL_NEC2;
          device := 1799; subdevice := 0; function := 12 |}] timings =
    Ok {| function_name := "Menu"; protocol := IRDB_PROTOCOL_NEC2;
          device := 1799; subdevice := 0; function := 12 |}.
Proof.
  apply (nec1_frame_read_as_nec2 power
           {| function_name := "Menu"; protocol := IRDB_PROTOCOL_NEC2;
              device := 1799; subdevice := 0; function := 12 |} 67);
    first [reflexivity | simpl; lia].
Defined.

(** *** Instances of the round-trip results *)

Definition samsung_mute : irdb_entry_t :=
  {| function_name := "Mute"; protocol := IRDB_PROTOCOL_SAMSUNG32;
     device := 7; subdevice := 7; function := 15 |}.

Lemma pulse_distance_round_trip_witness :
  exists timings,
    irdb_encode_to_raw samsung_mute 51 = Ok timings /\
    irdb_decode_from_raw [samsung_mute; power] timings = Ok samsung_mute.
Proof.
  apply (pulse_distance_round_trip samsung_mute samsung32_params [power] 51).
  - right. reflexivity.
  - reflexivity.
  - unfold in_range. repeat split; vm_compute; congruence.
  - vm_compute. congruence.
Defined.

Definition rc5_play : irdb_entry_t :=
  {| function_name := "Play"; protocol := IRDB_PROTOCOL_RC5;
     device := 20; subdevice := 0; function := 53 |}.

Lemma rc5_round_trip_only_zero_witness :
  exists timings,
    irdb_encode_to_raw rc5_play 22 = Ok timings /\
    irdb_decode_from_raw [rc5_play] timings = Err ENOENT.
Proof.
  apply (rc5_round_trip_only_zero rc5_play 22); [reflexivity | lia].
Defined.

Definition sony_power : irdb_entry_t :=
  {| function_name := "Power"; protocol := IRDB_PROTOCOL_SONY12;
     device := 1; subdevice := 0; function := 21 |}.

Lemma sony_round_trip_fails_witness :
  exists timings,
    irdb_encode_to_raw sony_power 26 = Ok timings /\
    irdb_decode_from_raw [sony_power] timings = Err ENOENT.
Proof.
  apply (sony_round_trip_fails sony_power sony12_params 26).
  - left. reflexivity.
  - reflexivity.
  - vm_compute. congruence.
Defined.

(** *** Looking a function up by name *)

(** The code of a character, and [tolower] in the C locale. *)
Definition char_code (c : Ascii.ascii) : Z := Z.of_N (Ascii.N_of_ascii c).

Definition tolower (c : Z) : Z :=
  if (65 <=? c) && (c <=? 90) then c + 32 else c.

(** The local [strcasecmp].  A string stands for its characters followed by
    the terminator, so the end of a string reads as the character 0, and a
    character 0 inside a string ends it. *)
Fixpoint strcasecmp (s1 s2 : string) : Z :=
  match s1, s2 with
  | String a r1, String b r2 =>
      if (char_code a =? 0) || (char_code b =? 0)
      then tolower (char_code a) - tolower (char_code b)
      else if negb (tolower (char_code a) =? tolower (char_code b))
      then tolower (char_code a) - tolower (char_code b)
      else strcasecmp r1 r2
  | String a _, EmptyString => tolower (char_code a) - tolower 0
  | EmptyString, String b _ => tolower 0 - tolower (char_code b)
  | EmptyString, EmptyString => tolower 0 - tolower 0
  end.

(** [irdb_find_function] over the entries of the database: the first entry
    whose name compares equal, [None] for the [NULL] it returns otherwise. *)
Definition irdb_find_function (db : list irdb_entry_t) (function_name' : string)
    : option irdb_entry_t :=
  List.find (fun e => strcasecmp (function_name e) function_name' =? 0) db.

(** A string as C sees it: no character 0 inside. *)
Fixpoint c_string (s : string) : Prop :=
  match s with
  | EmptyString => True
  | String a r => char_code a <> 0 /\ c_string r
  end.

(** The name with its upper-case letters turned to lower case. *)
Fixpoint lower (s : string) : list Z :=
  match s with
  | EmptyString => []
  | String a r => tolower (char_code a) :: lower r
  end.

Lemma tolower_zero c : tolower c = 0 <-> c = 0.
Proof.
  unfold tolower.
  destruct (Z.leb_spec 65 c); destruct (Z.leb_spec c 90); simpl; lia.
Qed.

Lemma strcasecmp_lower s1 s2 :
  c_string s1 -> c_string s2 ->
  strcasecmp s1 s2 = 0 <-> lower s1 = lower s2.
Proof.
  revert s2. induction s1 as [|a r1 IH]; intros [|b r2] H1 H2; simpl in *.
  - split; reflexivity.
  - destruct H2 as [Hb _]. split; [|discriminate].
    intros H. exfalso. apply Hb. apply tolower_zero.
    change (tolower 0) with 0 in H. lia.
  - destruct H1 as [Ha _]. split; [|discriminate].
    intros H. exfalso. apply Ha. apply tolower_zero.
    change (tolower 0) with 0 in H. lia.
  - destruct H1 as [Ha H1]. destruct H2 as [Hb H2].
    destruct (Z.eqb_spec (char_code a) 0); [contradiction|].
    destruct (Z.eqb_spec (char_code b) 0); [contradiction|]. simpl.
    destruct (Z.eqb_spec (tolower (char_code a)) (tolower (char_code b)))
      as [Heq|Hne]; simpl.
    + rewrite (IH r2 H1 H2), Heq. split; [congruence|].
      intros [= ->]. reflexivity.
    + split; [lia|]. intros [= Hc _]. contradiction.
Qed.

(** X7. Looking a function up by name ignores the case of ASCII letters and
    returns the first entry of the database whose name agrees; it returns
    nothing exactly when no name agrees. *)
Theorem find_function_first_match (db : list irdb_entry_t) (query : string) :
  Forall (fun e => c_string (function_name e)) db ->
  c_string query ->
  match irdb_find_function db query with
  | Some e =>
      exists before after,
        db = before ++ e :: after /\
        lower (function_name e) = lower query /\
        Forall (fun e' => lower (function_name e') <> lower query) before
  | None => Forall (fun e' => lower (function_name e') <> lower query) db
  end.
Proof.
  intros Hdb Hq. unfold irdb_find_function.
  induction Hdb as [|e db He Hdb IH]; simpl.
  - constructor.
  - pose proof (strcasecmp_lower (function_name e) query He Hq) as Hiff.
    destruct (Z.eqb_spec (strcasecmp (function_name e) query) 0) as [H0|Hn].
    + exists [], db. split; [reflexivity|]. split; [tauto|constructor].
    + destruct (find _ db) as [e'|].
      * destruct IH as (before & after & -> & Hl & Hb).
        exists (e :: before), after. split; [reflexivity|].
        split; [exact Hl|]. constructor; [tauto|exact Hb].
      * constructor; [tauto|exact IH].
Qed.

Lemma find_function_first_match_witness :
  exists before after,
    [power; samsung_mute; volume_up] = before ++ samsung_mute :: after /\
    lower "Mute" = lower "mUTE" /\
    Forall (fun e' => lower (function_name e') <> lower "mUTE") before.
Proof.
  refine (find_function_first_match [power; samsung_mute; volume_up] "mUTE" _ _).
  - repeat (apply Forall_cons; split;
            [simpl; repeat split; vm_compute; congruence|]).
    apply Forall_nil. exact I.
  - simpl. repeat split; vm_compute; congruence.
Defined.

(** *** Frames as the sender needs them *)

Lemma encode_frame e p max_length :
  irdb_get_protocol_params (protocol e) = Some p ->
  frame_length (protocol e) <= max_length ->
  exists frame,
    irdb_encode_to_raw e max_length = Ok frame /\
    len frame = frame_length (protocol e).
Proof.
  intros Hp Hmax. pose proof (encoded_length_frame e p Hp) as Hlen.
  eexists. split; [apply (encode_layout e p _ Hp); lia|].
  rewrite encoded_len, <- Hlen. unfold encoded_length, len.
  destruct (params_widths _ _ Hp) as (Hd & Hsb & Hf & _).
  rewrite field_bits_length by (apply fields_of_widths_ok; assumption).
  pose proof (width_nonneg _ (fields_of_widths_ok p e Hd Hsb Hf)). lia.
Qed.

Lemma table_row_facts proto p :
  irdb_get_protocol_params proto = Some p ->
  22 <= frame_length proto <= 67 /\ 36000 <= frequency p <= 40000 /\
  0 < gap p < 2 ^ 31.
Proof.
  intros Hp. destruct (params_in_table _ _ Hp) as [Hin Hid].
  rewrite <- Hid. simpl in Hin.
  repeat (destruct Hin as [<-|Hin]; [vm_compute; repeat split; congruence|]).
  destruct Hin.
Qed.

(** The RC5 frame does not depend on the entry: both halves of either
    symbol last 889 microseconds. *)
Lemma rc5_frame e max_length :
  protocol e = IRDB_PROTOCOL_RC5 -> 22 <= max_length ->
  irdb_encode_to_raw e max_length = Ok (replicate 22 889).
Proof.
  intros Hproto Hmax.
  assert (irdb_get_protocol_params (protocol e) = Some rc5_params) as Hp
    by (rewrite Hproto; reflexivity).
  rewrite (encode_layout e rc5_params _ Hp)
    by (rewrite (encoded_length_frame e _ Hp), Hproto; exact Hmax).
  f_equal. rewrite Hproto.
  assert (forall bits,
            flat_map (emit_bit IRDB_PROTOCOL_RC5 rc5_params) bits =
            replicate (2 * length bits) 889) as Hflat.
  { induction bits as [|b bits IH]; [reflexivity|].
    cbn [flat_map]. rewrite IH.
    replace (2 * length (b :: bits))%nat with (S (S (2 * length bits)))
      by (simpl; lia).
    destruct b; reflexivity. }
  rewrite Hflat.
  destruct (params_widths _ _ Hp) as (Hd & Hsb & Hf & _).
  rewrite field_bits_length by (apply fields_of_widths_ok; assumption).
  unfold fields_of. rewrite Hproto. reflexivity.
Qed.

(** Every duration of a frame is a pulse the receiver can measure. *)
Lemma frame_durations e p post :
  irdb_get_protocol_params (protocol e) = Some p ->
  Forall (fun d => 0 < d < 100000) post ->
  Forall (fun d => 0 < d < 100000)
    (header_of p
     ++ flat_map (emit_bit (protocol e) p) (field_bits (fields_of p e))
     ++ post).
Proof.
  intros Hp Hpost. destruct (params_in_table _ _ Hp) as [Hin Hid].
  apply Forall_app. split; [|apply Forall_app; split; [|exact Hpost]].
  - unfold header_of. simpl in Hin.
    repeat (destruct Hin as [<-|Hin];
            [cbn; repeat constructor; lia|]).
    destruct Hin.
  - rewrite <- Hid. generalize (field_bits (fields_of p e)). intros bits.
    induction bits as [|b bits IH]; [constructor|].
    cbn [flat_map]. apply Forall_app. split; [|exact IH].
    simpl in Hin.
    repeat (destruct Hin as [<-|Hin];
            [destruct b; cbn; repeat constructor; lia|]).
    destruct Hin.
Qed.

(** *** Reading the CSV text *)

Definition is_eol (c : Ascii.ascii) : bool :=
  (char_code c =? 10) || (char_code c =? 13).

(** [isspace] and [isdigit] in the C locale. *)
Definition isspace (c : Ascii.ascii) : bool :=
  (char_code c =? 32) || ((9 <=? char_code c) && (char_code c <=? 13)).

Definition isdigit (c : Ascii.ascii) : bool :=
  (48 <=? char_code c) && (char_code c <=? 57).

(** The digits of a [%d] conversion, most significant first. *)
Fixpoint scan_digits (s : string) (acc : Z) : Z * string :=
  match s with
  | String c rest =>
      if isdigit c then scan_digits rest (acc * 10 + (char_code c - 48))
      else (acc, s)
  | EmptyString => (acc, s)
  end.

Fixpoint skip_space (s : string) : string :=
  match s with
  | String c rest => if isspace c then skip_space rest else s
  | EmptyString => s
  end.

Definition starts_with_digit (s : string) : bool :=
  match s with
  | String c _ => isdigit c
  | EmptyString => false
  end.

(** One [%d] of [sscanf]: white space is skipped, then an optional sign and
    at least one digit are read.  [Ok None] is a matching failure.  A value
    that does not fit an [int] is undefined, reported as
    [Fault OutOfBounds]. *)
Definition scan_int (s : string) : result (option (Z * string)) :=
  let s := skip_space s in
  let '(negative, s) :=
    match s with
    | String c rest =>
        if char_code c =? 45 then (true, rest)
        else if char_code c =? 43 then (false, rest)
        else (false, s)
    | EmptyString => (false, s)
    end in
  if negb (starts_with_digit s) then Ok None
  else
    let '(n, rest) := scan_digits s 0 in
    let n := if negative : bool then - n else n in
    if (n <? - 2 ^ 31) || (n >? 2 ^ 31 - 1) then Fault OutOfBounds
    else Ok (Some (n, rest)).

(** A [%d] that has to be followed by a comma. *)
Definition scan_int_comma (s : string) : result (option (Z * string)) :=
  let* r := scan_int s in
  match r with
  | Some (n, String c rest) =>
      if char_code c =? 44 then Ok (Some (n, rest)) else Ok None
  | _ => Ok None
  end.

(** [sscanf(s, "%d,%d,%d,%d", ...) == 4], with the four values. *)
Definition sscanf_4d (s : string) : result (option (Z * Z * Z * Z)) :=
  let* r1 := scan_int_comma s in
  match r1 with
  | None => Ok None
  | Some (a, s) =>
      let* r2 := scan_int_comma s in
      match r2 with
      | None => Ok None
      | Some (b, s) =>
          let* r3 := scan_int_comma s in
          match r3 with
          | None => Ok None
          | Some (c, s) =>
              let* r4 := scan_int s in
              match r4 with
              | None => Ok None
              | Some (d, _) => Ok (Some (a, b, c, d))
              end
          end
      end
  end.

(** [strchr(line, ',')]: what lies before the first comma and what lies
    after it. *)
Fixpoint split_comma (line : string) : option (string * string) :=
  match line with
  | EmptyString => None
  | String c rest =>
      if char_code c =? 44 then Some (EmptyString, rest)
      else match split_comma rest with
           | Some (before, after) => Some (String c before, after)
           | None => None
           end
  end.

(** An entry in memory obtained from [realloc].  [name_bytes] are the first
    31 bytes of [function_name], which [strncpy] fills; the 32nd byte is
    never written and holds whatever the allocator left there. *)
Record stored_entry : Type := {
  name_bytes : list Ascii.ascii;
  stored_protocol : Z;
  stored_device : Z;
  stored_subdevice : Z;
  stored_function : Z
}.

(** [strncpy(dst, src, n)]: the characters of [src] up to [n] of them,
    then zeros up to [n] bytes. *)
Definition strncpy_bytes (src : string) (n : nat) : list Ascii.ascii :=
  let copied := take n (list_ascii_of_string src) in
  copied ++ replicate (n - length copied) Ascii.zero.

Definition parse_csv_line (line : string) : result stored_entry :=
  match split_comma line with
  | None => Err EINVAL
  | Some (before, after) =>
      let func_name := strncpy before 31 in
      let* numbers := sscanf_4d after in
      match numbers with
      | None => Err EINVAL
      | Some (protocol', device', subdevice', function') =>
          Ok {| name_bytes := strncpy_bytes func_name 31;
                stored_protocol := u16 protocol';
                stored_device := u16 device';
                stored_subdevice := u16 subdevice';
                stored_function := u16 function' |}
      end
  end.

(** The name field read as a C string: the bytes before the first zero.
    Without a zero among the 31 bytes written, the read runs into the byte
    that was never written. *)
Fixpoint read_name (bytes : list Ascii.ascii) : result string :=
  match bytes with
  | [] => Fault OutOfBounds
  | c :: rest =>
      if char_code c =? 0 then Ok EmptyString
      else let* s := read_name rest in Ok (String c s)
  end.

Definition entry_of (e : stored_entry) : result irdb_entry_t :=
  let* function_name' := read_name (name_bytes e) in
  Ok {| function_name := function_name'; protocol := stored_protocol e;
        device := stored_device e; subdevice := stored_subdevice e;
        function := stored_function e |}.

(** The three scanning loops of [irdb_parse_csv]. *)
Fixpoint skip_blank (p : string) : string :=
  match p with
  | String c rest =>
      if is_eol c || (char_code c =? 32) then skip_blank rest else p
  | EmptyString => p
  end.

Fixpoint skip_eol (p : string) : string :=
  match p with
  | String c rest => if is_eol c then skip_eol rest else p
  | EmptyString => p
  end.

(** Reading into [line[256]], with [room] bytes left before the
    terminator. *)
Fixpoint read_line (p : string) (room : nat) : string * string :=
  match p, room with
  | String c rest, S room' =>
      if is_eol c then (EmptyString, p)
      else let '(line, p') := read_line rest room' in (String c line, p')
  | _, _ => (EmptyString, p)
  end.

Definition is_comment (line : string) : bool :=
  match line with
  | String c _ => char_code c =? 35
  | EmptyString => false
  end.

(** The main loop of [irdb_parse_csv]; [alloc_ok capacity] tells whether
    [realloc] to that capacity succeeds.  Every turn takes at least one
    character; [None] is a [fuel] that has run out, which the length of the
    text never does. *)
Fixpoint parse_lines (fuel : nat) (p : string) (alloc_ok : Z -> bool)
    (entries : list stored_entry) (capacity : Z)
    : option (result (list stored_entry)) :=
  match p with
  | EmptyString => Some (Ok entries)
  | String _ _ =>
      match fuel with
      | O => None
      | S fuel' =>
          let '(line, p) := read_line p 255 in
          let p := skip_eol p in
          if (String.length line =? 0)%nat || is_comment line
          then parse_lines fuel' p alloc_ok entries capacity
          else
            let grown :=
              if len entries >=? capacity then
                let capacity := if capacity =? 0 then 16 else u32 (capacity * 2) in
                if alloc_ok capacity then Ok capacity else Err ENOMEM
              else Ok capacity in
            match grown with
            | Ok capacity =>
                match parse_csv_line line with
                | Ok e => parse_lines fuel' p alloc_ok (entries ++ [e]) capacity
                | Err _ => parse_lines fuel' p alloc_ok entries capacity
                | Fault u => Some (Fault u)
                end
            | Err err => Some (Err err)
            | Fault u => Some (Fault u)
            end
      end
  end.

Definition irdb_parse_csv (csv_data : string) (alloc_ok : Z -> bool)
    : option (result (list stored_entry)) :=
  let p := skip_blank csv_data in
  parse_lines (String.length p) p alloc_ok [] 0.

(** *** A line of the database, written and read back *)

Definition digit_char (d : Z) : Ascii.ascii :=
  Ascii.ascii_of_N (Z.to_N (48 + d)).

(** A number as its decimal digits, most significant first. *)
Fixpoint numeral (ds : list Z) : string :=
  match ds with
  | [] => EmptyString
  | d :: rest => String (digit_char d) (numeral rest)
  end.

Definition number_from (acc : Z) (ds : list Z) : Z :=
  fold_left (fun acc d => acc * 10 + d) ds acc.

Definition number (ds : list Z) : Z := number_from 0 ds.

Definition decimal (ds : list Z) : Prop :=
  ds <> [] /\ Forall (fun d => 0 <= d <= 9) ds /\ number ds < 2 ^ 31.

Definition comma : string := String (Ascii.ascii_of_N 44) EmptyString.

(** [name,protocol,device,subdevice,function]. *)
Definition csv_line (name' : string) (p d s f : list Z) : string :=
  (name' ++ comma ++ numeral p ++ comma ++ numeral d ++ comma ++ numeral s
   ++ comma ++ numeral f)%string.

(** A name the line format can carry: no comma and no zero byte. *)
Fixpoint plain (name' : string) : Prop :=
  match name' with
  | EmptyString => True
  | String c rest => char_code c <> 44 /\ char_code c <> 0 /\ plain rest
  end.

Lemma append_nil_l (s : string) : (EmptyString ++ s)%string = s.
Proof. reflexivity. Qed.

Lemma append_cons c (s t : string) :
  (String c s ++ t)%string = String c (s ++ t)%string.
Proof. reflexivity. Qed.

Lemma digit_char_code d : 0 <= d <= 9 -> char_code (digit_char d) = 48 + d.
Proof.
  intros Hd.
  assert (d = 0 \/ d = 1 \/ d = 2 \/ d = 3 \/ d = 4 \/ d = 5 \/ d = 6 \/ d = 7
          \/ d = 8 \/ d = 9) as H by lia.
  repeat (destruct H as [->|H]; [reflexivity|]). subst. reflexivity.
Qed.

Lemma digit_char_isdigit d : 0 <= d <= 9 -> isdigit (digit_char d) = true.
Proof.
  intros Hd. unfold isdigit. rewrite (digit_char_code d Hd).
  apply andb_true_iff. split; [apply Z.leb_le|apply Z.leb_le]; lia.
Qed.

Lemma split_comma_name name' rest :
  plain name' ->
  split_comma (name' ++ comma ++ rest)%string = Some (name', rest).
Proof.
  induction name' as [|c name' IH]; intros Hp; [reflexivity|].
  cbn [plain] in Hp. destruct Hp as (Hc & _ & Hp).
  rewrite append_cons. cbn [split_comma].
  destruct (Z.eqb_spec (char_code c) 44) as [|_]; [contradiction|].
  rewrite (IH Hp). reflexivity.
Qed.

Lemma scan_digits_numeral ds tail :
  Forall (fun d => 0 <= d <= 9) ds ->
  starts_with_digit tail = false ->
  forall acc,
    scan_digits (numeral ds ++ tail)%string acc = (number_from acc ds, tail).
Proof.
  intros Hds Htail. induction Hds as [|d ds Hd Hds IH]; intros acc.
  - cbn [numeral]. rewrite append_nil_l. destruct tail as [|c tail];
      [reflexivity|].
    cbn [scan_digits]. cbn [starts_with_digit] in Htail. rewrite Htail.
    reflexivity.
  - cbn [numeral]. rewrite append_cons. cbn [scan_digits].
    rewrite (digit_char_isdigit d Hd), (digit_char_code d Hd).
    rewrite IH. unfold number_from. cbn [fold_left]. do 2 f_equal. lia.
Qed.

Lemma number_from_nonneg ds :
  Forall (fun d => 0 <= d <= 9) ds ->
  forall acc, 0 <= acc -> 0 <= number_from acc ds.
Proof.
  unfold number_from. induction 1 as [|d ds Hd Hds IH]; intros acc Hacc;
    cbn [fold_left]; [exact Hacc|]. apply IH. lia.
Qed.

Lemma scan_int_numeral ds tail :
  decimal ds -> starts_with_digit tail = false ->
  scan_int (numeral ds ++ tail)%string = Ok (Some (number ds, tail)).
Proof.
  intros (Hne & Hds & Hmax) Htail. unfold scan_int.
  destruct ds as [|d ds]; [contradiction|].
  pose proof Hds as Hall. apply Forall_cons in Hds as [Hd _].
  assert (skip_space (numeral (d :: ds) ++ tail)%string =
          String (digit_char d) (numeral ds ++ tail)%string) as ->.
  { cbn [numeral]. rewrite append_cons. cbn [skip_space].
    unfold isspace. rewrite (digit_char_code d Hd).
    destruct (Z.eqb_spec (48 + d) 32); [lia|].
    destruct (Z.leb_spec (48 + d) 13); [lia|]. rewrite andb_false_r.
    reflexivity. }
  rewrite (digit_char_code d Hd).
  destruct (Z.eqb_spec (48 + d) 45); [lia|].
  destruct (Z.eqb_spec (48 + d) 43); [lia|].
  cbn [starts_with_digit]. rewrite (digit_char_isdigit d Hd). cbn [negb].
  rewrite <- append_cons. change (String (digit_char d) (numeral ds))
    with (numeral (d :: ds)).
  rewrite (scan_digits_numeral (d :: ds) tail Hall Htail).
  fold (number (d :: ds)).
  pose proof (number_from_nonneg (d :: ds) Hall 0 ltac:(lia)) as Hpos.
  fold (number (d :: ds)) in Hpos.
  destruct (Z.ltb_spec (number (d :: ds)) (- 2 ^ 31)); [lia|].
  destruct (Z.gtb_spec (number (d :: ds)) (2 ^ 31 - 1)); [lia|].
  reflexivity.
Qed.

Lemma scan_int_comma_numeral ds rest :
  decimal ds ->
  scan_int_comma (numeral ds ++ comma ++ rest)%string
  = Ok (Some (number ds, rest)).
Proof.
  intros Hds. unfold scan_int_comma.
  rewrite (scan_int_numeral ds (comma ++ rest)%string Hds) by reflexivity.
  reflexivity.
Qed.

Lemma read_name_plain name' :
  plain name' ->
  forall pad,
    read_name (list_ascii_of_string name' ++ pad) =
    let* rest := read_name pad in Ok (name' ++ rest)%string.
Proof.
  induction name' as [|c name' IH]; intros Hp pad.
  - cbn [list_ascii_of_string app]. destruct (read_name pad); reflexivity.
  - cbn [plain] in Hp. destruct Hp as (_ & Hc & Hp).
    cbn [list_ascii_of_string app read_name].
    destruct (Z.eqb_spec (char_code c) 0) as [|_]; [contradiction|].
    rewrite (IH Hp). destruct (read_name pad); reflexivity.
Qed.

Lemma append_empty (s : string) : (s ++ "")%string = s.
Proof.
  induction s as [|c s IH]; [reflexivity|]. rewrite append_cons, IH.
  reflexivity.
Qed.

Lemma substring_all n :
  forall s, (String.length s <= n)%nat -> substring 0 n s = s.
Proof.
  induction n as [|n IH]; intros [|c s] Hlen; cbn in *; try reflexivity; try lia.
  rewrite IH by lia. reflexivity.
Qed.

Lemma length_list_ascii s :
  length (list_ascii_of_string s) = String.length s.
Proof. induction s as [|c s IH]; [reflexivity|]. cbn. rewrite IH. reflexivity. Qed.

Lemma plain_substring n :
  forall s, plain s -> plain (substring 0 n s).
Proof.
  induction n as [|n IH]; intros [|c s] Hp; cbn in *; try exact I.
  destruct Hp as (H1 & H2 & Hp). auto.
Qed.

Lemma length_substring_full n :
  forall s, (n <= String.length s)%nat -> String.length (substring 0 n s) = n.
Proof.
  induction n as [|n IH]; intros [|c s] Hlen; cbn in *; try reflexivity; try lia.
  rewrite IH by lia. reflexivity.
Qed.

(** X28. A line [name,protocol,device,subdevice,function] whose name has
    no comma and whose numbers are decimal and fit an [int] is accepted,
    and the four numbers are stored modulo 65536.  The name is stored
    whole when it has at most 30 characters.  From 31 characters on, the
    31 bytes copied hold no terminator and the 32nd byte of the field is
    never written, so the stored name has no defined end. *)
Theorem parse_csv_line_reads (name' : string) (p d s f : list Z) :
  plain name' ->
  decimal p -> decimal d -> decimal s -> decimal f ->
  exists e,
    parse_csv_line (csv_line name' p d s f) = Ok e /\
    entry_of e =
    if (String.length name' <=? 30)%nat
    then Ok {| function_name := name'; protocol := number p mod 2 ^ 16;
               device := number d mod 2 ^ 16;
               subdevice := number s mod 2 ^ 16;
               function := number f mod 2 ^ 16 |}
    else Fault OutOfBounds.
Proof.
  intros Hname Hp Hd Hs Hf. unfold parse_csv_line, csv_line.
  rewrite (split_comma_name name' _ Hname).
  unfold sscanf_4d.
  rewrite (scan_int_comma_numeral p _ Hp). cbn [bind].
  rewrite (scan_int_comma_numeral d _ Hd). cbn [bind].
  rewrite (scan_int_comma_numeral s _ Hs). cbn [bind].
  rewrite <- (append_empty (numeral f)).
  rewrite (scan_int_numeral f EmptyString Hf eq_refl). cbn [bind].
  eexists. split; [reflexivity|].
  unfold entry_of, strncpy_bytes, strncpy.
  cbn [name_bytes stored_protocol stored_device stored_subdevice
       stored_function].
  destruct (Nat.leb_spec (String.length name') 30) as [Hshort|Hlong].
  - rewrite !(substring_all 31 name') by lia.
    rewrite take_ge by (rewrite length_list_ascii; lia).
    rewrite length_list_ascii.
    destruct (31 - String.length name')%nat as [|k] eqn:Hk; [lia|].
    rewrite (read_name_plain name' Hname). cbn [replicate read_name].
    change (char_code Ascii.zero =? 0) with true. cbv iota. cbn [bind].
    rewrite append_empty. reflexivity.
  - rewrite take_ge
      by (rewrite length_list_ascii, length_substring_full; lia).
    rewrite length_list_ascii, length_substring_full by lia.
    cbn [Nat.sub replicate].
    rewrite (read_name_plain _ (plain_substring 31 name' Hname)).
    reflexivity.
Qed.

Lemma parse_csv_line_reads_witness :
  exists e,
    parse_csv_line (csv_line "Power" [1] [7] [7] [1; 2]) = Ok e /\
    entry_of e =
    Ok {| function_name := "Power"; protocol := 1; device := 7;
          subdevice := 7; function := 12 |}.
Proof.
  apply (parse_csv_line_reads "Power" [1] [7] [7] [1; 2]).
  - cbn. repeat split; discriminate.
  - split; [discriminate|]. split; [repeat constructor; lia|reflexivity].
  - split; [discriminate|]. split; [repeat constructor; lia|reflexivity].
  - split; [discriminate|]. split; [repeat constructor; lia|reflexivity].
  - split; [discriminate|]. split; [repeat constructor; lia|reflexivity].
Defined.

(** *** A database text, line by line *)

Definition newline : string := String (Ascii.ascii_of_N 10) EmptyString.

Fixpoint text_of (lines : list string) : string :=
  match lines with
  | [] => EmptyString
  | l :: rest => (l ++ newline ++ text_of rest)%string
  end.

Fixpoint no_eol (s : string) : Prop :=
  match s with
  | EmptyString => True
  | String c rest => is_eol c = false /\ no_eol rest
  end.

(** A line that fits the line buffer and does not begin with a space. *)
Definition line_ok (l : string) : Prop :=
  (String.length l <= 255)%nat /\ no_eol l /\
  match l with
  | String c _ => char_code c <> 32
  | EmptyString => True
  end.

(** What a line contributes to the database: nothing when it is empty, a
    comment, or not accepted by [parse_csv_line]. *)
Definition kept (l : string) : list stored_entry :=
  if (String.length l =? 0)%nat || is_comment l then []
  else match parse_csv_line l with
       | Ok e => [e]
       | _ => []
       end.

Definition defined (l : string) : Prop :=
  match parse_csv_line l with
  | Fault _ => False
  | _ => True
  end.

Lemma length_append (s t : string) :
  String.length (s ++ t)%string = (String.length s + String.length t)%nat.
Proof.
  induction s as [|c s IH]; [reflexivity|]. rewrite append_cons. cbn.
  rewrite IH. reflexivity.
Qed.

Lemma read_line_whole l :
  forall rest room,
    no_eol l -> (String.length l <= room)%nat ->
    read_line (l ++ newline ++ rest)%string room = (l, (newline ++ rest)%string).
Proof.
  induction l as [|c l IH]; intros rest room Hl Hroom.
  - rewrite append_nil_l. destruct room; reflexivity.
  - cbn [no_eol] in Hl. destruct Hl as [Hc Hl]. cbn in Hroom.
    destruct room as [|room]; [lia|].
    rewrite append_cons. cbn [read_line]. rewrite Hc.
    rewrite (IH rest room Hl) by lia. reflexivity.
Qed.

Lemma skip_eol_newline rest :
  skip_eol (newline ++ rest)%string = skip_eol rest.
Proof. reflexivity. Qed.

Lemma skip_blank_text lines :
  Forall line_ok lines ->
  skip_blank (text_of lines) = skip_eol (text_of lines).
Proof.
  induction 1 as [|l lines (_ & Hl & Hsp) Hlines IH]; [reflexivity|].
  cbn [text_of]. destruct l as [|c l].
  - rewrite append_nil_l. exact IH.
  - cbn [no_eol] in Hl. destruct Hl as [Hc _].
    rewrite append_cons. cbn [skip_blank skip_eol]. rewrite Hc.
    destruct (Z.eqb_spec (char_code c) 32); [contradiction|]. reflexivity.
Qed.

Lemma skip_eol_shorter p : (String.length (skip_eol p) <= String.length p)%nat.
Proof.
  induction p as [|c p IH]; [reflexivity|]. cbn [skip_eol].
  destruct (is_eol c); cbn; lia.
Qed.

Lemma parse_lines_text alloc_ok lines :
  (forall capacity, alloc_ok capacity = true) ->
  Forall line_ok lines -> Forall defined lines ->
  forall fuel entries capacity,
    (String.length (skip_eol (text_of lines)) <= fuel)%nat ->
    parse_lines fuel (skip_eol (text_of lines)) alloc_ok entries capacity =
    Some (Ok (entries ++ flat_map kept lines)).
Proof.
  intros Halloc Hok Hdef. revert Hdef.
  induction Hok as [|l lines (Hlen & Hl & _) Hlines IH]; intros Hdef fuel
    entries capacity Hfuel.
  - cbn [text_of skip_eol flat_map]. rewrite app_nil_r.
    destruct fuel; reflexivity.
  - apply Forall_cons in Hdef as [Hd Hdef]. specialize (IH Hdef).
    cbn [text_of flat_map] in *.
    pose proof (skip_eol_shorter (text_of lines)) as Hshort.
    destruct l as [|c l].
    + rewrite append_nil_l, skip_eol_newline in *.
      rewrite IH by exact Hfuel. reflexivity.
    + pose proof Hl as Hl'. cbn [no_eol] in Hl'. destruct Hl' as [Hc _].
      assert (skip_eol (String c l ++ newline ++ text_of lines)%string =
              (String c l ++ newline ++ text_of lines)%string) as Hskip
        by (rewrite append_cons; cbn [skip_eol]; rewrite Hc; reflexivity).
      rewrite Hskip in *.
      rewrite !length_append in Hfuel. cbn [newline String.length] in Hfuel.
      destruct fuel as [|fuel]; [cbn in Hfuel; lia|].
      assert (parse_lines (S fuel)
                (String c l ++ newline ++ text_of lines)%string alloc_ok
                entries capacity =
              let '(line, p) :=
                read_line (String c l ++ newline ++ text_of lines)%string 255 in
              let p := skip_eol p in
              if (String.length line =? 0)%nat || is_comment line
              then parse_lines fuel p alloc_ok entries capacity
              else
                match (if len entries >=? capacity then
                         let capacity :=
                           if capacity =? 0 then 16 else u32 (capacity * 2) in
                         if alloc_ok capacity then Ok capacity else Err ENOMEM
                       else Ok capacity) with
                | Ok capacity =>
                    match parse_csv_line line with
                    | Ok e => parse_lines fuel p alloc_ok (entries ++ [e]) capacity
                    | Err _ => parse_lines fuel p alloc_ok entries capacity
                    | Fault u => Some (Fault u)
                    end
                | Err err => Some (Err err)
                | Fault u => Some (Fault u)
                end) as ->
        by (rewrite append_cons; reflexivity).
      rewrite (read_line_whole (String c l) (text_of lines) 255 Hl Hlen).
      rewrite skip_eol_newline.
      unfold kept. unfold defined in Hd.
      destruct ((String.length (String c l) =? 0)%nat || is_comment (String c l)).
      * rewrite IH by lia. reflexivity.
      * destruct (len entries >=? capacity); cbv zeta; rewrite ?Halloc;
          (destruct (parse_csv_line (String c l)) as [e|err|u];
           [| |contradiction];
           rewrite IH by lia; rewrite <- ?app_assoc;
           reflexivity).
Qed.

(** X29. A database text made of lines of at most 255 characters, none
    beginning with a space, each ended by a newline: as long as memory can
    be had, parsing returns, and the database holds, in the order of the
    text, one entry for every line that [parse_csv_line] accepts; empty
    lines, lines beginning with [#] and lines it rejects leave no trace and
    do not stop the parse. *)
Theorem parse_csv_line_by_line (lines : list string) (alloc_ok : Z -> bool) :
  (forall capacity, alloc_ok capacity = true) ->
  Forall line_ok lines ->
  Forall defined lines ->
  irdb_parse_csv (text_of lines) alloc_ok = Some (Ok (flat_map kept lines)).
Proof.
  intros Halloc Hok Hdef. unfold irdb_parse_csv.
  rewrite (skip_blank_text lines Hok).
  rewrite (parse_lines_text alloc_ok lines Halloc Hok Hdef);
    [reflexivity|lia].
Qed.

Definition sample_lines : list string :=
  ["# Samsung TV"; ""; csv_line "Power" [1] [7] [7] [1; 2]; "no numbers here";
   csv_line "Mute" [2; 0] [7] [7] [1; 5]].

Lemma parse_csv_line_by_line_witness :
  irdb_parse_csv (text_of sample_lines) (fun _ => true) =
  Some (Ok (flat_map kept sample_lines)).
Proof.
  apply (parse_csv_line_by_line sample_lines (fun _ => true)).
  - reflexivity.
  - repeat (apply Forall_cons; split;
            [split; [vm_compute; lia|]; split;
             [vm_compute; repeat split | vm_compute; try exact I; discriminate]|]).
    apply Forall_nil. exact I.
  - repeat (apply Forall_cons; split; [vm_compute; exact I|]).
    apply Forall_nil. exact I.
Defined.

End Protocol.

(** ** ir_learning.h / ir_learning.c *)

Module Learning.

Definition IR_LEARNING_MAX_EDGES : Z := 512.
Definition LEARNING_TIMEOUT_DEFAULT_MS : Z := 5000.
Definition SIGNAL_END_TIMEOUT_MS : Z := 150.
Definition MIN_PULSE_US : Z := 50.

(** [timings] is a pointer to a buffer of [uint32_t]: [None] is [NULL],
    [Some buf] a live buffer holding [buf]. *)
Record ir_learned_signal_t : Type := {
  name : string;
  timings : option (list Z);
  timing_count : Z;
  carrier_freq : Z;
  total_duration_us : Z;
  valid : bool
}.

Record ir_signal_analysis_t : Type := {
  avg_mark : Z;
  avg_space : Z;
  min_pulse : Z;
  max_pulse : Z;
  pulse_count : Z;
  estimated_freq : Z
}.

(** [signal->timings[i]]. *)
Definition read_timing (signal : ir_learned_signal_t) (i : Z) : result Z :=
  match timings signal with
  | None => Fault OutOfBounds
  | Some buf =>
      match buf !! Z.to_nat i with
      | Some t => Ok t
      | None => Fault OutOfBounds
      end
  end.

(** *** ir_learning_analyze *)

(** The locals of the analysis loop. *)
Record analysis_acc : Type := {
  acc_min : Z;
  acc_max : Z;
  mark_sum : Z;
  space_sum : Z;
  mark_count : Z;
  space_count : Z
}.

Definition analyze_step (acc : analysis_acc) (i duration : Z) : analysis_acc :=
  let is_mark := i mod 2 =? 0 in
  {| acc_min := if duration <? acc_min acc then duration else acc_min acc;
     acc_max := if duration >? acc_max acc then duration else acc_max acc;
     mark_sum := if is_mark then u64 (mark_sum acc + duration) else mark_sum acc;
     space_sum := if is_mark then space_sum acc else u64 (space_sum acc + duration);
     mark_count := if is_mark then u32 (mark_count acc + 1) else mark_count acc;
     space_count := if is_mark then space_count acc else u32 (space_count acc + 1) |}.

(** [for (uint16_t i = 0; i < signal->timing_count; i++)], with [n] the
    number of iterations left. *)
Fixpoint analyze_loop (signal : ir_learned_signal_t) (n : nat) (i : Z)
    (acc : analysis_acc) : result analysis_acc :=
  match n with
  | O => Ok acc
  | S n' =>
      let* duration := read_timing signal i in
      analyze_loop signal n' (i + 1) (analyze_step acc i duration)
  end.

(** The rounding to common carrier frequencies. *)
Definition snap_frequency (estimated_freq : Z) : Z :=
  if (estimated_freq >? 35000) && (estimated_freq <? 41000) then 38000
  else if (estimated_freq >? 33000) && (estimated_freq <? 37000) then 36000
  else if (estimated_freq >? 38000) && (estimated_freq <? 42000) then 40000
  else estimated_freq.

Definition ir_learning_analyze (signal : ir_learned_signal_t)
    : result ir_signal_analysis_t :=
  if negb (valid signal) then Err EINVAL
  else
    let* acc :=
      analyze_loop signal (Z.to_nat (timing_count signal)) 0
        {| acc_min := UINT32_MAX; acc_max := 0; mark_sum := 0; space_sum := 0;
           mark_count := 0; space_count := 0 |} in
    let avg_mark :=
      if mark_count acc >? 0 then u32 (mark_sum acc / mark_count acc) else 0 in
    let avg_space :=
      if space_count acc >? 0 then u32 (space_sum acc / space_count acc) else 0 in
    let* estimated_freq :=
      (if acc_min acc >? 0
       then if u32 (acc_min acc * 2) =? 0 then Fault DivisionByZero
            else Ok (snap_frequency (1000000 / u32 (acc_min acc * 2)))
       else Ok 0) in
    Ok {| avg_mark := avg_mark; avg_space := avg_space;
          min_pulse := acc_min acc; max_pulse := acc_max acc;
          pulse_count := timing_count signal;
          estimated_freq := estimated_freq |}.

(** *** ir_learning_compare *)

(** The comparison loop; [matches] is a [uint32_t]. *)
Fixpoint compare_loop (sig1 sig2 : ir_learned_signal_t) (n : nat) (i : Z)
    (matches : Z) : result Z :=
  match n with
  | O => Ok matches
  | S n' =>
      let* t1 := read_timing sig1 i in
      let* t2 := read_timing sig2 i in
      let diff := if t1 >? t2 then u32 (t1 - t2) else u32 (t2 - t1) in
      compare_loop sig1 sig2 n' (i + 1)
        (if diff <=? 200 then u32 (matches + 1) else matches)
  end.

Definition ir_learning_compare (sig1 sig2 : ir_learned_signal_t) : result Z :=
  if negb (valid sig1) || negb (valid sig2) then Err EINVAL
  else if Z.abs (timing_count sig1 - timing_count sig2) >? 10 then Ok 0
  else
    let min_len :=
      if timing_count sig1 <? timing_count sig2
      then timing_count sig1 else timing_count sig2 in
    let* matches := compare_loop sig1 sig2 (Z.to_nat min_len) 0 0 in
    if min_len =? 0 then Fault DivisionByZero
    else Ok (u8 (u32 (matches * 100) / min_len)).

(** *** The capture state machine *)

Inductive ir_learn_status_t : Type :=
| IR_LEARN_IDLE
| IR_LEARN_WAITING
| IR_LEARN_RECEIVING
| IR_LEARN_COMPLETED
| IR_LEARN_TIMEOUT
| IR_LEARN_ERROR.

(** The static [learn_state].  [callback] records whether a callback is
    registered; a timer is [None] when stopped and [Some ms] when armed. *)
Record learn_state_t : Type := {
  current_signal : ir_learned_signal_t;
  callback : bool;
  timeout_timer : option Z;
  end_timer : option Z;
  active : bool;
  edge_count : Z;
  start_time_us : Z
}.

(** One call of the registered callback: the status and the signal
    argument as it is at the time of the call ([None] is [NULL]). *)
Definition notification : Type := ir_learn_status_t * option ir_learned_signal_t.

(** [learn_state] and what the module does to its surroundings: whether the
    HAL edge source runs, and the callback invocations so far. *)
Record machine : Type := {
  learn_state : learn_state_t;
  hal_rx_active : bool;
  delivered : list notification
}.

Definition zero_signal : ir_learned_signal_t :=
  {| name := ""; timings := None; timing_count := 0; carrier_freq := 0;
     total_duration_us := 0; valid := false |}.

(** [learn_state] as the loader leaves it: all zero. *)
Definition zero_state : learn_state_t :=
  {| current_signal := zero_signal; callback := false;
     timeout_timer := None; end_timer := None; active := false;
     edge_count := 0; start_time_us := 0 |}.

Definition power_on : machine :=
  {| learn_state := zero_state; hal_rx_active := false; delivered := [] |}.

Definition set_state (m : machine) (st : learn_state_t) : machine :=
  {| learn_state := st; hal_rx_active := hal_rx_active m;
     delivered := delivered m |}.

Definition ir_hal_rx_stop (m : machine) : machine :=
  {| learn_state := learn_state m; hal_rx_active := false;
     delivered := delivered m |}.

(** [if (learn_state.callback) learn_state.callback(status, signal, ...)]. *)
Definition notify (m : machine) (status : ir_learn_status_t)
    (signal : option ir_learned_signal_t) : machine :=
  if callback (learn_state m)
  then {| learn_state := learn_state m; hal_rx_active := hal_rx_active m;
          delivered := delivered m ++ [(status, signal)] |}
  else m.

Definition signal_end_handler (m : machine) : machine :=
  let st := learn_state m in
  if negb (active st) || (edge_count st =? 0) then m
  else
    let signal :=
      {| name := name (current_signal st);
         timings := timings (current_signal st);
         timing_count := u16 (edge_count st);
         carrier_freq := carrier_freq (current_signal st);
         total_duration_us := total_duration_us (current_signal st);
         valid := true |} in
    let st :=
      {| current_signal := signal; callback := callback st;
         timeout_timer := timeout_timer st; end_timer := end_timer st;
         active := false; edge_count := edge_count st;
         start_time_us := start_time_us st |} in
    notify (ir_hal_rx_stop (set_state m st)) IR_LEARN_COMPLETED (Some signal).

Definition set_active (st : learn_state_t) (a : bool) : learn_state_t :=
  {| current_signal := current_signal st; callback := callback st;
     timeout_timer := timeout_timer st; end_timer := end_timer st;
     active := a; edge_count := edge_count st;
     start_time_us := start_time_us st |}.

Definition learning_timeout_handler (m : machine) : machine :=
  let st := learn_state m in
  if negb (active st) then m
  else
    notify (ir_hal_rx_stop (set_state m (set_active st false)))
      IR_LEARN_TIMEOUT None.

(** [learning_rx_callback] for a pulse of [duration_us]; [now_us] is what
    the cycle counter reads. *)
Definition learning_rx_callback (m : machine) (duration_us now_us : Z) : machine :=
  let st := learn_state m in
  if negb (active st) then m
  else if duration_us <? MIN_PULSE_US then m
  else
    match timings (current_signal st) with
    | None =>
        notify (ir_hal_rx_stop (set_state m (set_active st false)))
          IR_LEARN_ERROR None
    | Some buf =>
        let m :=
          if edge_count st =? 0
          then notify
                 (set_state m
                    {| current_signal := current_signal st;
                       callback := callback st;
                       timeout_timer := timeout_timer st;
                       end_timer := end_timer st; active := active st;
                       edge_count := edge_count st;
                       start_time_us := now_us |})
                 IR_LEARN_RECEIVING None
          else m in
        let st := learn_state m in
        if edge_count st >=? IR_LEARNING_MAX_EDGES then
          signal_end_handler
            (set_state m
               {| current_signal := current_signal st; callback := callback st;
                  timeout_timer := timeout_timer st; end_timer := None;
                  active := active st; edge_count := edge_count st;
                  start_time_us := start_time_us st |})
        else
          let signal :=
            {| name := name (current_signal st);
               timings := Some (<[Z.to_nat (edge_count st) := duration_us]> buf);
               timing_count := timing_count (current_signal st);
               carrier_freq := carrier_freq (current_signal st);
               total_duration_us := total_duration_us (current_signal st);
               valid := valid (current_signal st) |} in
          set_state m
            {| current_signal := signal; callback := callback st;
               timeout_timer := timeout_timer st;
               end_timer := Some SIGNAL_END_TIMEOUT_MS;
               active := active st; edge_count := u32 (edge_count st + 1);
               start_time_us := start_time_us st |}
    end.

(** [ir_learning_init]; [alloc_ok] tells whether [k_malloc] succeeds. *)
Definition ir_learning_init (m : machine) (alloc_ok : bool) : machine * result unit :=
  if alloc_ok then
    (set_state m
       {| current_signal :=
            {| name := ""; timings := Some (replicate (Z.to_nat IR_LEARNING_MAX_EDGES) 0);
               timing_count := 0; carrier_freq := 0; total_duration_us := 0;
               valid := false |};
          callback := false; timeout_timer := None; end_timer := None;
          active := false; edge_count := 0; start_time_us := 0 |},
     Ok tt)
  else (set_state m zero_state, Err ENOMEM).

(** [ir_learning_start]; [hal_error] is the error [ir_hal_rx_start] returns,
    if any. *)
Definition ir_learning_start (m : machine) (signal_name : string)
    (cb : bool) (timeout_ms : Z) (hal_error : option errno)
    : machine * result unit :=
  let st := learn_state m in
  if active st then (m, Err EBUSY)
  else
    match timings (current_signal st) with
    | None => (m, Err EINVAL)
    | Some _ =>
        let signal :=
          {| name := strncpy signal_name 31;
             timings := Some (replicate (Z.to_nat IR_LEARNING_MAX_EDGES) 0);
             timing_count := 0; carrier_freq := 0; total_duration_us := 0;
             valid := false |} in
        let st :=
          {| current_signal := signal; callback := cb;
             timeout_timer := timeout_timer st; end_timer := end_timer st;
             active := true; edge_count := 0;
             start_time_us := start_time_us st |} in
        match hal_error with
        | None =>
            let timeout :=
              if timeout_ms >? 0 then timeout_ms else LEARNING_TIMEOUT_DEFAULT_MS in
            let st :=
              {| current_signal := signal; callback := cb;
                 timeout_timer := Some timeout; end_timer := end_timer st;
                 active := true; edge_count := 0;
                 start_time_us := start_time_us st |} in
            (notify {| learn_state := st; hal_rx_active := true;
                       delivered := delivered m |} IR_LEARN_WAITING None,
             Ok tt)
        | Some e => (set_state m (set_active st false), Err e)
        end
    end.

Definition ir_learning_stop (m : machine) : machine :=
  let st := learn_state m in
  if negb (active st) then m
  else
    ir_hal_rx_stop
      (set_state m
         {| current_signal := current_signal st; callback := callback st;
            timeout_timer := None; end_timer := None; active := false;
            edge_count := edge_count st; start_time_us := start_time_us st |}).

(** Everything that can happen to the module. *)
Inductive event : Type :=
| Init (alloc_ok : bool)
| Start (signal_name : string) (cb : bool) (timeout_ms : Z) (hal_error : option errno)
| Edge (duration_us now_us : Z)
| EndTimerExpires
| TimeoutTimerExpires
| Stop.

Definition step (m : machine) (ev : event) : machine :=
  match ev with
  | Init alloc_ok => fst (ir_learning_init m alloc_ok)
  | Start signal_name cb timeout_ms hal_error =>
      fst (ir_learning_start m signal_name cb timeout_ms hal_error)
  | Edge duration_us now_us => learning_rx_callback m duration_us now_us
  | EndTimerExpires => signal_end_handler m
  | TimeoutTimerExpires => learning_timeout_handler m
  | Stop => ir_learning_stop m
  end.

Definition run (evs : list event) (m : machine) : machine :=
  fold_left step evs m.

Definition reachable (m : machine) : Prop :=
  exists evs, m = run evs power_on.

(** *** Well-formed signals *)

(** A signal as a caller holds it: a live buffer with [timing_count]
    readable [uint32_t] values, and a count that fits its [uint16_t]. *)
Definition well_formed (signal : ir_learned_signal_t) : Prop :=
  exists buf,
    timings signal = Some buf /\
    0 <= timing_count signal < 2 ^ 16 /\
    timing_count signal <= len buf /\
    Forall (fun t => 0 <= t <= UINT32_MAX) buf.

Definition signal_of (buf : list Z) : ir_learned_signal_t :=
  {| name := "learned"; timings := Some buf; timing_count := len buf;
     carrier_freq := 0; total_duration_us := 0; valid := true |}.

(** *** Reading a well-formed signal *)

Lemma read_timing_ok signal buf i t :
  timings signal = Some buf -> buf !! i = Some t ->
  read_timing signal (Z.of_nat i) = Ok t.
Proof.
  intros Hb Ht. unfold read_timing. rewrite Hb, Nat2Z.id, Ht. reflexivity.
Qed.

(** The analysis loop as a fold over the values read, with their index. *)
Fixpoint analyze_fold (l : list Z) (i : Z) (acc : analysis_acc) : analysis_acc :=
  match l with
  | [] => acc
  | duration :: l' => analyze_fold l' (i + 1) (analyze_step acc i duration)
  end.

Lemma analyze_loop_ok signal buf :
  timings signal = Some buf ->
  forall n i acc,
    (i + n <= length buf)%nat ->
    analyze_loop signal n (Z.of_nat i) acc =
    Ok (analyze_fold (take n (drop i buf)) (Z.of_nat i) acc).
Proof.
  intros Hb. induction n as [|n IH]; intros i acc Hlen; simpl.
  - reflexivity.
  - destruct (lookup_lt_is_Some_2 buf i ltac:(lia)) as [t Ht].
    rewrite (read_timing_ok _ _ _ _ Hb Ht). simpl.
    rewrite (drop_S _ _ _ Ht). simpl.
    replace (Z.of_nat i + 1) with (Z.of_nat (S i)) by lia.
    apply IH. lia.
Qed.

Lemma acc_min_fold l i acc :
  acc_min (analyze_fold l i acc) = fold_left Z.min l (acc_min acc).
Proof.
  revert i acc. induction l as [|d l IH]; intros i acc; simpl.
  - reflexivity.
  - rewrite IH. simpl. f_equal.
    destruct (Z.ltb_spec d (acc_min acc)); lia.
Qed.

(** The shortest of the pulses the analysis reads. *)
Definition minimum_pulse (buf : list Z) (count : Z) : Z :=
  fold_left Z.min (take (Z.to_nat count) buf) UINT32_MAX.

(** What [ir_learning_analyze] reports as carrier frequency. *)
Lemma analyze_estimated_freq signal buf :
  valid signal = true ->
  timings signal = Some buf ->
  timing_count signal <= len buf ->
  0 < minimum_pulse buf (timing_count signal) < 2 ^ 31 ->
  exists analysis,
    ir_learning_analyze signal = Ok analysis /\
    min_pulse analysis = minimum_pulse buf (timing_count signal) /\
    estimated_freq analysis =
    snap_frequency (1000000 / (2 * minimum_pulse buf (timing_count signal))).
Proof.
  intros Hv Hb Hlen Hmin. unfold ir_learning_analyze. rewrite Hv. simpl negb.
  cbv iota.
  rewrite (analyze_loop_ok signal buf Hb _ 0%nat)
    by (unfold len in Hlen; lia).
  simpl bind. rewrite drop_0.
  set (acc := analyze_fold _ _ _).
  assert (acc_min acc = minimum_pulse buf (timing_count signal)) as Hacc
    by (subst acc; rewrite acc_min_fold; reflexivity).
  rewrite Hacc.
  destruct (Z.gtb_spec (minimum_pulse buf (timing_count signal)) 0); [|lia].
  assert (u32 (minimum_pulse buf (timing_count signal) * 2) =
          2 * minimum_pulse buf (timing_count signal)) as ->.
  { unfold u32. rewrite Z.mod_small; [lia|].
    change (2 ^ 32) with (2 * 2 ^ 31). lia. }
  destruct (Z.eqb_spec (2 * minimum_pulse buf (timing_count signal)) 0); [lia|].
  simpl bind. eexists. split; [reflexivity|]. simpl. split; reflexivity.
Qed.

(** A minimum pulse of 13 microseconds is reported as 38 kHz. *)
Lemma analyze_min_pulse_13 signal buf :
  valid signal = true ->
  timings signal = Some buf ->
  timing_count signal <= len buf ->
  minimum_pulse buf (timing_count signal) = 13 ->
  exists analysis,
    ir_learning_analyze signal = Ok analysis /\
    1000000 / (2 * min_pulse analysis) = 38461 /\
    estimated_freq analysis = 38000.
Proof.
  intros Hv Hb Hlen Hmin.
  destruct (analyze_estimated_freq signal buf Hv Hb Hlen) as (a & Ha & Hm & He).
  - rewrite Hmin. lia.
  - exists a. rewrite Hm, He, Hmin. repeat split; [exact Ha | reflexivity..].
Qed.

(** The canonical carrier bands, and the one closest to an estimate. *)
Definition canonical_bands : list Z := [36000; 38000; 40000].

Definition nearest_band (estimated_freq : Z) : Z :=
  fold_left
    (fun best band =>
       if Z.abs (estimated_freq - band) <? Z.abs (estimated_freq - best)
       then band else best)
    canonical_bands 36000.

(** C5. A valid signal whose shortest pulse is 14 microseconds gives the
    raw estimate 35714 Hz.  The nearest canonical band is 36 kHz, and the
    estimate lies inside the window (33000, 37000) the code tests for that
    band, yet the reported frequency is 38000: the test for the 38 kHz
    window (35000, 41000) comes first and overlaps it. *)
Theorem analyze_min_pulse_14_misses_nearest_band
    (signal : ir_learned_signal_t) (buf : list Z) :
  valid signal = true ->
  timings signal = Some buf ->
  timing_count signal <= len buf ->
  minimum_pulse buf (timing_count signal) = 14 ->
  exists analysis,
    ir_learning_analyze signal = Ok analysis /\
    1000000 / (2 * min_pulse analysis) = 35714 /\
    nearest_band 35714 = 36000 /\
    estimated_freq analysis = 38000.
Proof.
  intros Hv Hb Hlen Hmin.
  destruct (analyze_estimated_freq signal buf Hv Hb Hlen) as (a & Ha & Hm & He).
  - rewrite Hmin. lia.
  - exists a. rewrite Hm, He, Hmin. repeat split; [exact Ha | reflexivity..].
Qed.

Lemma analyze_min_pulse_14_misses_nearest_band_witness :
  exists analysis,
    ir_learning_analyze (signal_of [560; 14; 1690]) = Ok analysis /\
    1000000 / (2 * min_pulse analysis) = 35714 /\
    nearest_band 35714 = 36000 /\
    estimated_freq analysis = 38000.
Proof.
  apply (analyze_min_pulse_14_misses_nearest_band
           (signal_of [560; 14; 1690]) [560; 14; 1690]);
    [reflexivity | reflexivity | vm_compute; discriminate | reflexivity].
Defined.

(** *** Similarity *)

(** How many positions of two sequences differ by at most 200 microseconds,
    up to the end of the shorter one. *)
Fixpoint matching_pairs (l1 l2 : list Z) : Z :=
  match l1, l2 with
  | a :: l1', b :: l2' =>
      (if Z.abs (a - b) <=? 200 then 1 else 0) + matching_pairs l1' l2'
  | _, _ => 0
  end.

Lemma matching_pairs_bound l1 l2 :
  0 <= matching_pairs l1 l2 <= len l1.
Proof.
  revert l2. induction l1 as [|a l1 IH]; intros [|b l2]; unfold len in *;
    simpl; try lia.
  specialize (IH l2). destruct (Z.abs (a - b) <=? 200); lia.
Qed.

Lemma matching_pairs_same l :
  matching_pairs l l = len l.
Proof.
  induction l as [|a l IH]; unfold len in *; simpl; [reflexivity|].
  rewrite IH, Z.sub_diag. simpl. lia.
Qed.

Lemma compare_loop_ok sig1 sig2 buf1 buf2 :
  timings sig1 = Some buf1 -> timings sig2 = Some buf2 ->
  Forall (fun t => 0 <= t <= UINT32_MAX) buf1 ->
  Forall (fun t => 0 <= t <= UINT32_MAX) buf2 ->
  forall n i matches,
    (i + n <= length buf1)%nat -> (i + n <= length buf2)%nat ->
    0 <= matches -> matches + Z.of_nat n <= UINT32_MAX ->
    compare_loop sig1 sig2 n (Z.of_nat i) matches =
    Ok (matches + matching_pairs (take n (drop i buf1)) (take n (drop i buf2))).
Proof.
  intros Hb1 Hb2 Hr1 Hr2. unfold UINT32_MAX in *.
  induction n as [|n IH]; intros i m Hl1 Hl2 Hm Hsum; simpl.
  - f_equal. lia.
  - destruct (lookup_lt_is_Some_2 buf1 i ltac:(lia)) as [t1 Ht1].
    destruct (lookup_lt_is_Some_2 buf2 i ltac:(lia)) as [t2 Ht2].
    rewrite (read_timing_ok _ _ _ _ Hb1 Ht1), (read_timing_ok _ _ _ _ Hb2 Ht2).
    simpl bind.
    rewrite (drop_S _ _ _ Ht1), (drop_S _ _ _ Ht2). simpl.
    pose proof (proj1 (Forall_lookup _ _) Hr1 _ _ Ht1) as R1.
    pose proof (proj1 (Forall_lookup _ _) Hr2 _ _ Ht2) as R2.
    simpl in R1, R2.
    assert ((if t1 >? t2 then u32 (t1 - t2) else u32 (t2 - t1)) = Z.abs (t1 - t2))
      as ->.
    { unfold u32. destruct (Z.gtb_spec t1 t2); rewrite Z.mod_small; lia. }
    replace (Z.of_nat i + 1) with (Z.of_nat (S i)) by lia.
    rewrite IH; try lia.
    + f_equal. destruct (Z.abs (t1 - t2) <=? 200); [|lia].
      unfold u32. rewrite Z.mod_small; lia.
    + destruct (Z.abs (t1 - t2) <=? 200); [|lia].
      unfold u32. rewrite Z.mod_small; lia.
    + destruct (Z.abs (t1 - t2) <=? 200); [|lia].
      unfold u32. rewrite Z.mod_small; lia.
Qed.

(** The comparison of two valid, well-formed signals of similar length. *)
Lemma compare_similar_length sig1 sig2 buf1 buf2 :
  valid sig1 = true -> valid sig2 = true ->
  timings sig1 = Some buf1 -> timings sig2 = Some buf2 ->
  Forall (fun t => 0 <= t <= UINT32_MAX) buf1 ->
  Forall (fun t => 0 <= t <= UINT32_MAX) buf2 ->
  0 <= timing_count sig1 < 2 ^ 16 -> 0 <= timing_count sig2 < 2 ^ 16 ->
  timing_count sig1 <= len buf1 -> timing_count sig2 <= len buf2 ->
  Z.abs (timing_count sig1 - timing_count sig2) <= 10 ->
  let min_len := Z.min (timing_count sig1) (timing_count sig2) in
  let matches :=
    matching_pairs (take (Z.to_nat min_len) buf1) (take (Z.to_nat min_len) buf2) in
  0 <= matches <= min_len /\
  ir_learning_compare sig1 sig2 =
  if min_len =? 0 then Fault DivisionByZero else Ok (matches * 100 / min_len).
Proof.
  intros Hv1 Hv2 Hb1 Hb2 Hr1 Hr2 Hc1 Hc2 Hl1 Hl2 Hdiff min_len matches.
  assert (0 <= matches <= min_len) as Hm.
  { subst matches.
    pose proof (matching_pairs_bound (take (Z.to_nat min_len) buf1)
                  (take (Z.to_nat min_len) buf2)) as Hb.
    unfold len in *. rewrite length_take in Hb. subst min_len. lia. }
  split; [exact Hm|].
  unfold ir_learning_compare. rewrite Hv1, Hv2. simpl.
  destruct (Z.gtb_spec (Z.abs (timing_count sig1 - timing_count sig2)) 10);
    [lia|].
  assert ((if timing_count sig1 <? timing_count sig2
           then timing_count sig1 else timing_count sig2) = min_len) as ->.
  { subst min_len. destruct (Z.ltb_spec (timing_count sig1) (timing_count sig2)); lia. }
  unfold len in *.
  rewrite (compare_loop_ok sig1 sig2 buf1 buf2 Hb1 Hb2 Hr1 Hr2 _ 0%nat);
    try (unfold UINT32_MAX; subst min_len; lia).
  simpl bind. rewrite !drop_0, Z.add_0_l. fold matches.
  destruct (Z.eqb_spec min_len 0) as [|Hne]; [reflexivity|].
  f_equal. unfold u32, u8.
  rewrite (Z.mod_small (matches * 100))
    by (subst min_len; change (2 ^ 32) with 4294967296; lia).
  apply Z.mod_small.
  assert (matches * 100 / min_len <= 100).
  { apply Z.div_le_upper_bound; nia. }
  pose proof (Z.div_pos (matches * 100) min_len ltac:(lia) ltac:(lia)).
  change (2 ^ 8) with 256. lia.
Qed.

Lemma compare_different_length sig1 sig2 :
  valid sig1 = true -> valid sig2 = true ->
  10 < Z.abs (timing_count sig1 - timing_count sig2) ->
  ir_learning_compare sig1 sig2 = Ok 0.
Proof.
  intros Hv1 Hv2 Hdiff. unfold ir_learning_compare. rewrite Hv1, Hv2. simpl.
  destruct (Z.gtb_spec (Z.abs (timing_count sig1 - timing_count sig2)) 10);
    [reflexivity|lia].
Qed.

Lemma signal_of_well_formed buf :
  len buf < 2 ^ 16 ->
  Forall (fun t => 0 <= t <= UINT32_MAX) buf ->
  well_formed (signal_of buf).
Proof.
  intros Hlen Hr. exists buf. unfold len in *. simpl.
  split; [reflexivity|]. split; [unfold len; lia|].
  split; [unfold len; lia|exact Hr].
Qed.

Ltac pulses_in_range :=
  repeat (apply Forall_cons; split; [unfold UINT32_MAX; lia|]);
  apply Forall_nil; exact I.

(** The pulse sequence a signal stands for. *)
Definition pulses (signal : ir_learned_signal_t) : list Z :=
  take (Z.to_nat (timing_count signal)) (default [] (timings signal)).

Lemma matching_pairs_take l1 l2 n m :
  matching_pairs (take n l1) (take m l2) =
  matching_pairs (take (Nat.min n m) l1) (take (Nat.min n m) l2).
Proof.
  revert l2 n m. induction l1 as [|a l1 IH]; intros l2 n m.
  - rewrite !take_nil. reflexivity.
  - destruct n as [|n]; [reflexivity|].
    destruct m as [|m]; [reflexivity|].
    destruct l2 as [|b l2]; [reflexivity|].
    simpl. rewrite IH. reflexivity.
Qed.

Lemma compare_pulses sig1 sig2 :
  valid sig1 = true -> valid sig2 = true ->
  well_formed sig1 -> well_formed sig2 ->
  Z.abs (timing_count sig1 - timing_count sig2) <= 10 ->
  let min_len := Z.min (timing_count sig1) (timing_count sig2) in
  let matches := matching_pairs (pulses sig1) (pulses sig2) in
  0 <= matches <= min_len /\
  ir_learning_compare sig1 sig2 =
  if min_len =? 0 then Fault DivisionByZero else Ok (matches * 100 / min_len).
Proof.
  intros Hv1 Hv2 (buf1 & Hb1 & Hc1 & Hl1 & Hr1) (buf2 & Hb2 & Hc2 & Hl2 & Hr2)
    Hdiff min_len matches.
  pose proof (compare_similar_length sig1 sig2 buf1 buf2 Hv1 Hv2 Hb1 Hb2
                Hr1 Hr2 Hc1 Hc2 Hl1 Hl2 Hdiff) as H.
  cbv zeta in H. subst matches. unfold pulses. rewrite Hb1, Hb2. simpl default.
  rewrite matching_pairs_take.
  replace (Nat.min (Z.to_nat (timing_count sig1)) (Z.to_nat (timing_count sig2)))
    with (Z.to_nat min_len) by (subst min_len; lia).
  exact H.
Qed.

(** C6. Two valid signals whose lengths differ by more than 10 have
    similarity 0.  Otherwise, the shorter one being non-empty, the
    similarity is [matches * 100 / min_len], where [matches] counts the
    positions below the shorter length at which the two durations differ by
    at most 200 microseconds; what lies beyond the shorter length does not
    count.  Identical signals of length 20 give 100; lengths 20 and 35 give
    0 whatever the contents. *)
Theorem compare_similarity (sig1 sig2 : ir_learned_signal_t) :
  valid sig1 = true ->
  valid sig2 = true ->
  (10 < Z.abs (timing_count sig1 - timing_count sig2) ->
   ir_learning_compare sig1 sig2 = Ok 0)
  /\ (well_formed sig1 -> well_formed sig2 ->
      Z.abs (timing_count sig1 - timing_count sig2) <= 10 ->
      0 < Z.min (timing_count sig1) (timing_count sig2) ->
      ir_learning_compare sig1 sig2 =
      Ok (matching_pairs (pulses sig1) (pulses sig2) * 100
          / Z.min (timing_count sig1) (timing_count sig2)))
  /\ (well_formed sig1 -> timing_count sig1 = 20 ->
      timing_count sig2 = 20 -> timings sig2 = timings sig1 ->
      ir_learning_compare sig1 sig2 = Ok 100)
  /\ (timing_count sig1 = 20 -> timing_count sig2 = 35 ->
      ir_learning_compare sig1 sig2 = Ok 0).
Proof.
  intros Hv1 Hv2. repeat split.
  - apply compare_different_length; assumption.
  - intros Hw1 Hw2 Hdiff Hmin.
    destruct (compare_pulses sig1 sig2 Hv1 Hv2 Hw1 Hw2 Hdiff) as [_ ->].
    destruct (Z.eqb_spec (Z.min (timing_count sig1) (timing_count sig2)) 0);
      [lia|reflexivity].
  - intros Hw1 H20 H20' Hsame.
    assert (well_formed sig2) as Hw2.
    { destruct Hw1 as (buf & Hb & Hc & Hl & Hr). exists buf.
      rewrite Hsame, H20'. rewrite H20 in Hc, Hl. auto. }
    destruct (compare_pulses sig1 sig2 Hv1 Hv2 Hw1 Hw2) as [_ ->].
    + rewrite H20, H20'. simpl. lia.
    + assert (pulses sig2 = pulses sig1) as ->
        by (unfold pulses; rewrite Hsame, H20, H20'; reflexivity).
      rewrite matching_pairs_same.
      destruct Hw1 as (buf & Hb & Hc & Hl & Hr).
      unfold pulses, len. rewrite Hb. simpl default. rewrite length_take.
      rewrite H20, H20' in *. unfold len in Hl.
      replace (Z.of_nat (Nat.min (Z.to_nat 20) (length buf))) with 20 by lia.
      reflexivity.
  - intros H20 H35. apply compare_different_length; try assumption.
    rewrite H20, H35. simpl. lia.
Qed.

Lemma compare_similarity_witness :
  ir_learning_compare (signal_of [560; 560; 560; 1690; 560])
    (signal_of [600; 900; 560]) =
  Ok (matching_pairs [560; 560; 560; 1690; 560] [600; 900; 560] * 100 / 3).
Proof.
  pose proof (compare_similarity (signal_of [560; 560; 560; 1690; 560])
                (signal_of [600; 900; 560]) eq_refl eq_refl)
    as (_ & H & _ & _).
  apply H.
  - apply signal_of_well_formed; [reflexivity | pulses_in_range].
  - apply signal_of_well_formed; [reflexivity | pulses_in_range].
  - unfold signal_of, len. simpl. lia.
  - unfold signal_of, len. simpl. lia.
Defined.

(** C6, where no similarity is returned: a valid signal without timings
    against a valid signal of three.  The lengths differ by 3, the shorter
    length is 0, and the division is by zero. *)
Lemma compare_empty_signal_no_similarity :
  valid (signal_of []) = true /\
  valid (signal_of [560; 1690; 560]) = true /\
  Z.abs (timing_count (signal_of []) -
         timing_count (signal_of [560; 1690; 560])) <= 10 /\
  ir_learning_compare (signal_of []) (signal_of [560; 1690; 560])
  = Fault DivisionByZero.
Proof. repeat split; try reflexivity. unfold signal_of, len. simpl. lia. Qed.

(** C10. Once the element-wise comparison is reached, the result is
    [matches * 100 / min_len] with [min_len] the shorter count, and nothing
    guards the division: whenever the shorter signal is empty the call
    divides by zero, and it returns a similarity when both signals have at
    least one timing. *)
Theorem compare_division_unguarded (sig1 sig2 : ir_learned_signal_t) :
  valid sig1 = true ->
  valid sig2 = true ->
  well_formed sig1 ->
  well_formed sig2 ->
  Z.abs (timing_count sig1 - timing_count sig2) <= 10 ->
  (Z.min (timing_count sig1) (timing_count sig2) = 0 ->
   ir_learning_compare sig1 sig2 = Fault DivisionByZero)
  /\ (0 < timing_count sig1 -> 0 < timing_count sig2 ->
      exists similarity,
        ir_learning_compare sig1 sig2 = Ok similarity /\
        0 <= similarity <= 100).
Proof.
  intros Hv1 Hv2 Hw1 Hw2 Hdiff.
  destruct (compare_pulses sig1 sig2 Hv1 Hv2 Hw1 Hw2 Hdiff) as [Hm ->].
  split.
  - intros ->. reflexivity.
  - intros H1 H2.
    destruct (Z.eqb_spec (Z.min (timing_count sig1) (timing_count sig2)) 0);
      [lia|].
    eexists. split; [reflexivity|].
    split.
    + apply Z.div_pos; lia.
    + apply Z.div_le_upper_bound; nia.
Qed.

Lemma compare_division_unguarded_witness :
  ir_learning_compare (signal_of []) (signal_of []) = Fault DivisionByZero.
Proof.
  refine (proj1 (compare_division_unguarded (signal_of []) (signal_of [])
                   eq_refl eq_refl _ _ _) eq_refl).
  - apply signal_of_well_formed; [reflexivity | pulses_in_range].
  - apply signal_of_well_formed; [reflexivity | pulses_in_range].
  - unfold signal_of, len. simpl. lia.
Defined.

(** *** The capture never outgrows its buffer *)

(** What holds of [learn_state] whatever happens: the counters stay within
    the buffer, the buffer keeps its size, and a running session has one. *)
Definition capture_invariant (m : machine) : Prop :=
  let st := learn_state m in
  0 <= edge_count st <= IR_LEARNING_MAX_EDGES /\
  0 <= timing_count (current_signal st) <= IR_LEARNING_MAX_EDGES /\
  (forall buf, timings (current_signal st) = Some buf ->
               len buf = IR_LEARNING_MAX_EDGES) /\
  (active st = true -> timings (current_signal st) <> None).

Lemma learn_state_notify m status signal :
  learn_state (notify m status signal) = learn_state m.
Proof. unfold notify. destruct (callback (learn_state m)); reflexivity. Qed.

Lemma replicate_zero_len :
  len (replicate (Z.to_nat IR_LEARNING_MAX_EDGES) 0) = IR_LEARNING_MAX_EDGES.
Proof. unfold len. rewrite length_replicate. reflexivity. Qed.

Lemma signal_end_handler_invariant m :
  capture_invariant m -> capture_invariant (signal_end_handler m).
Proof.
  intros Hinv. pose proof Hinv as (He & Ht & Hb & Ha).
  unfold signal_end_handler.
  destruct (negb (active (learn_state m)) || (edge_count (learn_state m) =? 0));
    [exact Hinv|].
  unfold capture_invariant. rewrite learn_state_notify. simpl.
  unfold IR_LEARNING_MAX_EDGES in *.
  assert (u16 (edge_count (learn_state m)) = edge_count (learn_state m)) as ->
    by (unfold u16; apply Z.mod_small; lia).
  repeat split; try lia; try assumption; try discriminate.
Qed.

Lemma learning_rx_callback_invariant m duration_us now_us :
  capture_invariant m ->
  capture_invariant (learning_rx_callback m duration_us now_us).
Proof.
  intros Hinv. pose proof Hinv as (He & Ht & Hb & Ha).
  unfold learning_rx_callback.
  destruct (negb (active (learn_state m))); [exact Hinv|].
  destruct (duration_us <? MIN_PULSE_US); [exact Hinv|].
  destruct (timings (current_signal (learn_state m))) as [buf|] eqn:Hbuf.
  - set (m1 := if edge_count (learn_state m) =? 0 then _ else m).
    assert (capture_invariant m1 /\
            timings (current_signal (learn_state m1)) = Some buf) as [H1 Hbuf1].
    { subst m1. destruct (edge_count (learn_state m) =? 0); [|auto].
      unfold capture_invariant. rewrite learn_state_notify. simpl.
      rewrite Hbuf. repeat split; try lia; try assumption. }
    clearbody m1. destruct H1 as (He1 & Ht1 & Hb1 & Ha1).
    destruct (Z.geb_spec (edge_count (learn_state m1)) IR_LEARNING_MAX_EDGES)
      as [Hfull|Hroom].
    + apply signal_end_handler_invariant. unfold capture_invariant. simpl.
      repeat split; try lia; assumption.
    + unfold capture_invariant. simpl. unfold IR_LEARNING_MAX_EDGES in *.
      unfold u32. rewrite Z.mod_small by lia.
      repeat split; try lia; try discriminate.
      intros ? [= <-]. unfold len. rewrite length_insert.
      apply (Hb1 buf Hbuf1).
  - unfold capture_invariant. rewrite learn_state_notify. simpl.
    rewrite Hbuf. repeat split; try lia; try discriminate.
Qed.

Lemma step_invariant m ev :
  capture_invariant m -> capture_invariant (step m ev).
Proof.
  intros Hinv. pose proof Hinv as (He & Ht & Hb & Ha).
  destruct ev as [alloc_ok|signal_name cb timeout_ms hal_error|d now| | |]; simpl.
  - unfold ir_learning_init. destruct alloc_ok; simpl.
    + unfold capture_invariant. simpl. unfold IR_LEARNING_MAX_EDGES.
      repeat split; try lia; try discriminate.
      intros ? [= <-]. apply replicate_zero_len.
    + unfold capture_invariant. simpl. unfold IR_LEARNING_MAX_EDGES.
      repeat split; try lia; try discriminate.
  - unfold ir_learning_start.
    destruct (active (learn_state m)); [exact Hinv|].
    destruct (timings (current_signal (learn_state m))); [|exact Hinv].
    destruct hal_error; simpl.
    + unfold capture_invariant. simpl. unfold IR_LEARNING_MAX_EDGES.
      repeat split; try lia; try discriminate.
      intros ? [= <-]. apply replicate_zero_len.
    + unfold capture_invariant. rewrite learn_state_notify. simpl.
      unfold IR_LEARNING_MAX_EDGES.
      repeat split; try lia; try discriminate.
      intros ? [= <-]. apply replicate_zero_len.
  - apply learning_rx_callback_invariant. exact Hinv.
  - apply signal_end_handler_invariant. exact Hinv.
  - unfold learning_timeout_handler.
    destruct (negb (active (learn_state m))); [exact Hinv|].
    unfold capture_invariant. rewrite learn_state_notify. simpl.
    repeat split; try lia; try assumption; try discriminate.
  - unfold ir_learning_stop.
    destruct (negb (active (learn_state m))); [exact Hinv|].
    unfold capture_invariant. simpl.
    repeat split; try lia; try assumption; try discriminate.
Qed.

Lemma run_invariant evs m :
  capture_invariant m -> capture_invariant (run evs m).
Proof.
  revert m. induction evs as [|ev evs IH]; intros m Hinv; simpl.
  - exact Hinv.
  - apply IH. apply step_invariant. exact Hinv.
Qed.

Lemma reachable_invariant m : reachable m -> capture_invariant m.
Proof.
  intros [evs ->]. apply run_invariant.
  unfold capture_invariant, IR_LEARNING_MAX_EDGES. simpl.
  repeat split; try lia; discriminate.
Qed.

(** C7. In every reachable state [timing_count] is at most the capacity of
    the buffer.  When an accepted edge (session active, duration not below
    the noise threshold) finds the buffer full, the capture ends at once as
    a normal completion: the signal is valid, its [timing_count] is the
    number of edges accepted so far, the buffer is untouched, the session
    is no longer active, the edge source is stopped, and the one
    notification delivered is [IR_LEARN_COMPLETED] carrying that signal, so
    no error is reported. *)
Theorem overflow_ends_capture_normally (m : machine) (duration_us now_us : Z) :
  reachable m ->
  timing_count (current_signal (learn_state m)) <= IR_LEARNING_MAX_EDGES
  /\ (active (learn_state m) = true ->
      callback (learn_state m) = true ->
      MIN_PULSE_US <= duration_us ->
      IR_LEARNING_MAX_EDGES <= edge_count (learn_state m) ->
      let m' := learning_rx_callback m duration_us now_us in
      let signal := current_signal (learn_state m') in
      valid signal = true /\
      timing_count signal = edge_count (learn_state m) /\
      timing_count signal <= IR_LEARNING_MAX_EDGES /\
      timings signal = timings (current_signal (learn_state m)) /\
      active (learn_state m') = false /\
      hal_rx_active m' = false /\
      delivered m' = delivered m ++ [(IR_LEARN_COMPLETED, Some signal)]).
Proof.
  intros Hreach.
  pose proof (reachable_invariant m Hreach) as (He & Ht & Hb & Ha).
  split; [lia|].
  intros Hact Hcb Hdur Hfull. cbv zeta.
  unfold learning_rx_callback. rewrite Hact. simpl negb. cbv iota.
  destruct (Z.ltb_spec duration_us MIN_PULSE_US) as [|_]; [lia|].
  destruct (timings (current_signal (learn_state m))) as [buf|] eqn:Hbuf;
    [|exfalso; apply (Ha Hact); reflexivity].
  unfold IR_LEARNING_MAX_EDGES in *.
  assert (edge_count (learn_state m) = 512) as Hec by lia.
  rewrite Hec. change (512 =? 0) with false. cbv iota.
  rewrite ?Hec. change (512 >=? 512) with true. cbv iota.
  unfold signal_end_handler. simpl. rewrite ?Hact, ?Hec. simpl.
  unfold notify. simpl. rewrite Hcb. simpl.
  change (u16 512) with 512. rewrite ?Hbuf.
  repeat split; first [reflexivity | lia].
Qed.

(** A session that has accepted 512 edges, and the 513th arriving. *)
Definition full_capture : machine :=
  run (Init true :: Start "tv_power" true 0 None :: repeat (Edge 600 0) 512)
    power_on.

Lemma overflow_ends_capture_normally_witness :
  let m' := learning_rx_callback full_capture 600 0 in
  valid (current_signal (learn_state m')) = true /\
  timing_count (current_signal (learn_state m')) =
    edge_count (learn_state full_capture) /\
  timing_count (current_signal (learn_state m')) <= IR_LEARNING_MAX_EDGES /\
  active (learn_state m') = false /\
  delivered m' =
    delivered full_capture
    ++ [(IR_LEARN_COMPLETED, Some (current_signal (learn_state m')))].
Proof.
  assert (reachable full_capture) as Hreach by (eexists; reflexivity).
  destruct (overflow_ends_capture_normally full_capture 600 0 Hreach)
    as [_ H].
  destruct H as (Hv & Htc & Hle & _ & Ha & _ & Hd).
  - vm_compute; reflexivity.
  - vm_compute; reflexivity.
  - vm_compute; discriminate.
  - vm_compute; discriminate.
  - exact (conj Hv (conj Htc (conj Hle (conj Ha Hd)))).
Defined.

(** *** A capture session from start to end *)

(** The durations the edge callback keeps: those not below the noise
    threshold. *)
Definition accepted (durations : list Z) : list Z :=
  List.filter (fun d => negb (d <? MIN_PULSE_US)) durations.

Definition edge_events (edges : list (Z * Z)) : list event :=
  map (fun e => Edge (fst e) (snd e)) edges.

(** What a callback registered or not gets to see. *)
Definition told (cb : bool) (l : list notification) : list notification :=
  if cb then l else [].

(** The state of a session started with the name [nm] and the callback [cb]
    when [d0] had been delivered before, after the durations [acc] have been
    accepted. *)
Definition capturing (m : machine) (nm : string) (cb : bool)
    (d0 : list notification) (acc : list Z) : Prop :=
  let st := learn_state m in
  let signal := current_signal st in
  callback st = cb /\ name signal = nm /\
  carrier_freq signal = 0 /\ total_duration_us signal = 0 /\
  if (length acc <=? 512)%nat then
    active st = true /\ edge_count st = len acc /\ valid signal = false /\
    timings signal = Some (acc ++ replicate (512 - length acc) 0) /\
    hal_rx_active m = true /\
    delivered m =
      d0 ++ told cb ((IR_LEARN_WAITING, None) ::
                     match acc with
                     | [] => []
                     | _ :: _ => [(IR_LEARN_RECEIVING, None)]
                     end)
  else
    active st = false /\ valid signal = true /\ timing_count signal = 512 /\
    timings signal = Some (take 512 acc) /\ hal_rx_active m = false /\
    delivered m =
      d0 ++ told cb [(IR_LEARN_WAITING, None); (IR_LEARN_RECEIVING, None);
                     (IR_LEARN_COMPLETED, Some signal)].

Lemma notify_told m status signal :
  notify m status signal =
  {| learn_state := learn_state m; hal_rx_active := hal_rx_active m;
     delivered := delivered m ++ told (callback (learn_state m)) [(status, signal)] |}.
Proof.
  unfold notify, told. destruct (callback (learn_state m)); [reflexivity|].
  rewrite app_nil_r. destruct m; reflexivity.
Qed.

Lemma told_app cb l1 l2 : told cb l1 ++ told cb l2 = told cb (l1 ++ l2).
Proof. destruct cb; reflexivity. Qed.

Lemma insert_next (acc : list Z) (d : Z) :
  (length acc < 512)%nat ->
  <[length acc := d]> (acc ++ replicate (512 - length acc) 0) =
  (acc ++ [d]) ++ replicate (512 - length (acc ++ [d])) 0.
Proof.
  intros Hlt. rewrite length_app. simpl length.
  destruct (512 - length acc)%nat as [|k] eqn:Hk; [lia|].
  replace (512 - (length acc + 1))%nat with k by lia.
  rewrite insert_app_r_alt by lia. rewrite Nat.sub_diag. simpl.
  rewrite <- app_assoc. reflexivity.
Qed.

Lemma start_capturing m signal_name cb timeout_ms :
  active (learn_state m) = false ->
  timings (current_signal (learn_state m)) <> None ->
  capturing (step m (Start signal_name cb timeout_ms None))
    (strncpy signal_name 31) cb (delivered m) [].
Proof.
  intros Hact Hbuf. simpl. unfold ir_learning_start. rewrite Hact.
  destruct (timings (current_signal (learn_state m))); [|contradiction].
  cbn [fst]. rewrite notify_told. unfold capturing. simpl.
  repeat split; reflexivity.
Qed.

Lemma edge_capturing m nm cb d0 acc duration_us now_us :
  capturing m nm cb d0 acc ->
  capturing (learning_rx_callback m duration_us now_us) nm cb d0
    (acc ++ accepted [duration_us]).
Proof.
  intros Hc. unfold accepted. simpl List.filter.
  pose proof Hc as (Hcb & Hnm & Hcf & Htd & Hrest).
  unfold learning_rx_callback.
  destruct (Nat.leb_spec (length acc) 512) as [Hle|Hgt].
  - destruct Hrest as (Hact & Hec & Hv & Hbuf & Hhal & Hdel).
    rewrite Hact. simpl negb. cbv iota.
    destruct (Z.ltb_spec duration_us MIN_PULSE_US) as [Hlow|Hhigh]; simpl negb;
      cbv iota.
    + rewrite app_nil_r. exact Hc.
    + rewrite Hbuf.
      destruct acc as [|a acc'].
      * (* the first accepted edge *)
        rewrite Hec. change (len [] =? 0) with true. cbv iota.
        rewrite notify_told. cbn [learn_state set_state edge_count].
        change (len [] >=? IR_LEARNING_MAX_EDGES) with false.
        cbv iota. unfold capturing. simpl.
        rewrite Hcb, Hnm, Hcf, Htd, Hv, Hhal, Hdel.
        rewrite <- app_assoc, told_app.
        repeat split; reflexivity.
      * assert ((edge_count (learn_state m) =? 0) = false) as ->
          by (apply Z.eqb_neq; rewrite Hec; unfold len; simpl length; lia).
        cbv iota. rewrite Hec.
        destruct (Z.geb_spec (len (a :: acc')) IR_LEARNING_MAX_EDGES)
          as [Hfull|Hroom].
        -- (* the buffer is full: the capture ends *)
           unfold IR_LEARNING_MAX_EDGES, len in Hfull.
           assert (length (a :: acc') = 512%nat) as Hlen by lia.
           unfold signal_end_handler.
           cbn [learn_state set_state active edge_count].
           rewrite ?Hact, ?Hec. unfold len. rewrite Hlen.
           change (negb true || (Z.of_nat 512 =? 0)) with false. cbv iota.
           rewrite notify_told. unfold capturing.
           cbn [learn_state set_state ir_hal_rx_stop current_signal callback
                name carrier_freq total_duration_us active valid timing_count
                timings hal_rx_active delivered].
           rewrite length_app, Hlen. simpl length.
           change (512 + 1 <=? 512)%nat with false. cbv iota.
           rewrite Hcb, Hnm, Hcf, Htd, Hbuf, Hdel, Hlen.
           rewrite <- app_assoc, told_app.
           rewrite take_app_length' by (symmetry; exact Hlen).
           change (replicate (512 - 512) 0) with (@nil Z). rewrite app_nil_r.
           change (u16 (Z.of_nat 512)) with 512.
           repeat split; reflexivity.
        -- unfold IR_LEARNING_MAX_EDGES, len in Hroom.
           unfold capturing.
           cbn [learn_state set_state current_signal callback name
                carrier_freq total_duration_us active valid timing_count
                timings hal_rx_active delivered edge_count].
           assert ((length ((a :: acc') ++ [duration_us]) <=? 512)%nat = true) as ->
             by (apply Nat.leb_le; rewrite length_app; simpl length in *; lia).
           rewrite Hcb, Hnm, Hcf, Htd, Hact, Hv, Hhal, Hdel.
           replace (Z.to_nat (len (a :: acc'))) with (length (a :: acc'))
             by (unfold len; lia).
           rewrite insert_next by lia.
           assert (u32 (len (a :: acc') + 1) = len ((a :: acc') ++ [duration_us]))
             as ->.
           { unfold u32, len. rewrite length_app. simpl length in *.
             change (2 ^ 32) with 4294967296. rewrite Z.mod_small; lia. }
           repeat split; reflexivity.
  - destruct Hrest as (Hact & Hv & Htc & Hbuf & Hhal & Hdel).
    rewrite Hact. simpl negb. cbv iota.
    unfold capturing.
    set (acc' := acc ++ _).
    assert ((length acc' <=? 512)%nat = false) as ->
      by (apply Nat.leb_gt; subst acc'; rewrite length_app; lia).
    subst acc'.
    rewrite Hcb, Hnm, Hcf, Htd, Hact, Hv, Htc, Hbuf, Hhal, Hdel.
    rewrite take_app_le by lia.
    repeat split; reflexivity.
Qed.

Lemma accepted_app l1 l2 : accepted (l1 ++ l2) = accepted l1 ++ accepted l2.
Proof. unfold accepted. apply List.filter_app. Qed.

Lemma edges_capturing edges :
  forall m nm cb d0 acc,
    capturing m nm cb d0 acc ->
    capturing (run (edge_events edges) m) nm cb d0
      (acc ++ accepted (map fst edges)).
Proof.
  induction edges as [|[d now] edges IH]; intros m nm cb d0 acc Hc.
  - simpl. rewrite app_nil_r. exact Hc.
  - change (map fst ((d, now) :: edges)) with ([d] ++ map fst edges).
    change (run (edge_events ((d, now) :: edges)) m)
      with (run (edge_events edges) (learning_rx_callback m d now)).
    rewrite accepted_app, app_assoc.
    apply IH. apply edge_capturing. exact Hc.
Qed.

Lemma run_app evs1 evs2 m : run (evs1 ++ evs2) m = run evs2 (run evs1 m).
Proof. unfold run. apply fold_left_app. Qed.

(** With no session active, edges, timer expiries and a stop change
    nothing. *)
Definition quiet (ev : event) : bool :=
  match ev with
  | Init _ | Start _ _ _ _ => false
  | _ => true
  end.

Lemma run_inactive evs :
  forall m,
    active (learn_state m) = false ->
    forallb quiet evs = true ->
    run evs m = m.
Proof.
  induction evs as [|ev evs IH]; intros m Hact Hq; [reflexivity|].
  simpl in Hq. apply andb_prop in Hq as [Hev Hq]. simpl.
  assert (step m ev = m) as ->; [|apply IH; assumption].
  destruct ev; try discriminate; simpl.
  - unfold learning_rx_callback. rewrite Hact. reflexivity.
  - unfold signal_end_handler. rewrite Hact. reflexivity.
  - unfold learning_timeout_handler. rewrite Hact. reflexivity.
  - unfold ir_learning_stop. rewrite Hact. reflexivity.
Qed.

(** X8. A session started on an initialised, idle engine, followed by any
    edges of which at least one is not noise, and then the expiry of the
    end timer: the signal is valid and named after the first 31 characters
    given, its pulses are the accepted durations in order, cut at 512; the
    carrier frequency and total duration are left at zero; the engine is
    idle, the edge source stopped, and a registered callback has seen
    exactly waiting, receiving, completed, the last with that signal. *)
Theorem capture_session (m : machine) (signal_name : string) (cb : bool)
    (timeout_ms : Z) (edges : list (Z * Z)) :
  active (learn_state m) = false ->
  timings (current_signal (learn_state m)) <> None ->
  accepted (map fst edges) <> [] ->
  let m' := run (Start signal_name cb timeout_ms None
                 :: edge_events edges ++ [EndTimerExpires]) m in
  let signal := current_signal (learn_state m') in
  valid signal = true /\
  name signal = strncpy signal_name 31 /\
  pulses signal = take 512 (accepted (map fst edges)) /\
  carrier_freq signal = 0 /\
  total_duration_us signal = 0 /\
  active (learn_state m') = false /\
  hal_rx_active m' = false /\
  delivered m' =
    delivered m ++ told cb [(IR_LEARN_WAITING, None); (IR_LEARN_RECEIVING, None);
                            (IR_LEARN_COMPLETED, Some signal)].
Proof.
  intros Hact Hbuf Hne. cbv zeta.
  change (run (?ev :: ?evs) m) with (run evs (step m ev)).
  rewrite run_app.
  pose proof (edges_capturing edges _ _ _ _ _
                (start_capturing m signal_name cb timeout_ms Hact Hbuf)) as Hc.
  simpl app in Hc.
  set (m1 := run (edge_events edges) _) in *. clearbody m1.
  set (acc := accepted (map fst edges)) in *. clearbody acc.
  destruct Hc as (Hcb & Hnm & Hcf & Htd & Hrest).
  change (run [EndTimerExpires] m1) with (signal_end_handler m1).
  unfold signal_end_handler.
  destruct (Nat.leb_spec (length acc) 512) as [Hle|Hgt].
  - destruct Hrest as (Hact1 & Hec & Hv & Hb1 & Hhal & Hdel).
    rewrite Hact1, Hec.
    destruct acc as [|a acc]; [contradiction|].
    assert ((len (a :: acc) =? 0) = false) as ->
      by (apply Z.eqb_neq; unfold len; simpl length; lia).
    simpl orb. cbv iota. rewrite notify_told.
    cbn [learn_state set_state ir_hal_rx_stop current_signal callback
         name carrier_freq total_duration_us active valid timing_count
         timings hal_rx_active delivered].
    unfold pulses.
    cbn [learn_state set_state ir_hal_rx_stop current_signal callback
         name carrier_freq total_duration_us active valid timing_count
         timings hal_rx_active delivered].
    rewrite Hcb, Hnm, Hcf, Htd, Hb1, Hdel. cbv [from_option id].
    rewrite <- app_assoc, told_app.
    assert (u16 (len (a :: acc)) = len (a :: acc)) as ->
      by (unfold u16, len; apply Z.mod_small; lia).
    unfold len. rewrite Nat2Z.id.
    rewrite take_app_length. rewrite (take_ge (a :: acc)) by lia.
    split; [reflexivity|]. split; [reflexivity|]. split; [reflexivity|].
    split; [reflexivity|]. split; [reflexivity|]. split; [reflexivity|].
    split; reflexivity.
  - destruct Hrest as (Hact1 & Hv & Htc & Hb1 & Hhal & Hdel).
    rewrite Hact1. simpl orb. cbv iota. unfold pulses.
    rewrite Hv, Hnm, Hcf, Htd, Htc, Hb1, Hhal, Hdel. cbv [from_option id].
    rewrite take_take. change (Z.to_nat 512 `min` 512)%nat with 512%nat.
    split; [reflexivity|]. split; [reflexivity|]. split; [reflexivity|].
    split; [reflexivity|]. split; [reflexivity|]. split; [exact Hact1|].
    split; reflexivity.
Qed.

(** An initialised engine, and a session with noise among the edges. *)
Definition ready : machine := run [Init true] power_on.

Lemma capture_session_witness :
  let m' := run (Start "tv_power" true 0 None
                 :: edge_events [(9000, 7); (20, 8); (4500, 9); (560, 10)]
                 ++ [EndTimerExpires]) ready in
  let signal := current_signal (learn_state m') in
  pulses signal = [9000; 4500; 560] /\
  delivered m' =
    [(IR_LEARN_WAITING, None); (IR_LEARN_RECEIVING, None);
     (IR_LEARN_COMPLETED, Some signal)].
Proof.
  cbv zeta.
  destruct (capture_session ready "tv_power" true 0
              [(9000, 7); (20, 8); (4500, 9); (560, 10)])
    as (_ & _ & Hp & _ & _ & _ & _ & Hd).
  - reflexivity.
  - discriminate.
  - vm_compute. discriminate.
  - exact (conj Hp Hd).
Defined.

(** X9. The overall timeout is not disarmed by the first edge.  When it
    expires before the end timer does, in a session that has accepted at
    most 512 edges, the capture is dropped: the engine goes idle with the
    signal still invalid, a registered callback has seen waiting, receiving
    (if an edge was accepted) and timeout, and no later edge or timer expiry
    completes it. *)
Theorem timeout_drops_capture (m : machine) (signal_name : string) (cb : bool)
    (timeout_ms : Z) (edges : list (Z * Z)) (later : list event) :
  active (learn_state m) = false ->
  timings (current_signal (learn_state m)) <> None ->
  (length (accepted (map fst edges)) <= 512)%nat ->
  forallb quiet later = true ->
  let m' := run (Start signal_name cb timeout_ms None
                 :: edge_events edges ++ TimeoutTimerExpires :: later) m in
  valid (current_signal (learn_state m')) = false /\
  active (learn_state m') = false /\
  hal_rx_active m' = false /\
  delivered m' =
    delivered m ++ told cb ((IR_LEARN_WAITING, None) ::
                            match accepted (map fst edges) with
                            | [] => []
                            | _ :: _ => [(IR_LEARN_RECEIVING, None)]
                            end ++ [(IR_LEARN_TIMEOUT, None)]).
Proof.
  intros Hact Hbuf Hlen Hq. cbv zeta.
  change (run (?ev :: ?evs) m) with (run evs (step m ev)).
  rewrite run_app.
  pose proof (edges_capturing edges _ _ _ _ _
                (start_capturing m signal_name cb timeout_ms Hact Hbuf)) as Hc.
  simpl app in Hc.
  set (m1 := run (edge_events edges) _) in *. clearbody m1.
  set (acc := accepted (map fst edges)) in *. clearbody acc.
  destruct Hc as (Hcb & Hnm & Hcf & Htd & Hrest).
  apply Nat.leb_le in Hlen. rewrite Hlen in Hrest.
  destruct Hrest as (Hact1 & Hec & Hv & Hb1 & Hhal & Hdel).
  change (run (TimeoutTimerExpires :: later) m1)
    with (run later (learning_timeout_handler m1)).
  assert (active (learn_state (learning_timeout_handler m1)) = false) as Hidle.
  { unfold learning_timeout_handler. rewrite Hact1. simpl negb. cbv iota.
    rewrite learn_state_notify. reflexivity. }
  rewrite (run_inactive later _ Hidle Hq).
  unfold learning_timeout_handler. rewrite Hact1. simpl negb. cbv iota.
  rewrite notify_told.
  cbn [learn_state set_state set_active ir_hal_rx_stop current_signal callback
       active valid hal_rx_active delivered].
  rewrite Hv, Hcb, Hdel. rewrite <- app_assoc, told_app.
  split; [reflexivity|]. split; [reflexivity|]. split; [reflexivity|].
  reflexivity.
Qed.

Lemma timeout_drops_capture_witness :
  let m' := run (Start "tv_power" true 3000 None
                 :: edge_events [(9000, 7); (4500, 9)]
                 ++ TimeoutTimerExpires :: [EndTimerExpires; Edge 560 11]) ready in
  valid (current_signal (learn_state m')) = false /\
  delivered m' =
    [(IR_LEARN_WAITING, None); (IR_LEARN_RECEIVING, None);
     (IR_LEARN_TIMEOUT, None)].
Proof.
  cbv zeta.
  destruct (timeout_drops_capture ready "tv_power" true 3000
              [(9000, 7); (4500, 9)] [EndTimerExpires; Edge 560 11])
    as (Hv & _ & _ & Hd).
  - reflexivity.
  - discriminate.
  - vm_compute. lia.
  - reflexivity.
  - exact (conj Hv Hd).
Defined.

(** *** What the callback is told over the life of the engine *)

Definition terminal (n : notification) : bool :=
  match fst n with
  | IR_LEARN_COMPLETED | IR_LEARN_TIMEOUT | IR_LEARN_ERROR => true
  | _ => false
  end.

Definition waiting (n : notification) : bool :=
  match fst n with
  | IR_LEARN_WAITING => true
  | _ => false
  end.

Definition count (f : notification -> bool) (l : list notification) : nat :=
  length (List.filter f l).

Lemma count_app f l1 l2 : count f (l1 ++ l2) = (count f l1 + count f l2)%nat.
Proof. unfold count. rewrite List.filter_app, length_app. reflexivity. Qed.

Lemma count_told_le f cb n :
  (count f (told cb [n]) <= if cb then 1 else 0)%nat.
Proof. unfold count, told. destruct cb; simpl; destruct (f n); simpl; lia. Qed.

Lemma count_told_false f cb n :
  f n = false -> count f (told cb [n]) = 0%nat.
Proof. unfold count, told. intros H. destruct cb; simpl; rewrite ?H; reflexivity. Qed.

Lemma count_told_true f cb n :
  f n = true -> count f (told cb [n]) = if cb then 1%nat else 0%nat.
Proof. unfold count, told. intros H. destruct cb; simpl; rewrite ?H; reflexivity. Qed.

(** A session whose end the callback has not been told yet. *)
Definition open_sessions (m : machine) : nat :=
  if active (learn_state m) && callback (learn_state m) then 1 else 0.

Definition balanced (m : machine) : Prop :=
  (count terminal (delivered m) + open_sessions m
   <= count waiting (delivered m))%nat.

Lemma balanced_same m m' :
  active (learn_state m') = active (learn_state m) ->
  callback (learn_state m') = callback (learn_state m) ->
  delivered m' = delivered m ->
  balanced m -> balanced m'.
Proof. unfold balanced, open_sessions. intros -> -> ->. auto. Qed.

Lemma balanced_idle m m' :
  active (learn_state m') = false ->
  delivered m' = delivered m ->
  balanced m -> balanced m'.
Proof.
  unfold balanced, open_sessions. intros -> ->. simpl. lia.
Qed.

(** Ending the session of [m] and telling the callback so. *)
Lemma balanced_ended m m0 status signal :
  active (learn_state m) = true ->
  active (learn_state m0) = false ->
  callback (learn_state m0) = callback (learn_state m) ->
  delivered m0 = delivered m ->
  waiting (status, signal) = false ->
  balanced m -> balanced (notify m0 status signal).
Proof.
  unfold balanced, open_sessions. intros Ha Ha0 Hcb Hd Hw H.
  rewrite notify_told. cbn [delivered learn_state].
  rewrite Ha0, Hd, Hcb, !count_app. rewrite Ha in H. cbn [andb] in *.
  rewrite (count_told_false waiting _ _ Hw).
  pose proof (count_told_le terminal (callback (learn_state m)) (status, signal))
    as Hle.
  unfold notification in *. lia.
Qed.

(** Telling the callback that reception has begun. *)
Lemma balanced_receiving m m0 :
  active (learn_state m0) = active (learn_state m) ->
  callback (learn_state m0) = callback (learn_state m) ->
  delivered m0 = delivered m ->
  balanced m -> balanced (notify m0 IR_LEARN_RECEIVING None).
Proof.
  unfold balanced, open_sessions. intros Ha Hcb Hd H.
  rewrite notify_told. cbn [delivered learn_state].
  rewrite Ha, Hd, Hcb, !count_app.
  rewrite (count_told_false waiting), (count_told_false terminal)
    by reflexivity.
  lia.
Qed.

Ltac side_conditions :=
  first [ reflexivity | assumption | symmetry; assumption
        | cbn; congruence ].

Lemma signal_end_handler_balanced m :
  balanced m -> balanced (signal_end_handler m).
Proof.
  intros H. unfold signal_end_handler.
  destruct (active (learn_state m)) eqn:Hact; [|exact H]. cbn [negb orb].
  destruct (edge_count (learn_state m) =? 0); [exact H|].
  apply (balanced_ended m); side_conditions.
Qed.

Lemma learning_rx_callback_balanced m duration_us now_us :
  balanced m -> balanced (learning_rx_callback m duration_us now_us).
Proof.
  intros H. unfold learning_rx_callback.
  destruct (active (learn_state m)) eqn:Hact; [|exact H]. cbn [negb].
  destruct (duration_us <? MIN_PULSE_US); [exact H|].
  destruct (timings (current_signal (learn_state m))) as [buf|].
  - set (m1 := if edge_count (learn_state m) =? 0 then _ else m).
    assert (balanced m1) as H1.
    { subst m1. destruct (edge_count (learn_state m) =? 0); [|exact H].
      apply (balanced_receiving m); side_conditions. }
    clearbody m1.
    destruct (edge_count (learn_state m1) >=? IR_LEARNING_MAX_EDGES).
    + apply signal_end_handler_balanced.
      apply (balanced_same m1); side_conditions.
    + apply (balanced_same m1); side_conditions.
  - apply (balanced_ended m); side_conditions.
Qed.

Lemma step_balanced m ev : balanced m -> balanced (step m ev).
Proof.
  intros H.
  destruct ev as [alloc_ok|signal_name cb timeout_ms hal_error|d now| | |];
    cbn [step].
  - unfold ir_learning_init.
    destruct alloc_ok; apply (balanced_idle m); side_conditions.
  - unfold ir_learning_start.
    destruct (active (learn_state m)) eqn:Hact; [exact H|].
    destruct (timings (current_signal (learn_state m))); [|exact H].
    destruct hal_error; cbn [fst].
    + apply (balanced_idle m); side_conditions.
    + unfold balanced, open_sessions in *. rewrite notify_told.
      cbn [delivered learn_state active callback]. rewrite !count_app.
      rewrite Hact in H. cbn [andb] in *.
      rewrite (count_told_true waiting), (count_told_false terminal)
        by reflexivity.
      destruct cb; cbn [andb]; lia.
  - apply learning_rx_callback_balanced. exact H.
  - apply signal_end_handler_balanced. exact H.
  - unfold learning_timeout_handler.
    destruct (active (learn_state m)) eqn:Hact; [|exact H]. cbn [negb].
    apply (balanced_ended m); side_conditions.
  - unfold ir_learning_stop.
    destruct (active (learn_state m)) eqn:Hact; [|exact H]. cbn [negb].
    apply (balanced_idle m); side_conditions.
Qed.

(** X10. Whatever happens to the engine from power-on, the callbacks have
    never been told of more ended sessions (completed, timeout or error)
    than of started ones (waiting): no session ends twice, and none ends
    that was not announced. *)
Theorem sessions_end_at_most_once (evs : list event) :
  (count terminal (delivered (run evs power_on))
   <= count waiting (delivered (run evs power_on)))%nat.
Proof.
  assert (forall m, balanced m -> balanced (run evs m)) as H.
  { induction evs as [|ev evs IH]; intros m Hm; [exact Hm|].
    apply (IH (step m ev)). apply step_balanced. exact Hm. }
  specialize (H power_on). unfold balanced in H.
  assert (count terminal (delivered power_on) + open_sessions power_on
          <= count waiting (delivered power_on))%nat as H0
    by (unfold count, open_sessions; simpl; lia).
  specialize (H H0). lia.
Qed.

(** No error among the notifications delivered. *)
Definition error_free (m : machine) : Prop :=
  Forall (fun n : notification => fst n <> IR_LEARN_ERROR) (delivered m).

Lemma notify_error_free m status signal :
  status <> IR_LEARN_ERROR -> error_free m ->
  error_free (notify m status signal).
Proof.
  unfold error_free. intros Hs H. rewrite notify_told. cbn [delivered].
  apply Forall_app. split; [exact H|].
  unfold told. destruct (callback (learn_state m)); [|constructor].
  constructor; [exact Hs|constructor].
Qed.

Lemma signal_end_handler_error_free m :
  error_free m -> error_free (signal_end_handler m).
Proof.
  intros H. unfold signal_end_handler.
  destruct (negb (active (learn_state m)) || (edge_count (learn_state m) =? 0));
    [exact H|].
  apply notify_error_free; [discriminate|exact H].
Qed.

Lemma step_error_free m ev :
  capture_invariant m -> error_free m -> error_free (step m ev).
Proof.
  intros (_ & _ & _ & Ha) H.
  destruct ev as [alloc_ok|signal_name cb timeout_ms hal_error|d now| | |];
    cbn [step].
  - unfold ir_learning_init. destruct alloc_ok; exact H.
  - unfold ir_learning_start.
    destruct (active (learn_state m)); [exact H|].
    destruct (timings (current_signal (learn_state m))); [|exact H].
    destruct hal_error; cbn [fst]; [exact H|].
    apply notify_error_free; [discriminate|exact H].
  - unfold learning_rx_callback.
    destruct (active (learn_state m)) eqn:Hact; [|exact H]. cbn [negb].
    destruct (d <? MIN_PULSE_US); [exact H|].
    destruct (timings (current_signal (learn_state m))) as [buf|];
      [|exfalso; apply (Ha eq_refl); reflexivity].
    set (m1 := if edge_count (learn_state m) =? 0 then _ else m).
    assert (error_free m1) as H1.
    { subst m1. destruct (edge_count (learn_state m) =? 0); [|exact H].
      apply notify_error_free; [discriminate|exact H]. }
    clearbody m1.
    destruct (edge_count (learn_state m1) >=? IR_LEARNING_MAX_EDGES).
    + apply signal_end_handler_error_free. exact H1.
    + exact H1.
  - apply signal_end_handler_error_free. exact H.
  - unfold learning_timeout_handler.
    destruct (negb (active (learn_state m))); [exact H|].
    apply notify_error_free; [discriminate|exact H].
  - unfold ir_learning_stop.
    destruct (negb (active (learn_state m))); exact H.
Qed.

(** X11. The error notification is never delivered: a session is only ever
    active on an engine whose buffer is allocated, so the branch of the
    edge callback that reports a missing buffer cannot be taken. *)
Theorem error_never_notified (evs : list event) :
  Forall (fun n : notification => fst n <> IR_LEARN_ERROR)
    (delivered (run evs power_on)).
Proof.
  assert (forall m, capture_invariant m -> error_free m ->
                    error_free (run evs m)) as H.
  { induction evs as [|ev evs IH]; intros m Hi Hm; [exact Hm|].
    apply (IH (step m ev)).
    - apply step_invariant. exact Hi.
    - apply step_error_free; assumption. }
  apply (H power_on).
  - apply reachable_invariant. exists []. reflexivity.
  - constructor.
Qed.

(** *** What a completed capture holds *)

(** The stored edges are all at least as long as the noise threshold. *)
Definition noise_free (m : machine) : Prop :=
  forall buf,
    timings (current_signal (learn_state m)) = Some buf ->
    Forall (fun t => MIN_PULSE_US <= t)
      (take (Z.to_nat (edge_count (learn_state m))) buf).

(** What a notification may carry: a signal only with [IR_LEARN_COMPLETED],
    and then a valid one of 1 to 512 pulses, none of them noise. *)
Definition report_sound (n : notification) : Prop :=
  match n with
  | (IR_LEARN_COMPLETED, Some signal) =>
      valid signal = true /\
      1 <= timing_count signal <= IR_LEARNING_MAX_EDGES /\
      len (pulses signal) = timing_count signal /\
      Forall (fun t => MIN_PULSE_US <= t) (pulses signal)
  | (IR_LEARN_COMPLETED, None) => False
  | (_, Some _) => False
  | (_, None) => True
  end.

Definition reports_sound (m : machine) : Prop :=
  Forall report_sound (delivered m).

Lemma notify_reports_sound m status signal :
  report_sound (status, signal) -> reports_sound m ->
  reports_sound (notify m status signal).
Proof.
  unfold reports_sound. intros Hs H. rewrite notify_told. cbn [delivered].
  apply Forall_app. split; [exact H|].
  unfold told. destruct (callback (learn_state m)); [|constructor].
  constructor; [exact Hs|constructor].
Qed.

Lemma signal_end_handler_reports m :
  capture_invariant m -> noise_free m -> reports_sound m ->
  reports_sound (signal_end_handler m).
Proof.
  intros (He & _ & Hb & Ha) Hn H. unfold signal_end_handler.
  destruct (active (learn_state m)) eqn:Hact; [|exact H]. cbn [negb orb].
  destruct (Z.eqb_spec (edge_count (learn_state m)) 0) as [|Hne]; [exact H|].
  apply notify_reports_sound; [|exact H].
  destruct (timings (current_signal (learn_state m))) as [buf|] eqn:Hbuf;
    [|exfalso; apply (Ha eq_refl); reflexivity].
  specialize (Hb buf eq_refl). specialize (Hn buf Hbuf).
  unfold IR_LEARNING_MAX_EDGES in *.
  assert (u16 (edge_count (learn_state m)) = edge_count (learn_state m)) as Hu
    by (unfold u16; apply Z.mod_small; lia).
  unfold report_sound, pulses. cbn [valid timing_count timings].
  rewrite Hu. cbv [from_option id].
  split; [reflexivity|].
  split; [unfold IR_LEARNING_MAX_EDGES; lia|]. split; [|exact Hn].
  unfold len in *. rewrite length_take. lia.
Qed.

Lemma take_insert_next (buf : list Z) (n : nat) (d : Z) :
  (n < length buf)%nat ->
  take (S n) (<[n := d]> buf) = take n buf ++ [d].
Proof.
  revert buf. induction n as [|n IH]; intros [|a buf] Hlt; simpl in *;
    try lia.
  - reflexivity.
  - f_equal. apply IH. lia.
Qed.

Lemma signal_end_handler_noise_free m :
  noise_free m -> noise_free (signal_end_handler m).
Proof.
  intros Hn. unfold signal_end_handler.
  destruct (negb (active (learn_state m))
            || (edge_count (learn_state m) =? 0)); [exact Hn|].
  intros buf. rewrite learn_state_notify. cbn. apply Hn.
Qed.

Lemma step_noise_free m ev :
  capture_invariant m -> noise_free m -> noise_free (step m ev).
Proof.
  intros (He & _ & Hb & Ha) Hn.
  destruct ev as [alloc_ok|signal_name cb timeout_ms hal_error|d now| | |];
    cbn [step].
  - unfold ir_learning_init.
    destruct alloc_ok; intros buf Hbuf; cbn; constructor.
  - unfold ir_learning_start.
    destruct (active (learn_state m)); [exact Hn|].
    destruct (timings (current_signal (learn_state m))); [|exact Hn].
    destruct hal_error; cbn [fst]; intros buf Hbuf;
      rewrite ?learn_state_notify; cbn; constructor.
  - unfold learning_rx_callback.
    destruct (active (learn_state m)) eqn:Hact; [|exact Hn]. cbn [negb].
    destruct (Z.ltb_spec d MIN_PULSE_US) as [|Hd]; [exact Hn|].
    destruct (timings (current_signal (learn_state m))) as [buf|] eqn:Hbuf;
      [|exfalso; apply (Ha eq_refl); reflexivity].
    set (m1 := if edge_count (learn_state m) =? 0 then _ else m).
    assert (timings (current_signal (learn_state m1)) = Some buf /\
            edge_count (learn_state m1) = edge_count (learn_state m))
      as [Hbuf1 Hec1].
    { subst m1. destruct (edge_count (learn_state m) =? 0); [|auto].
      rewrite learn_state_notify. cbn. auto. }
    clearbody m1. rewrite Hec1.
    destruct (Z.geb_spec (edge_count (learn_state m)) IR_LEARNING_MAX_EDGES)
      as [Hfull|Hroom].
    + apply signal_end_handler_noise_free.
      intros buf'. cbn. rewrite Hbuf1. intros [= <-]. apply (Hn buf Hbuf).
    + intros buf'. cbn. intros [= <-].
      specialize (Hb buf eq_refl). specialize (Hn buf Hbuf).
      unfold IR_LEARNING_MAX_EDGES, len in *.
      unfold u32. rewrite Z.mod_small by lia.
      replace (Z.to_nat (edge_count (learn_state m) + 1))
        with (S (Z.to_nat (edge_count (learn_state m)))) by lia.
      rewrite take_insert_next by lia.
      apply Forall_app. split; [exact Hn|].
      constructor; [exact Hd|constructor].
  - apply signal_end_handler_noise_free. exact Hn.
  - unfold learning_timeout_handler.
    destruct (negb (active (learn_state m))); [exact Hn|].
    intros buf. rewrite learn_state_notify. cbn. apply Hn.
  - unfold ir_learning_stop.
    destruct (negb (active (learn_state m))); [exact Hn|].
    intros buf. cbn. apply Hn.
Qed.

Lemma step_reports_sound m ev :
  capture_invariant m -> noise_free m -> reports_sound m ->
  reports_sound (step m ev).
Proof.
  intros Hinv Hn H. pose proof Hinv as (He & Ht & Hb & Ha).
  destruct ev as [alloc_ok|signal_name cb timeout_ms hal_error|d now| | |];
    cbn [step].
  - unfold ir_learning_init. destruct alloc_ok; exact H.
  - unfold ir_learning_start.
    destruct (active (learn_state m)); [exact H|].
    destruct (timings (current_signal (learn_state m))); [|exact H].
    destruct hal_error; cbn [fst]; [exact H|].
    apply notify_reports_sound; [exact I|exact H].
  - unfold learning_rx_callback.
    destruct (active (learn_state m)) eqn:Hact; [|exact H]. cbn [negb].
    destruct (d <? MIN_PULSE_US); [exact H|].
    destruct (timings (current_signal (learn_state m))) as [buf|] eqn:Hbuf;
      [|exfalso; apply (Ha eq_refl); reflexivity].
    set (m1 := if edge_count (learn_state m) =? 0 then _ else m).
    assert (capture_invariant m1 /\ noise_free m1 /\ reports_sound m1)
      as (Hinv1 & Hn1 & H1).
    { subst m1. destruct (edge_count (learn_state m) =? 0); [|auto].
      split; [|split].
      - unfold capture_invariant. rewrite learn_state_notify. cbn.
        rewrite Hbuf. repeat split; try lia; try assumption.
      - intros buf'. rewrite learn_state_notify. cbn. apply Hn.
      - apply notify_reports_sound; [exact I|exact H]. }
    clearbody m1. pose proof Hinv1 as (He1 & Ht1 & Hb1 & Ha1).
    destruct (edge_count (learn_state m1) >=? IR_LEARNING_MAX_EDGES).
    + apply signal_end_handler_reports.
      * unfold capture_invariant. cbn. repeat split; try lia; assumption.
      * intros buf'. cbn. apply Hn1.
      * exact H1.
    + exact H1.
  - apply signal_end_handler_reports; assumption.
  - unfold learning_timeout_handler.
    destruct (negb (active (learn_state m))); [exact H|].
    apply notify_reports_sound; [exact I|exact H].
  - unfold ir_learning_stop.
    destruct (negb (active (learn_state m))); exact H.
Qed.

(** X12. Whatever happens to the engine from power-on, a signal is handed
    to the callback only with [IR_LEARN_COMPLETED], and every such signal is
    valid, has between 1 and 512 pulses, all of them readable, and none
    shorter than the noise threshold of 50 microseconds. *)
Theorem completed_signals_sound (evs : list event) :
  Forall report_sound (delivered (run evs power_on)).
Proof.
  assert (forall m, capture_invariant m -> noise_free m -> reports_sound m ->
                    reports_sound (run evs m)) as H.
  { induction evs as [|ev evs IH]; intros m Hi Hn Hm; [exact Hm|].
    apply (IH (step m ev)).
    - apply step_invariant. exact Hi.
    - apply step_noise_free; assumption.
    - apply step_reports_sound; assumption. }
  apply (H power_on).
  - apply reachable_invariant. exists []. reflexivity.
  - intros buf. cbn. discriminate.
  - constructor.
Qed.

(** *** What the analysis reports *)

(** Every other element of a sequence, from the first one or the second. *)
Fixpoint every_other (this : bool) (l : list Z) : list Z :=
  match l with
  | [] => []
  | a :: l' => if this then a :: every_other false l' else every_other true l'
  end.

Definition marks (l : list Z) : list Z := every_other true l.
Definition spaces (l : list Z) : list Z := every_other false l.

Definition sum (l : list Z) : Z := fold_right Z.add 0 l.

Definition mean (l : list Z) : Z :=
  match l with
  | [] => 0
  | _ :: _ => sum l / len l
  end.

Lemma every_other_Forall (P : Z -> Prop) this l :
  Forall P l -> Forall P (every_other this l).
Proof.
  intros H. revert this. induction H as [|a l Ha Hl IH]; intros this; simpl.
  - constructor.
  - destruct this; [constructor; [exact Ha|]|]; apply IH.
Qed.

Lemma every_other_bound this l :
  Forall (fun t => 0 <= t <= UINT32_MAX) l ->
  len (every_other this l) <= len l /\
  0 <= sum (every_other this l) <= len (every_other this l) * UINT32_MAX.
Proof.
  intros Hr. revert this. unfold len, UINT32_MAX in *.
  induction Hr as [|a l Ha Hr IH]; intros this; simpl.
  - lia.
  - destruct this; simpl.
    + specialize (IH false). unfold sum in *. simpl length. lia.
    + specialize (IH true). lia.
Qed.

Lemma acc_max_fold l i acc :
  acc_max (analyze_fold l i acc) = fold_left Z.max l (acc_max acc).
Proof.
  revert i acc. induction l as [|d l IH]; intros i acc; simpl.
  - reflexivity.
  - rewrite IH. simpl. f_equal.
    destruct (Z.gtb_spec d (acc_max acc)); lia.
Qed.

Lemma parity_next i : ((i + 1) mod 2 =? 0) = negb (i mod 2 =? 0).
Proof.
  rewrite <- Zplus_mod_idemp_l.
  pose proof (Z.mod_pos_bound i 2 ltac:(lia)) as Hb.
  destruct (Z.eqb_spec (i mod 2) 0) as [->|Hne]; [reflexivity|].
  replace (i mod 2) with 1 by lia. reflexivity.
Qed.

(** The sums and counts of the analysis loop, when nothing wraps. *)
Lemma analyze_fold_sums l :
  Forall (fun t => 0 <= t <= UINT32_MAX) l ->
  forall i acc,
    0 <= mark_sum acc -> 0 <= space_sum acc ->
    0 <= mark_count acc -> 0 <= space_count acc ->
    mark_sum acc + len l * 2 ^ 32 < 2 ^ 64 ->
    space_sum acc + len l * 2 ^ 32 < 2 ^ 64 ->
    mark_count acc + len l < 2 ^ 32 ->
    space_count acc + len l < 2 ^ 32 ->
    let r := analyze_fold l i acc in
    let this := i mod 2 =? 0 in
    mark_sum r = mark_sum acc + sum (every_other this l) /\
    mark_count r = mark_count acc + len (every_other this l) /\
    space_sum r = space_sum acc + sum (every_other (negb this) l) /\
    space_count r = space_count acc + len (every_other (negb this) l).
Proof.
  unfold len, UINT32_MAX.
  induction 1 as [|d l Hd Hr IH]; intros i acc Hms Hss Hmc Hsc Hmb Hsb Hcb Hscb;
    cbv zeta.
  - simpl. lia.
  - simpl analyze_fold. simpl length in *.
    pose proof (every_other_bound true l Hr) as Bt.
    pose proof (every_other_bound false l Hr) as Bf.
    unfold len, UINT32_MAX in Bt, Bf.
    assert (2 ^ 32 = 4294967296) as E32 by reflexivity.
    assert (2 ^ 64 = 18446744073709551616) as E64 by reflexivity.
    set (this := i mod 2 =? 0) in *.
    assert (mark_sum (analyze_step acc i d) =
              (if this then mark_sum acc + d else mark_sum acc) /\
            mark_count (analyze_step acc i d) =
              (if this then mark_count acc + 1 else mark_count acc) /\
            space_sum (analyze_step acc i d) =
              (if this then space_sum acc else space_sum acc + d) /\
            space_count (analyze_step acc i d) =
              (if this then space_count acc else space_count acc + 1))
      as (E1 & E2 & E3 & E4).
    { unfold analyze_step. cbn [mark_sum mark_count space_sum space_count].
      fold this. destruct this; unfold u64, u32;
        rewrite ?Z.mod_small by lia; auto. }
    specialize (IH (i + 1) (analyze_step acc i d)). cbv zeta in IH.
    rewrite parity_next in IH. fold this in IH.
    rewrite E1, E2, E3, E4 in IH.
    destruct this; cbn [negb every_other] in *;
      destruct IH as (I1 & I2 & I3 & I4);
      unfold sum in *; cbn [fold_right length] in *; lia.
Qed.

Lemma mean_bound l :
  Forall (fun t => 0 <= t <= UINT32_MAX) l ->
  0 <= sum l <= len l * UINT32_MAX ->
  0 <= mean l <= UINT32_MAX.
Proof.
  intros _ Hs. destruct l as [|a l]; [unfold UINT32_MAX; simpl; lia|].
  unfold mean. assert (0 < len (a :: l)) by (unfold len; simpl length; lia).
  split.
  - apply Z.div_pos; lia.
  - apply Z.div_le_upper_bound; lia.
Qed.

Lemma fold_min_bound l :
  Forall (fun t => 0 <= t <= UINT32_MAX) l ->
  forall a, 0 <= a <= UINT32_MAX -> 0 <= fold_left Z.min l a <= UINT32_MAX.
Proof.
  induction 1 as [|d l Hd Hr IH]; intros a Ha; simpl; [exact Ha|].
  apply IH. lia.
Qed.

Lemma fold_min_lower l c :
  Forall (fun t => c <= t) l ->
  forall a, c <= a -> c <= fold_left Z.min l a.
Proof.
  induction 1 as [|d l Hd Hr IH]; intros a Ha; simpl; [exact Ha|].
  apply IH. lia.
Qed.

Lemma fold_min_upper l :
  forall a, fold_left Z.min l a <= a.
Proof.
  induction l as [|d l IH]; intros a; simpl; [lia|].
  specialize (IH (Z.min a d)). lia.
Qed.

Lemma fold_min_head l d a :
  fold_left Z.min (d :: l) a <= d.
Proof. simpl. pose proof (fold_min_upper l (Z.min a d)). lia. Qed.

(** What the analysis computes from a well-formed signal, and when it
    fails. *)
Lemma analyze_well_formed signal :
  valid signal = true -> well_formed signal ->
  let m := fold_left Z.min (pulses signal) UINT32_MAX in
  ir_learning_analyze signal =
  if (m >? 0) && (u32 (m * 2) =? 0) then Fault DivisionByZero
  else Ok {| avg_mark := mean (marks (pulses signal));
             avg_space := mean (spaces (pulses signal));
             min_pulse := m;
             max_pulse := fold_left Z.max (pulses signal) 0;
             pulse_count := timing_count signal;
             estimated_freq :=
               if m >? 0 then snap_frequency (1000000 / u32 (m * 2)) else 0 |}.
Proof.
  intros Hv (buf & Hb & Hc & Hl & Hr). cbv zeta.
  unfold ir_learning_analyze. rewrite Hv. simpl negb. cbv iota.
  rewrite (analyze_loop_ok signal buf Hb _ 0%nat)
    by (unfold len in Hl; lia).
  simpl bind. rewrite drop_0. change (Z.of_nat 0) with 0.
  assert (pulses signal = take (Z.to_nat (timing_count signal)) buf) as Hp
    by (unfold pulses; rewrite Hb; reflexivity).
  rewrite <- Hp.
  assert (Forall (fun t => 0 <= t <= UINT32_MAX) (pulses signal)) as Hrp
    by (rewrite Hp; apply Forall_take; exact Hr).
  assert (len (pulses signal) < 2 ^ 16) as Hlp.
  { rewrite Hp. unfold len in *. rewrite length_take. lia. }
  set (acc0 := {| acc_min := UINT32_MAX; acc_max := 0; mark_sum := 0;
                  space_sum := 0; mark_count := 0; space_count := 0 |}).
  pose proof (analyze_fold_sums (pulses signal) Hrp 0 acc0) as Hs.
  change (2 ^ 16) with 65536 in Hlp.
  assert (0 <= len (pulses signal)) as Hl0 by (unfold len; lia).
  cbv zeta in Hs. change (0 mod 2 =? 0) with true in Hs. cbn [negb] in Hs.
  destruct Hs as (Hms & Hmc & Hss & Hsc);
    try (subst acc0; cbn [mark_sum space_sum mark_count space_count];
         change (2 ^ 32) with 4294967296;
         change (2 ^ 64) with 18446744073709551616; lia).
  subst acc0. cbn [mark_sum space_sum mark_count space_count] in *.
  rewrite Z.add_0_l in Hms, Hmc, Hss, Hsc.
  rewrite Hms, Hmc, Hss, Hsc, acc_min_fold, acc_max_fold.
  cbn [acc_min acc_max].
  fold (marks (pulses signal)) (spaces (pulses signal)).
  assert (forall l, Forall (fun t => 0 <= t <= UINT32_MAX) l ->
                    0 <= sum l <= len l * UINT32_MAX ->
                    (if len l >? 0 then u32 (sum l / len l) else 0) = mean l)
    as Hmean.
  { intros l Hrl Hsl. pose proof (mean_bound l Hrl Hsl) as Hmb.
    destruct l as [|a l]; [reflexivity|].
    assert (0 < len (a :: l)) by (unfold len; simpl length; lia).
    destruct (Z.gtb_spec (len (a :: l)) 0); [|lia].
    unfold mean in *. unfold u32. apply Z.mod_small.
    unfold UINT32_MAX in Hmb. lia. }
  assert (forall this, Forall (fun t => 0 <= t <= UINT32_MAX)
                         (every_other this (pulses signal))) as Hre
    by (intros this; apply every_other_Forall; exact Hrp).
  rewrite (Hmean (marks (pulses signal)))
    by (try apply Hre; apply every_other_bound; exact Hrp).
  rewrite (Hmean (spaces (pulses signal)))
    by (try apply Hre; apply every_other_bound; exact Hrp).
  destruct (fold_left Z.min (pulses signal) UINT32_MAX >? 0); cbn [andb];
    [|reflexivity].
  destruct (u32 (fold_left Z.min (pulses signal) UINT32_MAX * 2) =? 0);
    reflexivity.
Qed.

Lemma pulses_range signal :
  well_formed signal ->
  Forall (fun t => 0 <= t <= UINT32_MAX) (pulses signal).
Proof.
  intros (buf & Hb & _ & _ & Hr). unfold pulses. rewrite Hb.
  apply Forall_take. exact Hr.
Qed.

Lemma doubled_wraps_to_zero m :
  0 <= m <= UINT32_MAX ->
  (m >? 0) && (u32 (m * 2) =? 0) = true <-> m = 2 ^ 31.
Proof.
  unfold UINT32_MAX, u32. change (2 ^ 32) with 4294967296.
  change (2 ^ 31) with 2147483648. intros Hm.
  rewrite andb_true_iff, Z.gtb_ltb, Z.ltb_lt, Z.eqb_eq. split.
  - intros [Hpos Hz].
    destruct (Z.lt_ge_cases m 2147483648) as [Hlt|Hge].
    + rewrite Z.mod_small in Hz by lia. lia.
    + replace (m * 2) with ((m * 2 - 4294967296) + 1 * 4294967296) in Hz by lia.
      rewrite Z.mod_add in Hz by lia. rewrite Z.mod_small in Hz by lia. lia.
  - intros ->. split; [lia|reflexivity].
Qed.

(** X13. The analysis of a valid, readable signal.  It divides by zero
    exactly when the shortest pulse is 2^31 microseconds, whose double
    wraps to zero.  Otherwise it returns the number of pulses, the shortest
    and the longest of them (4294967295 and 0 for an empty signal), and the
    integer means of the pulses at even positions (marks) and at odd
    positions (spaces), each 0 when there is none; no sum or count
    wraps. *)
Theorem analyze_statistics (signal : ir_learned_signal_t) :
  valid signal = true ->
  well_formed signal ->
  let shortest := fold_left Z.min (pulses signal) UINT32_MAX in
  if shortest =? 2 ^ 31
  then ir_learning_analyze signal = Fault DivisionByZero
  else exists analysis,
         ir_learning_analyze signal = Ok analysis /\
         pulse_count analysis = timing_count signal /\
         min_pulse analysis = shortest /\
         max_pulse analysis = fold_left Z.max (pulses signal) 0 /\
         avg_mark analysis = mean (marks (pulses signal)) /\
         avg_space analysis = mean (spaces (pulses signal)).
Proof.
  intros Hv Hw. cbv zeta.
  rewrite (analyze_well_formed signal Hv Hw). cbv zeta.
  pose proof (fold_min_bound (pulses signal) (pulses_range signal Hw)
                UINT32_MAX ltac:(unfold UINT32_MAX; lia)) as Hm.
  pose proof (doubled_wraps_to_zero _ Hm) as Hiff.
  destruct (Z.eqb_spec (fold_left Z.min (pulses signal) UINT32_MAX) (2 ^ 31))
    as [Heq|Hne].
  - rewrite (proj2 Hiff Heq). reflexivity.
  - destruct ((fold_left Z.min (pulses signal) UINT32_MAX >? 0)
              && (u32 (fold_left Z.min (pulses signal) UINT32_MAX * 2) =? 0))
      eqn:Hc.
    + exfalso. apply Hne. apply Hiff. reflexivity.
    + eexists. split; [reflexivity|]. cbn.
      split; [reflexivity|]. split; [reflexivity|]. split; [reflexivity|].
      split; reflexivity.
Qed.

Lemma analyze_statistics_witness :
  exists analysis,
    ir_learning_analyze (signal_of [9000; 4500; 560; 1690; 600]) = Ok analysis /\
    pulse_count analysis = 5 /\
    min_pulse analysis = 560 /\
    max_pulse analysis = 9000 /\
    avg_mark analysis = mean [9000; 560; 600] /\
    avg_space analysis = mean [4500; 1690].
Proof.
  apply (analyze_statistics (signal_of [9000; 4500; 560; 1690; 600])).
  - reflexivity.
  - apply signal_of_well_formed; [reflexivity | pulses_in_range].
Defined.

(** The carrier frequency reported for a shortest pulse of [m]
    microseconds. *)
Definition carrier_by_shortest (m : Z) : Z :=
  if m =? 12 then 40000
  else if (m =? 13) || (m =? 14) then 38000
  else if m =? 15 then 36000
  else 1000000 / (2 * m).

Lemma snap_by_shortest m :
  0 < m < 2 ^ 31 ->
  snap_frequency (1000000 / u32 (m * 2)) = carrier_by_shortest m.
Proof.
  intros Hm. change (2 ^ 31) with 2147483648 in Hm.
  unfold u32. change (2 ^ 32) with 4294967296.
  rewrite Z.mod_small by lia. replace (m * 2) with (2 * m) by lia.
  unfold carrier_by_shortest, snap_frequency.
  destruct (Z.le_gt_cases m 11) as [Hsmall|Hbig].
  - assert (45454 <= 1000000 / (2 * m))
      by (apply Z.div_le_lower_bound; lia).
    repeat match goal with
           | |- context [?a =? ?b] => destruct (Z.eqb_spec a b); [lia|]
           end.
    repeat match goal with
           | |- context [?a >? ?b] => destruct (Z.gtb_spec a b)
           | |- context [?a <? ?b] => destruct (Z.ltb_spec a b)
           end; simpl; lia.
  - destruct (Z.le_gt_cases m 15) as [Hmid|Hlarge].
    + assert (m = 12 \/ m = 13 \/ m = 14 \/ m = 15) as [-> | [-> | [-> | ->]]]
        by lia; reflexivity.
    + assert (1000000 / (2 * m) <= 31250)
        by (apply Z.div_le_upper_bound; lia).
      repeat match goal with
             | |- context [?a =? ?b] => destruct (Z.eqb_spec a b); [lia|]
             end.
      repeat match goal with
             | |- context [?a >? ?b] => destruct (Z.gtb_spec a b)
             | |- context [?a <? ?b] => destruct (Z.ltb_spec a b)
             end; simpl; lia.
Qed.

(** X14. The carrier estimate as a function of the shortest pulse [m] of a
    valid, readable signal, for [0 < m < 2^31]: 40000 for 12 microseconds,
    38000 for 13 and 14, 36000 for 15, and [1000000 / (2 * m)], not
    rounded, for every other value.  These four values are the only ones
    that reach a rounding window. *)
Theorem carrier_estimate_table (signal : ir_learned_signal_t) :
  valid signal = true ->
  well_formed signal ->
  0 < fold_left Z.min (pulses signal) UINT32_MAX < 2 ^ 31 ->
  exists analysis,
    ir_learning_analyze signal = Ok analysis /\
    estimated_freq analysis = carrier_by_shortest (min_pulse analysis).
Proof.
  intros Hv Hw Hm.
  rewrite (analyze_well_formed signal Hv Hw). cbv zeta.
  pose proof (fold_min_bound (pulses signal) (pulses_range signal Hw)
                UINT32_MAX ltac:(unfold UINT32_MAX; lia)) as Hr.
  destruct ((fold_left Z.min (pulses signal) UINT32_MAX >? 0)
            && (u32 (fold_left Z.min (pulses signal) UINT32_MAX * 2) =? 0))
    eqn:Hc.
  - apply (doubled_wraps_to_zero _ Hr) in Hc. lia.
  - eexists. split; [reflexivity|]. cbn [estimated_freq min_pulse].
    destruct (Z.gtb_spec (fold_left Z.min (pulses signal) UINT32_MAX) 0);
      [|lia].
    apply snap_by_shortest. exact Hm.
Qed.

Lemma carrier_estimate_table_witness :
  exists analysis,
    ir_learning_analyze (signal_of [560; 15; 1690]) = Ok analysis /\
    estimated_freq analysis = carrier_by_shortest (min_pulse analysis).
Proof.
  apply (carrier_estimate_table (signal_of [560; 15; 1690])).
  - reflexivity.
  - apply signal_of_well_formed; [reflexivity | pulses_in_range].
  - vm_compute. split; reflexivity.
Defined.

(** X15. A signal as the engine completes it has no pulse below 50
    microseconds; when its pulses also stay below 2^31, its analysis
    returns, and the carrier it reports is [1000000 / (2 * min_pulse)], at
    most 10000 Hz: none of the bands 36, 38 and 40 kHz is ever reported
    for a captured signal. *)
Theorem captured_signal_carrier (signal : ir_learned_signal_t) :
  report_sound (IR_LEARN_COMPLETED, Some signal) ->
  well_formed signal ->
  Forall (fun t => t < 2 ^ 31) (pulses signal) ->
  exists analysis,
    ir_learning_analyze signal = Ok analysis /\
    MIN_PULSE_US <= min_pulse analysis /\
    estimated_freq analysis = 1000000 / (2 * min_pulse analysis) /\
    0 <= estimated_freq analysis <= 10000.
Proof.
  intros (Hv & Hc & Hl & Hn) Hw Hu. unfold MIN_PULSE_US in *.
  assert (50 <= fold_left Z.min (pulses signal) UINT32_MAX < 2 ^ 31) as Hm.
  { split.
    - apply fold_min_lower; [exact Hn|unfold UINT32_MAX; lia].
    - destruct (pulses signal) as [|d l] eqn:Hp.
      + unfold len in Hl. simpl in Hl. lia.
      + pose proof (fold_min_head l d UINT32_MAX).
        apply Forall_cons in Hu as [Hd _]. lia. }
  rewrite (analyze_well_formed signal Hv Hw). cbv zeta.
  pose proof (fold_min_bound (pulses signal) (pulses_range signal Hw)
                UINT32_MAX ltac:(unfold UINT32_MAX; lia)) as Hr.
  destruct ((fold_left Z.min (pulses signal) UINT32_MAX >? 0)
            && (u32 (fold_left Z.min (pulses signal) UINT32_MAX * 2) =? 0))
    eqn:Hz.
  - apply (doubled_wraps_to_zero _ Hr) in Hz. lia.
  - eexists. split; [reflexivity|]. cbn [estimated_freq min_pulse].
    destruct (Z.gtb_spec (fold_left Z.min (pulses signal) UINT32_MAX) 0);
      [|lia].
    rewrite snap_by_shortest by lia.
    set (m := fold_left Z.min (pulses signal) UINT32_MAX) in *.
    unfold carrier_by_shortest.
    repeat match goal with
           | |- context [?a =? ?b] => destruct (Z.eqb_spec a b); [lia|]
           end.
    cbn [orb]. split; [lia|]. split; [reflexivity|]. split.
    + apply Z.div_pos; lia.
    + apply Z.div_le_upper_bound; lia.
Qed.

Lemma captured_signal_carrier_witness :
  exists analysis,
    ir_learning_analyze (signal_of [9000; 4500; 560]) = Ok analysis /\
    MIN_PULSE_US <= min_pulse analysis /\
    estimated_freq analysis = 1000000 / (2 * min_pulse analysis) /\
    0 <= estimated_freq analysis <= 10000.
Proof.
  apply (captured_signal_carrier (signal_of [9000; 4500; 560])).
  - split; [reflexivity|]. split; [vm_compute; split; discriminate|].
    split; [reflexivity|].
    unfold pulses, MIN_PULSE_US. simpl.
    repeat (apply Forall_cons; split; [lia|]). apply Forall_nil. exact I.
  - apply signal_of_well_formed; [reflexivity | pulses_in_range].
  - unfold pulses. simpl.
    repeat (apply Forall_cons; split; [lia|]). apply Forall_nil. exact I.
Defined.

(** *** Similarity is symmetric *)

Lemma matching_pairs_sym l1 l2 :
  matching_pairs l1 l2 = matching_pairs l2 l1.
Proof.
  revert l2. induction l1 as [|a l1 IH]; intros [|b l2]; simpl; try reflexivity.
  rewrite IH. replace (b - a) with (- (a - b)) by lia. rewrite Z.abs_opp.
  reflexivity.
Qed.

(** X16. Comparing two valid, readable signals gives the same outcome in
    either order: the same similarity, or in both orders the division by
    zero of an empty shorter signal. *)
Theorem compare_symmetric (sig1 sig2 : ir_learned_signal_t) :
  valid sig1 = true -> valid sig2 = true ->
  well_formed sig1 -> well_formed sig2 ->
  ir_learning_compare sig1 sig2 = ir_learning_compare sig2 sig1.
Proof.
  intros Hv1 Hv2 Hw1 Hw2.
  destruct (Z.le_gt_cases (Z.abs (timing_count sig1 - timing_count sig2)) 10)
    as [Hclose|Hfar].
  - destruct (compare_pulses sig1 sig2 Hv1 Hv2 Hw1 Hw2 Hclose) as [_ ->].
    destruct (compare_pulses sig2 sig1 Hv2 Hv1 Hw2 Hw1) as [_ ->]; [lia|].
    rewrite (Z.min_comm (timing_count sig2)), (matching_pairs_sym (pulses sig2)).
    reflexivity.
  - rewrite (compare_different_length sig1 sig2 Hv1 Hv2) by lia.
    rewrite (compare_different_length sig2 sig1 Hv2 Hv1) by lia.
    reflexivity.
Qed.

Lemma compare_symmetric_witness :
  ir_learning_compare (signal_of [560; 560; 560; 1690; 560])
    (signal_of [600; 900; 560]) =
  ir_learning_compare (signal_of [600; 900; 560])
    (signal_of [560; 560; 560; 1690; 560]).
Proof.
  apply (compare_symmetric (signal_of [560; 560; 560; 1690; 560])
           (signal_of [600; 900; 560])).
  - reflexivity.
  - reflexivity.
  - apply signal_of_well_formed; [reflexivity | pulses_in_range].
  - apply signal_of_well_formed; [reflexivity | pulses_in_range].
Defined.

End Learning.

(** ** irdb_loader.h / irdb_loader.c: the database cache *)

Module Cache.

Definition IRDB_CACHE_SIZE : nat := 4.

(** Heap blocks holding arrays of entries; a pointer to one is its address,
    [None] is [NULL]. *)
Definition address : Type := nat.

Record irdb_database_t : Type := {
  manufacturer : string;
  device_type : string;
  entries : option address;
  entry_count : Z
}.

Record irdb_cache_entry_t : Type := {
  path : string;
  database : irdb_database_t;
  last_access : Z;
  valid : bool
}.

(** The static [cache] array and the heap its databases live in. *)
Record cache_state : Type := {
  cache : list irdb_cache_entry_t;
  heap : gmap address (list Protocol.irdb_entry_t)
}.

Definition zero_database : irdb_database_t :=
  {| manufacturer := ""; device_type := ""; entries := None; entry_count := 0 |}.

Definition zero_entry : irdb_cache_entry_t :=
  {| path := ""; database := zero_database; last_access := 0; valid := false |}.

Definition empty_cache : cache_state :=
  {| cache := replicate IRDB_CACHE_SIZE zero_entry; heap := ∅ |}.

(** [irdb_free_database]: frees and zeroes, but only a database that has
    entries.  The heap of this module does not tell which allocator a block
    came from, and a release succeeds on any live block;
    [CacheHeap.irdb_free_database] below tells the allocators apart. *)
Definition irdb_free_database (h : gmap address (list Protocol.irdb_entry_t))
    (db : irdb_database_t)
    : gmap address (list Protocol.irdb_entry_t) * irdb_database_t :=
  match entries db with
  | Some a => (delete a h, zero_database)
  | None => (h, db)
  end.

Definition touch (e : irdb_cache_entry_t) (now : Z) : irdb_cache_entry_t :=
  {| path := path e; database := database e; last_access := now;
     valid := valid e |}.

(** The lookup loop of [irdb_cache_get], from slot [i] on. *)
Fixpoint find_slot (slots : list irdb_cache_entry_t) (key : string) (i : nat)
    : option nat :=
  match slots with
  | [] => None
  | e :: rest =>
      if valid e && String.eqb (path e) key then Some i
      else find_slot rest key (S i)
  end.

(** [irdb_cache_get]; [now] is what [k_uptime_get_32] returns.  The result
    is the slot whose database [*db_out] points to. *)
Definition irdb_cache_get (c : cache_state) (key : string) (now : Z)
    : cache_state * result nat :=
  match find_slot (cache c) key 0 with
  | Some i =>
      ({| cache := alter (fun e => touch e now) i (cache c); heap := heap c |},
       Ok i)
  | None => (c, Err ENOENT)
  end.

(** The victim search of [irdb_cache_put], from slot [i] on. *)
Fixpoint select_target (slots : list irdb_cache_entry_t) (i target_idx : nat)
    (oldest_time : Z) : nat :=
  match slots with
  | [] => target_idx
  | e :: rest =>
      if negb (valid e) then i
      else if last_access e <? oldest_time
      then select_target rest (S i) i (last_access e)
      else select_target rest (S i) target_idx oldest_time
  end.

(** [memcpy] of [count] entries out of the block [src] points to. *)
Definition read_entries (h : gmap address (list Protocol.irdb_entry_t))
    (src : option address) (count : Z) : result (list Protocol.irdb_entry_t) :=
  match src with
  | None => if count =? 0 then Ok [] else Fault OutOfBounds
  | Some a =>
      match h !! a with
      | Some es =>
          if count <=? len es then Ok (take (Z.to_nat count) es)
          else Fault OutOfBounds
      | None => Fault OutOfBounds
      end
  end.

(** [irdb_cache_put]; [alloc_ok] tells whether [k_malloc] succeeds and [now]
    is what [k_uptime_get_32] returns. *)
Definition irdb_cache_put (c : cache_state) (key : string) (db : irdb_database_t)
    (alloc_ok : bool) (now : Z) : cache_state * result unit :=
  let target_idx := select_target (cache c) 0 0 UINT32_MAX in
  match cache c !! target_idx with
  | None => (c, Fault OutOfBounds)
  | Some e =>
      let '(h, old) :=
        if valid e then irdb_free_database (heap c) (database e)
        else (heap c, database e) in
      let key' := strncpy key 127 in
      if alloc_ok then
        let a := fresh (dom h) in
        match read_entries h (entries db) (entry_count db) with
        | Ok copied =>
            let e' :=
              {| path := key';
                 database :=
                   {| manufacturer := strncpy (manufacturer db) 63;
                      device_type := strncpy (device_type db) 63;
                      entries := Some a;
                      entry_count := entry_count db |};
                 last_access := now;
                 valid := true |} in
            ({| cache := <[target_idx := e']> (cache c);
                heap := <[a := copied]> h |}, Ok tt)
        | Err err => (c, Err err)
        | Fault u => (c, Fault u)
        end
      else
        let e' :=
          {| path := key';
             database :=
               {| manufacturer := manufacturer old;
                  device_type := device_type old;
                  entries := None;
                  entry_count := entry_count db |};
             last_access := last_access e;
             valid := valid e |} in
        ({| cache := <[target_idx := e']> (cache c); heap := h |}, Err ENOMEM)
  end.

(** One iteration of [irdb_cache_clear]. *)
Definition clear_slot (acc : list irdb_cache_entry_t * gmap address (list Protocol.irdb_entry_t))
    (e : irdb_cache_entry_t)
    : list irdb_cache_entry_t * gmap address (list Protocol.irdb_entry_t) :=
  if valid e then
    let '(h, db) := irdb_free_database (snd acc) (database e) in
    (fst acc ++ [{| path := path e; database := db;
                    last_access := last_access e; valid := false |}], h)
  else (fst acc ++ [e], snd acc).

Definition irdb_cache_clear (c : cache_state) : cache_state :=
  let '(slots, h) := fold_left clear_slot (cache c) ([], heap c) in
  {| cache := slots; heap := h |}.

(** *** Which slot a Put takes *)

Definition first_invalid (slots : list irdb_cache_entry_t) (t : nat) : Prop :=
  exists e, slots !! t = Some e /\ valid e = false /\
    forall j e', (j < t)%nat -> slots !! j = Some e' -> valid e' = true.

Definition all_valid (slots : list irdb_cache_entry_t) : Prop :=
  Forall (fun e => valid e = true) slots.

(** Slot [t] has the smallest timestamp, and is the first to have it. *)
Definition least_recent (slots : list irdb_cache_entry_t) (t : nat) : Prop :=
  exists e, slots !! t = Some e /\
    (forall j e', slots !! j = Some e' -> last_access e <= last_access e') /\
    (forall j e', (j < t)%nat -> slots !! j = Some e' ->
                  last_access e < last_access e').

Definition eviction_target (slots : list irdb_cache_entry_t) (t : nat) : Prop :=
  first_invalid slots t \/ (all_valid slots /\ least_recent slots t).

Definition timestamps_ok (slots : list irdb_cache_entry_t) : Prop :=
  Forall (fun e => 0 <= last_access e <= UINT32_MAX) slots.

(** Loop invariant of the victim search after the slots [pre]. *)
Definition scanned (pre : list irdb_cache_entry_t) (target_idx : nat)
    (oldest_time : Z) : Prop :=
  all_valid pre /\
  (forall j e', pre !! j = Some e' -> oldest_time <= last_access e') /\
  ((pre = [] /\ target_idx = 0%nat /\ oldest_time = UINT32_MAX) \/
   (exists e, pre !! target_idx = Some e /\ last_access e = oldest_time /\
      forall j e', (j < target_idx)%nat -> pre !! j = Some e' ->
                   oldest_time < last_access e')).

Lemma select_target_scanned rest :
  forall pre target_idx oldest_time,
    timestamps_ok (pre ++ rest) ->
    scanned pre target_idx oldest_time ->
    pre ++ rest <> [] ->
    eviction_target (pre ++ rest)
      (select_target rest (length pre) target_idx oldest_time).
Proof.
  induction rest as [|e rest IH]; intros pre t oldest Hts Hsc Hne; simpl.
  - rewrite app_nil_r in *. destruct Hsc as (Hval & Hmin & [(-> & _)|Hold]).
    + contradiction.
    + right. split; [exact Hval|].
      destruct Hold as (e & He & <- & Hfirst). exists e. auto.
  - destruct Hsc as (Hval & Hmin & Hold).
    destruct (valid e) eqn:Hv; simpl.
    + assert (0 <= last_access e <= UINT32_MAX) as Hb.
      { apply Forall_app in Hts. destruct Hts as [_ Hts].
        inversion Hts; subst. assumption. }
      assert (all_valid (pre ++ [e])) as Hval'.
      { apply Forall_app. split; [exact Hval|]. repeat constructor. exact Hv. }
      replace (S (length pre)) with (length (pre ++ [e]))
        by (rewrite length_app; simpl; lia).
      replace (pre ++ e :: rest) with ((pre ++ [e]) ++ rest) in *
        by (rewrite <- app_assoc; reflexivity).
      destruct (Z.ltb_spec (last_access e) oldest) as [Hlt|Hge].
      * apply IH; [exact Hts| |destruct pre; discriminate].
        split; [exact Hval'|]. split.
        -- intros j e' Hj. apply lookup_app_Some in Hj.
           destruct Hj as [Hj|[_ Hj]].
           ++ specialize (Hmin _ _ Hj). lia.
           ++ apply list_lookup_singleton_Some in Hj. destruct Hj as [_ <-]. lia.
        -- right. exists e. split; [apply list_lookup_middle; reflexivity|].
           split; [reflexivity|].
           intros j e' Hj He'. rewrite lookup_app_l in He' by exact Hj.
           specialize (Hmin _ _ He'). lia.
      * apply IH; [exact Hts| |destruct pre; discriminate].
        split; [exact Hval'|]. split.
        -- intros j e' Hj. apply lookup_app_Some in Hj.
           destruct Hj as [Hj|[_ Hj]].
           ++ apply (Hmin _ _ Hj).
           ++ apply list_lookup_singleton_Some in Hj. destruct Hj as [_ <-]. lia.
        -- right. destruct Hold as [(-> & -> & ->)|(e0 & He0 & Hl0 & Hf0)].
           ++ exists e. simpl. split; [reflexivity|].
              split; [lia|]. intros j e' Hj. lia.
           ++ exists e0. split; [apply lookup_app_l_Some; exact He0|].
              split; [exact Hl0|].
              intros j e' Hj He'.
              pose proof (lookup_lt_Some _ _ _ He0) as Hlt0.
              rewrite lookup_app_l in He' by lia.
              apply (Hf0 _ _ Hj He').
    + left. exists e. split; [apply list_lookup_middle; reflexivity|].
      split; [exact Hv|].
      intros j e' Hj He'. rewrite lookup_app_l in He' by exact Hj.
      apply (proj1 (Forall_lookup _ _) Hval _ _ He').
Qed.

Lemma select_target_spec slots :
  slots <> [] -> timestamps_ok slots ->
  eviction_target slots (select_target slots 0 0 UINT32_MAX).
Proof.
  intros Hne Hts. apply (select_target_scanned slots [] 0%nat UINT32_MAX).
  - exact Hts.
  - split; [constructor|]. split.
    + intros j e' Hj. rewrite lookup_nil in Hj. discriminate.
    + left. auto.
  - exact Hne.
Qed.

Lemma eviction_target_in_range slots t :
  eviction_target slots t -> (t < length slots)%nat.
Proof.
  intros [(e & He & _)|(_ & e & He & _)]; apply (lookup_lt_Some _ _ _ He).
Qed.

(** *** Get *)

Lemma find_slot_from slots key k i :
  find_slot slots key k = Some i ->
  (k <= i)%nat /\
  exists e, slots !! (i - k)%nat = Some e /\ valid e = true /\ path e = key /\
    forall j e', (j < i - k)%nat -> slots !! j = Some e' ->
                 valid e' && String.eqb (path e') key = false.
Proof.
  revert k. induction slots as [|e slots IH]; intros k; simpl; [discriminate|].
  destruct (valid e && String.eqb (path e) key) eqn:Hhit.
  - intros [= <-]. split; [lia|]. exists e. rewrite Nat.sub_diag.
    apply andb_true_iff in Hhit. destruct Hhit as [Hv Hp].
    apply String.eqb_eq in Hp. repeat split; try assumption. lia.
  - intros Hf. destruct (IH _ Hf) as (Hle & e0 & He0 & Hv & Hp & Hfirst).
    split; [lia|]. exists e0.
    replace (i - k)%nat with (S (i - S k)) by lia.
    repeat split; try assumption.
    intros [|j] e' Hj He'; simpl in He'.
    + injection He' as <-. exact Hhit.
    + apply (Hfirst j e'); [lia|exact He'].
Qed.

(** A hit refreshes the timestamp of the first valid slot holding the key
    and changes nothing else. *)
Lemma cache_get_hit c key now i :
  find_slot (cache c) key 0 = Some i ->
  exists e,
    cache c !! i = Some e /\ valid e = true /\ path e = key /\
    irdb_cache_get c key now =
    ({| cache := <[i := touch e now]> (cache c); heap := heap c |}, Ok i).
Proof.
  intros Hf. destruct (find_slot_from _ _ _ _ Hf) as (_ & e & He & Hv & Hp & _).
  rewrite Nat.sub_0_r in He. exists e. repeat split; try assumption.
  unfold irdb_cache_get. rewrite Hf. f_equal. f_equal.
  apply list_eq. intros j. destruct (decide (j = i)) as [->|Hne].
  - rewrite list_lookup_alter_eq, He.
    rewrite list_lookup_insert_eq by (apply (lookup_lt_Some _ _ _ He)).
    reflexivity.
  - rewrite list_lookup_alter_ne by congruence.
    rewrite list_lookup_insert_ne by congruence. reflexivity.
Qed.

Lemma cache_get_miss c key now :
  find_slot (cache c) key 0 = None ->
  irdb_cache_get c key now = (c, Err ENOENT).
Proof. intros Hf. unfold irdb_cache_get. rewrite Hf. reflexivity. Qed.

(** *** Put *)

(** The heap once the victim's database has been released. *)
Definition released (h : gmap address (list Protocol.irdb_entry_t))
    (e : irdb_cache_entry_t) : gmap address (list Protocol.irdb_entry_t) :=
  if valid e
  then match entries (database e) with
       | Some old => delete old h
       | None => h
       end
  else h.

(** The slot a successful Put writes. *)
Definition stored (key : string) (db : irdb_database_t) (a : address) (now : Z)
    : irdb_cache_entry_t :=
  {| path := strncpy key 127;
     database :=
       {| manufacturer := strncpy (manufacturer db) 63;
          device_type := strncpy (device_type db) 63;
          entries := Some a;
          entry_count := entry_count db |};
     last_access := now;
     valid := true |}.

Lemma cache_put_stores c key db now a_src es :
  cache c <> [] -> timestamps_ok (cache c) ->
  entries db = Some a_src -> heap c !! a_src = Some es ->
  entry_count db = len es ->
  Forall (fun e => entries (database e) <> Some a_src) (cache c) ->
  let t := select_target (cache c) 0 0 UINT32_MAX in
  exists e a,
    cache c !! t = Some e /\
    (a ∉ dom (released (heap c) e)) /\
    a <> a_src /\
    irdb_cache_put c key db true now =
    ({| cache := <[t := stored key db a now]> (cache c);
        heap := <[a := es]> (released (heap c) e) |}, Ok tt).
Proof.
  intros Hne Hts Hsrc Hes Hcount Hnot t.
  pose proof (select_target_spec _ Hne Hts) as Ht. fold t in Ht.
  pose proof (eviction_target_in_range _ _ Ht) as Hlt.
  destruct (lookup_lt_is_Some_2 _ _ Hlt) as [e He].
  pose proof (proj1 (Forall_lookup _ _) Hnot _ _ He) as Hnote. simpl in Hnote.
  assert (released (heap c) e !! a_src = Some es) as Hlive.
  { unfold released. destruct (valid e); [|exact Hes].
    destruct (entries (database e)) as [old|]; [|exact Hes].
    rewrite lookup_delete_ne by congruence. exact Hes. }
  exists e, (fresh (dom (released (heap c) e))).
  split; [exact He|]. split; [apply is_fresh|]. split.
  { intros Heq. apply (is_fresh (dom (released (heap c) e))).
    rewrite Heq. apply elem_of_dom. eauto. }
  unfold irdb_cache_put. fold t. rewrite He.
  assert ((if valid e then irdb_free_database (heap c) (database e)
           else (heap c, database e)) =
          (released (heap c) e,
           if valid e
           then match entries (database e) with
                | Some _ => zero_database
                | None => database e
                end
           else database e)) as ->.
  { unfold released, irdb_free_database.
    destruct (valid e); [|reflexivity].
    destruct (entries (database e)); reflexivity. }
  unfold read_entries. rewrite Hsrc, Hlive, Hcount.
  rewrite Z.leb_refl. unfold len. rewrite Nat2Z.id, firstn_all.
  unfold stored. rewrite Hcount. reflexivity.
Qed.

(** *** Sequences of cache operations *)

Inductive cache_op : Type :=
| Put (key : string) (db : irdb_database_t) (alloc_ok : bool) (now : Z)
| Get (key : string) (now : Z)
| Clear.

Definition apply_op (c : cache_state) (op : cache_op) : cache_state :=
  match op with
  | Put key db alloc_ok now => fst (irdb_cache_put c key db alloc_ok now)
  | Get key now => fst (irdb_cache_get c key now)
  | Clear => irdb_cache_clear c
  end.

Definition run_ops (ops : list cache_op) (c : cache_state) : cache_state :=
  fold_left apply_op ops c.

(** A parsed database held by the caller at address 100, and the cache
    after it has been stored under four keys. *)
Definition tv_db : irdb_database_t :=
  {| manufacturer := "Samsung"; device_type := "TV";
     entries := Some 100%nat; entry_count := 1 |}.

Definition loaded : cache_state :=
  {| cache := cache empty_cache; heap := {[ 100%nat := [Protocol.power] ]} |}.


Definition warm_slot (key : string) (a : address) (t : Z) : irdb_cache_entry_t :=
  {| path := key;
     database := {| manufacturer := "Samsung"; device_type := "TV";
                    entries := Some a; entry_count := 1 |};
     last_access := t; valid := true |}.


Ltac slots_forall tac :=
  repeat (apply Forall_cons; split; [tac|]); apply Forall_nil; exact I.

(** *** Slots are all-or-nothing, until an allocation fails *)

(** A fully valid slot: flagged valid and owning a live block that holds as
    many entries as the database says. *)
Definition fully_valid (h : gmap address (list Protocol.irdb_entry_t))
    (e : irdb_cache_entry_t) : Prop :=
  valid e = true /\
  exists a es, entries (database e) = Some a /\ h !! a = Some es /\
               entry_count (database e) = len es.

Definition slot_consistent (h : gmap address (list Protocol.irdb_entry_t))
    (e : irdb_cache_entry_t) : Prop :=
  valid e = false \/ fully_valid h e.

Definition cache_consistent (c : cache_state) : Prop :=
  Forall (slot_consistent (heap c)) (cache c).

(** No block is owned by two valid slots. *)
Definition owners_distinct (slots : list irdb_cache_entry_t) : Prop :=
  forall i j ei ej a,
    i <> j -> slots !! i = Some ei -> slots !! j = Some ej ->
    valid ei = true -> valid ej = true ->
    entries (database ei) = Some a -> entries (database ej) <> Some a.

Definition cache_sound (c : cache_state) : Prop :=
  cache_consistent c /\ owners_distinct (cache c).

Lemma empty_cache_sound : cache_sound empty_cache.
Proof.
  split.
  - unfold cache_consistent. simpl. slots_forall ltac:(left; reflexivity).
  - intros i j ei ej a _ Hi _ Hv. unfold empty_cache in Hi. cbn [cache] in Hi.
    apply lookup_replicate in Hi. destruct Hi as [-> _]. discriminate.
Qed.

(** A Get keeps every slot as it is, up to the timestamp. *)
Lemma cache_get_sound c key now :
  cache_sound c -> cache_sound (fst (irdb_cache_get c key now)).
Proof.
  intros [Hcons Hown].
  destruct (find_slot (cache c) key 0) as [i|] eqn:Hf.
  - destruct (cache_get_hit c key now i Hf) as (e & He & _ & _ & ->). simpl.
    split.
    + unfold cache_consistent. simpl. apply Forall_insert; [exact Hcons|].
      exact (proj1 (Forall_lookup _ _) Hcons _ _ He).
    + intros j k ej ek a Hjk Hj Hk Hvj Hvk Ha.
      assert (forall n en, <[i:=touch e now]> (cache c) !! n = Some en ->
                exists en', cache c !! n = Some en' /\ valid en' = valid en /\
                            database en' = database en) as Hback.
      { intros n en Hn. destruct (decide (n = i)) as [->|Hni].
        - rewrite list_lookup_insert_eq in Hn by (apply (lookup_lt_Some _ _ _ He)).
          injection Hn as <-. exists e. auto.
        - rewrite list_lookup_insert_ne in Hn by congruence. exists en. auto. }
      destruct (Hback _ _ Hj) as (ej' & Hj' & Hvj' & Hdj).
      destruct (Hback _ _ Hk) as (ek' & Hk' & Hvk' & Hdk).
      rewrite <- Hdk. rewrite <- Hdj in Ha.
      apply (Hown j k ej' ek' a); congruence.
  - rewrite (cache_get_miss c key now Hf). split; assumption.
Qed.

(** A Clear leaves no valid slot. *)
Lemma clear_slots_invalid slots :
  forall acc h,
    Forall (fun e => valid e = false) acc ->
    Forall (fun e => valid e = false)
      (fst (fold_left clear_slot slots (acc, h))).
Proof.
  induction slots as [|e slots IH]; intros acc h Hacc; simpl; [exact Hacc|].
  unfold clear_slot at 2. simpl.
  destruct (valid e) eqn:Hv.
  - destruct (irdb_free_database h (database e)) as [h' db'].
    apply IH. apply Forall_app. split; [exact Hacc|].
    repeat constructor.
  - apply IH. apply Forall_app. split; [exact Hacc|].
    repeat constructor. exact Hv.
Qed.

Lemma cache_clear_sound c : cache_sound (irdb_cache_clear c).
Proof.
  unfold irdb_cache_clear.
  pose proof (clear_slots_invalid (cache c) [] (heap c) (Forall_nil_2 _)) as H.
  destruct (fold_left clear_slot (cache c) ([], heap c)) as [slots h].
  simpl in H. split.
  - unfold cache_consistent. simpl.
    eapply Forall_impl; [exact H|]. intros e He. left. exact He.
  - intros i j ei ej a _ Hi _ Hvi. simpl in Hi.
    pose proof (proj1 (Forall_lookup _ _) H _ _ Hi) as Hinv. simpl in Hinv.
    congruence.
Qed.

(** A Put whose allocation succeeds keeps the cache sound. *)
Lemma cache_put_sound c key db now a_src es :
  cache_sound c ->
  cache c <> [] -> timestamps_ok (cache c) ->
  entries db = Some a_src -> heap c !! a_src = Some es ->
  entry_count db = len es ->
  Forall (fun e => entries (database e) <> Some a_src) (cache c) ->
  cache_sound (fst (irdb_cache_put c key db true now)).
Proof.
  intros [Hcons Hown] Hne Hts Hsrc Hes Hcount Hnot.
  destruct (cache_put_stores c key db now a_src es Hne Hts Hsrc Hes Hcount Hnot)
    as (e & a & He & Hfresh & Hsrc' & ->). simpl.
  set (t := select_target (cache c) 0 0 UINT32_MAX) in *.
  pose proof (lookup_lt_Some _ _ _ He) as Hlt. clearbody t.
  assert (forall j ej b esj,
            j <> t -> cache c !! j = Some ej -> valid ej = true ->
            entries (database ej) = Some b -> heap c !! b = Some esj ->
            b <> a /\ released (heap c) e !! b = Some esj) as Hkeep.
  { intros j ej b esj Hjt Hj Hvj Hb Hlive.
    assert (released (heap c) e !! b = Some esj) as Hrel.
    { unfold released. destruct (valid e) eqn:Hve; [|exact Hlive].
      destruct (entries (database e)) as [old|] eqn:Hold; [|exact Hlive].
      rewrite lookup_delete_ne; [exact Hlive|].
      intros ->. apply (Hown t j e ej b); auto. }
    split; [|exact Hrel].
    intros ->. apply Hfresh. apply elem_of_dom. eauto. }
  split.
  - unfold cache_consistent. simpl. apply Forall_lookup. intros j ej Hj.
    destruct (decide (j = t)) as [->|Hjt].
    + rewrite list_lookup_insert_eq in Hj by exact Hlt. injection Hj as <-.
      right. split; [reflexivity|]. exists a, es. simpl.
      rewrite lookup_insert_eq. auto.
    + rewrite list_lookup_insert_ne in Hj by congruence.
      destruct (proj1 (Forall_lookup _ _) Hcons _ _ Hj)
        as [Hinv|(Hvj & b & esj & Hb & Hlive & Hcnt)]; [left; exact Hinv|].
      destruct (Hkeep j ej b esj Hjt Hj Hvj Hb Hlive) as [Hba Hrel].
      right. split; [exact Hvj|]. exists b, esj.
      rewrite lookup_insert_ne by congruence. auto.
  - intros i j ei ej b Hij Hi Hj Hvi Hvj Hb. cbn [cache] in Hi, Hj.
    destruct (decide (i = t)) as [->|Hit]; destruct (decide (j = t)) as [->|Hjt].
    + congruence.
    + rewrite list_lookup_insert_eq in Hi by exact Hlt. injection Hi as <-.
      rewrite list_lookup_insert_ne in Hj by congruence.
      simpl in Hb. injection Hb as <-.
      destruct (proj1 (Forall_lookup _ _) Hcons _ _ Hj)
        as [Hinv|(_ & b & esj & Hb & Hlive & _)]; [congruence|].
      destruct (Hkeep j ej b esj Hjt Hj Hvj Hb Hlive) as [Hba _].
      congruence.
    + rewrite list_lookup_insert_eq in Hj by exact Hlt. injection Hj as <-.
      rewrite list_lookup_insert_ne in Hi by congruence.
      simpl. intros [= <-].
      destruct (proj1 (Forall_lookup _ _) Hcons _ _ Hi)
        as [Hinv|(_ & b' & esi & Hb' & Hlive & _)]; [congruence|].
      destruct (Hkeep i ei b' esi Hit Hi Hvi Hb' Hlive) as [Hba _].
      congruence.
    + rewrite list_lookup_insert_ne in Hi by congruence.
      rewrite list_lookup_insert_ne in Hj by congruence.
      apply (Hown i j ei ej b); assumption.
Qed.

(** A Put whose allocation fails is harmless when its victim is an invalid
    slot: the slot stays invalid. *)
Lemma cache_put_failed_invalid_victim_sound c key db now e :
  cache_sound c ->
  cache c !! select_target (cache c) 0 0 UINT32_MAX = Some e ->
  valid e = false ->
  snd (irdb_cache_put c key db false now) = Err ENOMEM /\
  cache_sound (fst (irdb_cache_put c key db false now)).
Proof.
  intros [Hcons Hown] He Hv. unfold irdb_cache_put. rewrite He, Hv. simpl.
  split; [reflexivity|].
  set (t := select_target (cache c) 0 0 UINT32_MAX) in *.
  pose proof (lookup_lt_Some _ _ _ He) as Hlt. clearbody t.
  split.
  - unfold cache_consistent. simpl. apply Forall_insert; [exact Hcons|].
    left. reflexivity.
  - intros i j ei ej b Hij Hi Hj Hvi Hvj Hb. cbn [cache] in Hi, Hj.
    destruct (decide (i = t)) as [->|Hit].
    { rewrite list_lookup_insert_eq in Hi by exact Hlt. injection Hi as <-.
      discriminate. }
    destruct (decide (j = t)) as [->|Hjt].
    { rewrite list_lookup_insert_eq in Hj by exact Hlt. injection Hj as <-.
      discriminate. }
    rewrite list_lookup_insert_ne in Hi by congruence.
    rewrite list_lookup_insert_ne in Hj by congruence.
    apply (Hown i j ei ej b); assumption.
Qed.



(** *** Where a key is found *)

Lemma find_slot_first slots key :
  forall k t e,
    slots !! t = Some e -> valid e = true -> path e = key ->
    (forall j e', (j < t)%nat -> slots !! j = Some e' ->
                  valid e' && String.eqb (path e') key = false) ->
    find_slot slots key k = Some (k + t)%nat.
Proof.
  induction slots as [|s slots IH]; intros k t e Ht Hv Hp Hfirst;
    [rewrite lookup_nil in Ht; discriminate|].
  destruct t as [|t]; simpl in *.
  - injection Ht as ->. rewrite Hv, Hp, String.eqb_refl. simpl.
    f_equal. lia.
  - rewrite (Hfirst 0%nat s ltac:(lia) eq_refl).
    rewrite (IH (S k) t e Ht Hv Hp).
    + f_equal. lia.
    + intros j e' Hj He'. apply (Hfirst (S j) e'); [lia|exact He'].
Qed.

Lemma find_slot_none slots key :
  forall k,
    Forall (fun e => valid e && String.eqb (path e) key = false) slots ->
    find_slot slots key k = None.
Proof.
  induction slots as [|s slots IH]; intros k H; [reflexivity|].
  apply Forall_cons in H as [Hs H]. simpl. rewrite Hs. apply IH. exact H.
Qed.

(** *** A Put does not replace an older entry of the same key *)

Lemma find_slot_insert_after slots key x :
  forall k i t,
    find_slot slots key k = Some i -> (i - k < t)%nat ->
    find_slot (<[t := x]> slots) key k = Some i.
Proof.
  induction slots as [|s slots IH]; intros k i t Hf Hlt; [discriminate|].
  destruct t as [|t]; [lia|]. simpl in *.
  destruct (valid s && String.eqb (path s) key); [exact Hf|].
  pose proof (find_slot_from _ _ _ _ Hf) as [Hle _].
  apply IH; [exact Hf|lia].
Qed.

(** X18. A Put never looks for its key among the slots.  When the key is
    already held by a valid slot that lies before the slot the Put takes,
    the Put, whatever its outcome, leaves that slot as it is, and a Get of
    the key keeps returning it: the older database, not the one just
    put. *)
Theorem put_keeps_older_duplicate (c : cache_state) (key : string)
    (db : irdb_database_t) (alloc_ok : bool) (now now' : Z) (i : nat) :
  find_slot (cache c) (strncpy key 127) 0 = Some i ->
  (i < select_target (cache c) 0 0 UINT32_MAX)%nat ->
  let c1 := fst (irdb_cache_put c key db alloc_ok now) in
  cache c1 !! i = cache c !! i /\
  snd (irdb_cache_get c1 (strncpy key 127) now') = Ok i.
Proof.
  intros Hf Hlt. cbv zeta.
  set (t := select_target (cache c) 0 0 UINT32_MAX) in *.
  assert (exists slots,
            cache (fst (irdb_cache_put c key db alloc_ok now)) = slots /\
            (slots = cache c \/ exists x, slots = <[t := x]> (cache c)))
    as (slots & Hslots & Hcases).
  { eexists. split; [reflexivity|].
    unfold irdb_cache_put. fold t.
    destruct (cache c !! t) as [e|]; [|left; reflexivity].
    destruct (if valid e then irdb_free_database (heap c) (database e)
              else (heap c, database e)) as [h old].
    destruct alloc_ok.
    - destruct (read_entries h (entries db) (entry_count db));
        [right; eexists; reflexivity | left; reflexivity | left; reflexivity].
    - right. eexists. reflexivity. }
  assert (find_slot slots (strncpy key 127) 0 = Some i /\
          slots !! i = cache c !! i) as [Hfind Hsame].
  { destruct Hcases as [->|[x ->]]; [auto|]. split.
    - apply find_slot_insert_after; [exact Hf|lia].
    - apply list_lookup_insert_ne. lia. }
  rewrite Hslots. split; [exact Hsame|].
  unfold irdb_cache_get. rewrite Hslots, Hfind. reflexivity.
Qed.

(** One database stored under "tv", and a second one put under the same
    key. *)
Definition one_stored : cache_state := run_ops [Put "tv" tv_db true 1] loaded.

Lemma put_keeps_older_duplicate_witness :
  let c1 := fst (irdb_cache_put one_stored "tv" tv_db true 2) in
  cache c1 !! 0%nat = cache one_stored !! 0%nat /\
  snd (irdb_cache_get c1 (strncpy "tv" 127) 3) = Ok 0%nat.
Proof.
  apply (put_keeps_older_duplicate one_stored "tv" tv_db true 2 3 0%nat).
  - vm_compute. reflexivity.
  - vm_compute. lia.
Defined.

(** *** Keys longer than the path field *)

Lemma length_substring_le n :
  forall s, (String.length (substring 0 n s) <= n)%nat.
Proof.
  induction n as [|n IH]; intros [|a s]; simpl; try lia.
  specialize (IH s). lia.
Qed.

Definition paths_fit (c : cache_state) : Prop :=
  Forall (fun e => (String.length (path e) <= 127)%nat) (cache c).

Lemma clear_slots_paths (P : string -> Prop) slots :
  forall acc h,
    Forall (fun e => P (path e)) acc ->
    Forall (fun e => P (path e)) slots ->
    Forall (fun e => P (path e)) (fst (fold_left clear_slot slots (acc, h))).
Proof.
  induction slots as [|e slots IH]; intros acc h Hacc Hs; simpl; [exact Hacc|].
  apply Forall_cons in Hs as [He Hs].
  unfold clear_slot at 2. simpl.
  destruct (valid e).
  - destruct (irdb_free_database h (database e)) as [h' db'].
    apply IH; [|exact Hs]. apply Forall_app. split; [exact Hacc|].
    repeat constructor. exact He.
  - apply IH; [|exact Hs]. apply Forall_app. split; [exact Hacc|].
    repeat constructor. exact He.
Qed.

Lemma apply_op_paths_fit c op : paths_fit c -> paths_fit (apply_op c op).
Proof.
  unfold paths_fit. intros H. destruct op as [key db alloc_ok now|key now|];
    cbn [apply_op].
  - unfold irdb_cache_put.
    destruct (cache c !! select_target (cache c) 0 0 UINT32_MAX) as [e|];
      [|exact H].
    destruct (if valid e then irdb_free_database (heap c) (database e)
              else (heap c, database e)) as [h old].
    destruct alloc_ok.
    + destruct (read_entries h (entries db) (entry_count db)); cbn [fst cache];
        [|exact H|exact H].
      apply Forall_insert; [exact H|]. apply length_substring_le.
    + cbn [fst cache]. apply Forall_insert; [exact H|].
      apply length_substring_le.
  - unfold irdb_cache_get.
    destruct (find_slot (cache c) key 0) as [i|]; [|exact H].
    cbn [fst cache]. apply Forall_alter; [exact H|].
    intros e _ He. exact He.
  - unfold irdb_cache_clear.
    pose proof (clear_slots_paths (fun p => (String.length p <= 127)%nat)
                  (cache c) [] (heap c) (Forall_nil_2 _) H) as Hc.
    destruct (fold_left clear_slot (cache c) ([], heap c)) as [slots h].
    exact Hc.
Qed.

(** X20. The key of a Put is cut at 127 characters, that of a Get is not:
    whatever has been done to the cache since start-up, a Get with a key
    longer than 127 characters misses.  A database put under such a key
    cannot be got back under it. *)
Theorem long_key_never_found (ops : list cache_op)
    (h : gmap address (list Protocol.irdb_entry_t)) (key : string) (now : Z) :
  (127 < String.length key)%nat ->
  let c := run_ops ops {| cache := cache empty_cache; heap := h |} in
  irdb_cache_get c key now = (c, Err ENOENT).
Proof.
  intros Hlong. cbv zeta.
  set (c0 := {| cache := cache empty_cache; heap := h |}).
  assert (paths_fit (run_ops ops c0)) as Hfit.
  { assert (paths_fit c0) as H0.
    { unfold paths_fit. cbn. slots_forall ltac:(simpl; lia). }
    clearbody c0. revert c0 H0.
    induction ops as [|op ops IH]; intros c0 H0; [exact H0|].
    apply (IH (apply_op c0 op)). apply apply_op_paths_fit. exact H0. }
  apply cache_get_miss. apply find_slot_none.
  eapply Forall_impl; [exact Hfit|]. intros e He. simpl in He.
  destruct (String.eqb_spec (path e) key) as [Heq|_];
    [|apply andb_false_r].
  rewrite Heq in He. lia.
Qed.

Definition long_key : string :=
  "Samsung/TV/7,7/0123456789012345678901234567890123456789012345678901234567890123456789012345678901234567890123456789012345678901234567890.csv".

Lemma long_key_never_found_witness :
  let c := run_ops [Put long_key tv_db true 1]
             {| cache := cache empty_cache; heap := heap loaded |} in
  irdb_cache_get c long_key 2 = (c, Err ENOENT).
Proof.
  apply (long_key_never_found [Put long_key tv_db true 1] (heap loaded)
           long_key 2).
  vm_compute. lia.
Defined.

End Cache.

(** ** irdb_loader.c and irdb_protocol.c: the cache and its two allocators

    [irdb_cache_put] takes the block of a slot from [k_malloc], the heap of
    the kernel, and both [irdb_cache_put] and [irdb_cache_clear] release it
    through [irdb_free_database], which calls [free], the C library's.  The
    module [Cache] above has one heap and lets every release succeed; this
    module records, for every block, the allocator it came from.  [free] is
    defined for a live block of the C library's heap only, so that releasing
    a block of the kernel's is a [Fault].  The records of the slots, the
    lookup loop and the victim search are those of [Cache]. *)

Module CacheHeap.

Import Cache.

Inductive allocator : Type :=
| kernel
| libc.

Record block : Type := {
  origin : allocator;
  contents : list Protocol.irdb_entry_t
}.

(** The static [cache] array and the blocks that are live. *)
Record memory : Type := {
  slots : list irdb_cache_entry_t;
  blocks : gmap address block
}.

(** [free] of the C library. *)
Definition free (h : gmap address block) (a : address)
    : result (gmap address block) :=
  match h !! a with
  | Some b =>
      match origin b with
      | libc => Ok (delete a h)
      | kernel => Fault InvalidFree
      end
  | None => Fault InvalidFree
  end.

(** [irdb_free_database]: frees and zeroes, but only a database that has
    entries. *)
Definition irdb_free_database (h : gmap address block) (db : irdb_database_t)
    : result (gmap address block * irdb_database_t) :=
  match entries db with
  | Some a => let* h' := free h a in Ok (h', zero_database)
  | None => Ok (h, db)
  end.

(** [irdb_cache_get]; [now] is what [k_uptime_get_32] returns.  The result
    is the slot whose database [*db_out] points to. *)
Definition irdb_cache_get (m : memory) (key : string) (now : Z)
    : memory * result nat :=
  match find_slot (slots m) key 0 with
  | Some i =>
      ({| slots := alter (fun e => touch e now) i (slots m);
          blocks := blocks m |}, Ok i)
  | None => (m, Err ENOENT)
  end.

(** [irdb_cache_put]; [alloc_ok] tells whether [k_malloc] succeeds and [now]
    is what [k_uptime_get_32] returns.  The block it allocates is the
    kernel's. *)
Definition irdb_cache_put (m : memory) (key : string) (db : irdb_database_t)
    (alloc_ok : bool) (now : Z) : memory * result unit :=
  let target_idx := select_target (slots m) 0 0 UINT32_MAX in
  match slots m !! target_idx with
  | None => (m, Fault OutOfBounds)
  | Some e =>
      match (if valid e then irdb_free_database (blocks m) (database e)
             else Ok (blocks m, database e)) with
      | Ok (h, old) =>
          let key' := strncpy key 127 in
          if alloc_ok then
            let a := fresh (dom h) in
            match read_entries (contents <$> h) (entries db) (entry_count db)
            with
            | Ok copied =>
                let e' :=
                  {| path := key';
                     database :=
                       {| manufacturer := strncpy (manufacturer db) 63;
                          device_type := strncpy (device_type db) 63;
                          entries := Some a;
                          entry_count := entry_count db |};
                     last_access := now;
                     valid := true |} in
                ({| slots := <[target_idx := e']> (slots m);
                    blocks :=
                      <[a := {| origin := kernel; contents := copied |}]> h |},
                 Ok tt)
            | Err err => (m, Err err)
            | Fault u => (m, Fault u)
            end
          else
            let e' :=
              {| path := key';
                 database :=
                   {| manufacturer := manufacturer old;
                      device_type := device_type old;
                      entries := None;
                      entry_count := entry_count db |};
                 last_access := last_access e;
                 valid := valid e |} in
            ({| slots := <[target_idx := e']> (slots m); blocks := h |},
             Err ENOMEM)
      | Err err => (m, Err err)
      | Fault u => (m, Fault u)
      end
  end.

(** One iteration of [irdb_cache_clear]. *)
Definition clear_slot
    (acc : result (list irdb_cache_entry_t * gmap address block))
    (e : irdb_cache_entry_t)
    : result (list irdb_cache_entry_t * gmap address block) :=
  let* st := acc in
  if valid e then
    let* freed := irdb_free_database (snd st) (database e) in
    Ok (fst st ++ [{| path := path e; database := snd freed;
                      last_access := last_access e; valid := false |}],
        fst freed)
  else Ok (fst st ++ [e], snd st).

(** [irdb_cache_clear] returns nothing; the result tells whether the call
    is defined. *)
Definition irdb_cache_clear (m : memory) : memory * result unit :=
  match fold_left clear_slot (slots m) (Ok ([], blocks m)) with
  | Ok (cleared, h) => ({| slots := cleared; blocks := h |}, Ok tt)
  | Err err => (m, Err err)
  | Fault u => (m, Fault u)
  end.

(** *** Sequences of cache operations *)

(** The state a call leaves, when the call is defined; an error code is a
    return like any other. *)
Definition returned {A : Type} (r : memory * result A) : result memory :=
  match snd r with
  | Fault u => Fault u
  | _ => Ok (fst r)
  end.

Definition apply_op (m : memory) (op : cache_op) : result memory :=
  match op with
  | Put key db alloc_ok now => returned (irdb_cache_put m key db alloc_ok now)
  | Get key now => returned (irdb_cache_get m key now)
  | Clear => returned (irdb_cache_clear m)
  end.

Fixpoint run_ops (ops : list cache_op) (m : memory) : result memory :=
  match ops with
  | [] => Ok m
  | op :: rest => let* m' := apply_op m op in run_ops rest m'
  end.

(** The cache at start-up, beside the blocks [A] of the callers. *)
Definition start_up (A : gmap address block) : memory :=
  {| slots := cache empty_cache; blocks := A |}.

Definition completes (ops : list cache_op) (m : memory) : bool :=
  match run_ops ops m with
  | Ok _ => true
  | _ => false
  end.

Definition state_after (ops : list cache_op) (m : memory) : memory :=
  match run_ops ops m with
  | Ok m' => m'
  | _ => m
  end.

(** A database parsed by [irdb_parse_csv], whose block [realloc] returned,
    held by the caller at address 100. *)
Definition parsed : gmap address block :=
  {[ 100%nat := {| origin := libc; contents := [Protocol.power] |} ]}.

(** Four databases stored, at four different times. *)
Definition full : memory :=
  state_after [Put "a" tv_db true 1; Put "b" tv_db true 2;
               Put "c" tv_db true 3; Put "d" tv_db true 4] (start_up parsed).

Lemma state_after_ok ops m :
  completes ops m = true -> run_ops ops m = Ok (state_after ops m).
Proof.
  unfold completes, state_after.
  destruct (run_ops ops m); [reflexivity|discriminate|discriminate].
Qed.

Lemma full_slots :
  slots full =
  [warm_slot "a" 101%nat 1; warm_slot "b" 102%nat 2;
   warm_slot "c" 103%nat 3; warm_slot "d" 104%nat 4].
Proof. vm_compute. reflexivity. Qed.

(** *** What a release does *)

(** Every valid slot points to a live block of the kernel's. *)
Definition kernel_owned (m : memory) : Prop :=
  forall i e, slots m !! i = Some e -> valid e = true ->
    exists a b, entries (database e) = Some a /\ blocks m !! a = Some b /\
                origin b = kernel.

Lemma free_kernel_block h a b :
  h !! a = Some b -> origin b = kernel -> free h a = Fault InvalidFree.
Proof. intros Ha Hk. unfold free. rewrite Ha, Hk. reflexivity. Qed.

Lemma free_database_kernel_owned m i e :
  kernel_owned m -> slots m !! i = Some e -> valid e = true ->
  irdb_free_database (blocks m) (database e) = Fault InvalidFree.
Proof.
  intros Hk He Hv. destruct (Hk i e He Hv) as (a & b & Ha & Hb & Ho).
  unfold irdb_free_database. rewrite Ha, (free_kernel_block _ a b Hb Ho).
  reflexivity.
Qed.

(** A Put that takes a valid slot. *)
Lemma put_valid_slot m key db alloc_ok now e :
  kernel_owned m ->
  slots m !! select_target (slots m) 0 0 UINT32_MAX = Some e ->
  valid e = true ->
  irdb_cache_put m key db alloc_ok now = (m, Fault InvalidFree).
Proof.
  intros Hk He Hv. unfold irdb_cache_put.
  rewrite He, Hv, (free_database_kernel_owned m _ e Hk He Hv). reflexivity.
Qed.

(** A Put that takes an invalid slot and gets its block. *)
Lemma put_invalid_slot m key db now e a_src src :
  slots m !! select_target (slots m) 0 0 UINT32_MAX = Some e ->
  valid e = false ->
  entries db = Some a_src -> blocks m !! a_src = Some src ->
  entry_count db = len (contents src) ->
  irdb_cache_put m key db true now =
  ({| slots := <[select_target (slots m) 0 0 UINT32_MAX :=
                   stored key db (fresh (dom (blocks m))) now]> (slots m);
      blocks := <[fresh (dom (blocks m)) :=
                    {| origin := kernel; contents := contents src |}]>
                  (blocks m) |}, Ok tt).
Proof.
  intros He Hv Hsrc Hlive Hcount. unfold irdb_cache_put. rewrite He, Hv.
  unfold read_entries. rewrite Hsrc, lookup_fmap, Hlive.
  cbn [fmap option_fmap option_map].
  rewrite Hcount, Z.leb_refl. unfold len. rewrite Nat2Z.id, firstn_all.
  unfold stored. rewrite Hcount. reflexivity.
Qed.

(** A Put that takes an invalid slot and gets no block. *)
Lemma put_invalid_slot_no_memory m key db now e :
  slots m !! select_target (slots m) 0 0 UINT32_MAX = Some e ->
  valid e = false ->
  irdb_cache_put m key db false now =
  ({| slots := <[select_target (slots m) 0 0 UINT32_MAX :=
                   {| path := strncpy key 127;
                      database :=
                        {| manufacturer := manufacturer (database e);
                           device_type := device_type (database e);
                           entries := None;
                           entry_count := entry_count db |};
                      last_access := last_access e;
                      valid := false |}]> (slots m);
      blocks := blocks m |}, Err ENOMEM).
Proof.
  intros He Hv. unfold irdb_cache_put. rewrite He, Hv. reflexivity.
Qed.

Lemma clear_slots_fault rest u :
  fold_left clear_slot rest (Fault u) = Fault u.
Proof. induction rest as [|e rest IH]; [reflexivity|exact IH]. Qed.

Lemma clear_slots_kernel_owned h rest :
  forall done,
    Forall (fun e => valid e = true ->
              exists a b, entries (database e) = Some a /\ h !! a = Some b /\
                          origin b = kernel) rest ->
    fold_left clear_slot rest (Ok (done, h)) =
    if existsb valid rest then Fault InvalidFree else Ok (done ++ rest, h).
Proof.
  induction rest as [|e rest IH]; intros done Hk.
  - simpl. rewrite app_nil_r. reflexivity.
  - apply Forall_cons in Hk as [He Hk]. cbn [fold_left existsb].
    destruct (valid e) eqn:Hv.
    + destruct (He eq_refl) as (a & b & Ha & Hb & Ho).
      assert (clear_slot (Ok (done, h)) e = Fault InvalidFree) as ->.
      { unfold clear_slot, irdb_free_database. cbn [bind snd].
        rewrite Hv, Ha, (free_kernel_block _ a b Hb Ho). reflexivity. }
      apply clear_slots_fault.
    + assert (clear_slot (Ok (done, h)) e = Ok (done ++ [e], h)) as ->
        by (unfold clear_slot; cbn [bind fst snd]; rewrite Hv; reflexivity).
      rewrite (IH _ Hk), <- app_assoc. reflexivity.
Qed.

(** A Clear, where every valid slot has its block from [k_malloc]. *)
Lemma clear_kernel_owned m :
  kernel_owned m ->
  irdb_cache_clear m =
  (m, if existsb valid (slots m) then Fault InvalidFree else Ok tt).
Proof.
  intros Hk. unfold irdb_cache_clear.
  rewrite (clear_slots_kernel_owned (blocks m) (slots m) []).
  - destruct (existsb valid (slots m)); [reflexivity|].
    destruct m; reflexivity.
  - apply Forall_lookup. intros i e He Hv. apply (Hk i e He Hv).
Qed.

(** *** Every block of a slot is the kernel's *)

Lemma start_up_kernel_owned A : kernel_owned (start_up A).
Proof.
  intros i e He Hv. cbn [start_up slots] in He. unfold empty_cache in He.
  cbn [cache] in He. apply lookup_replicate in He as [-> _]. discriminate.
Qed.

Lemma apply_op_kernel_owned m op m' :
  kernel_owned m -> apply_op m op = Ok m' -> kernel_owned m'.
Proof.
  intros Hk. destruct op as [key db alloc_ok now|key now|]; cbn [apply_op].
  - set (t := select_target (slots m) 0 0 UINT32_MAX).
    destruct (slots m !! t) as [e|] eqn:He.
    2:{ unfold irdb_cache_put. fold t. rewrite He. discriminate. }
    pose proof (lookup_lt_Some _ _ _ He) as Hlt.
    destruct (valid e) eqn:Hv.
    { rewrite (put_valid_slot m key db alloc_ok now e Hk He Hv). discriminate. }
    assert (forall e',
              valid e' = false ->
              kernel_owned {| slots := <[t := e']> (slots m);
                              blocks := blocks m |}) as Hblank.
    { intros e' Hv' i ei Hi Hvi. cbn [slots blocks] in *.
      destruct (decide (i = t)) as [->|Hit].
      - rewrite list_lookup_insert_eq in Hi by exact Hlt. injection Hi as <-.
        congruence.
      - rewrite list_lookup_insert_ne in Hi by congruence.
        apply (Hk i ei Hi Hvi). }
    destruct alloc_ok.
    + unfold irdb_cache_put. fold t. rewrite He, Hv.
      destruct (read_entries (contents <$> blocks m) (entries db)
                  (entry_count db)) as [copied|err|u];
        unfold returned; cbn [fst snd]; intros [= <-]; [|exact Hk].
      intros i ei Hi Hvi. cbn [slots blocks] in *.
      destruct (decide (i = t)) as [->|Hit].
      * rewrite list_lookup_insert_eq in Hi by exact Hlt. injection Hi as <-.
        eexists _, _. split; [reflexivity|]. split; [apply lookup_insert_eq|].
        reflexivity.
      * rewrite list_lookup_insert_ne in Hi by congruence.
        destruct (Hk i ei Hi Hvi) as (a & b & Ha & Hb & Ho).
        exists a, b. split; [exact Ha|]. split; [|exact Ho].
        rewrite lookup_insert_ne; [exact Hb|].
        intros Heq. apply (is_fresh (dom (blocks m))). rewrite Heq.
        apply elem_of_dom. eauto.
    + rewrite (put_invalid_slot_no_memory m key db now e He Hv).
      unfold returned. cbn [fst snd]. intros [= <-]. apply Hblank. reflexivity.
  - unfold irdb_cache_get.
    destruct (find_slot (slots m) key 0) as [i|];
      unfold returned; cbn [fst snd]; intros [= <-]; [|exact Hk].
    intros j ej Hj Hvj. cbn [slots blocks] in *.
    destruct (decide (j = i)) as [->|Hji].
    + rewrite list_lookup_alter_eq in Hj.
      destruct (slots m !! i) as [e|] eqn:He; [|discriminate].
      injection Hj as <-. apply (Hk i e He Hvj).
    + rewrite list_lookup_alter_ne in Hj by congruence. apply (Hk j ej Hj Hvj).
  - rewrite (clear_kernel_owned m Hk).
    destruct (existsb valid (slots m)); unfold returned; cbn [fst snd];
      [discriminate|]. intros [= <-]. exact Hk.
Qed.

Lemma run_ops_kernel_owned ops :
  forall m m', kernel_owned m -> run_ops ops m = Ok m' -> kernel_owned m'.
Proof.
  induction ops as [|op ops IH]; intros m m' Hk; cbn [run_ops].
  - intros [= <-]. exact Hk.
  - destruct (apply_op m op) as [m1|err|u] eqn:Hop; cbn [bind];
      [|discriminate|discriminate].
    apply IH. apply (apply_op_kernel_owned m op m1 Hk Hop).
Qed.

(** *** Which slot a Put takes, and what a Get does to it *)

Lemma get_hit m key now i :
  find_slot (slots m) key 0 = Some i ->
  exists e,
    slots m !! i = Some e /\ valid e = true /\ path e = key /\
    irdb_cache_get m key now =
    ({| slots := <[i := touch e now]> (slots m); blocks := blocks m |}, Ok i).
Proof.
  intros Hf. destruct (find_slot_from _ _ _ _ Hf) as (_ & e & He & Hv & Hp & _).
  rewrite Nat.sub_0_r in He. exists e. repeat split; try assumption.
  unfold irdb_cache_get. rewrite Hf. f_equal. f_equal.
  apply list_eq. intros j. destruct (decide (j = i)) as [->|Hne].
  - rewrite list_lookup_alter_eq, He.
    rewrite list_lookup_insert_eq by (apply (lookup_lt_Some _ _ _ He)).
    reflexivity.
  - rewrite list_lookup_alter_ne by congruence.
    rewrite list_lookup_insert_ne by congruence. reflexivity.
Qed.

(** The slot that was stamped last is not the next one taken, as long as
    some other slot is free or was last used strictly earlier. *)
Lemma stamped_slot_kept l now i e j ej :
  timestamps_ok l -> 0 <= now <= UINT32_MAX ->
  l !! i = Some e -> valid e = true ->
  j <> i -> l !! j = Some ej ->
  valid ej = false \/ last_access ej < now ->
  select_target (<[i := touch e now]> l) 0 0 UINT32_MAX <> i.
Proof.
  intros Hts Hnow He Hv Hne Hj Hother.
  set (l' := <[i := touch e now]> l).
  assert (l' !! i = Some (touch e now)) as Hi
    by (apply list_lookup_insert_eq, (lookup_lt_Some _ _ _ He)).
  assert (l' !! j = Some ej) as Hj'
    by (subst l'; rewrite list_lookup_insert_ne by congruence; exact Hj).
  assert (timestamps_ok l') as Hts'.
  { apply Forall_insert; [exact Hts|]. simpl. exact Hnow. }
  assert (l' <> []) as Hnil by (intros E; rewrite E in Hi; discriminate).
  pose proof (select_target_spec l' Hnil Hts') as Ht.
  intros Heq. rewrite Heq in Ht.
  destruct Ht as [(e' & He' & Hv' & _)|(Hall & e' & He' & Hmin & _)].
  - rewrite Hi in He'. injection He' as <-. simpl in Hv'. congruence.
  - rewrite Hi in He'. injection He' as <-. simpl in Hmin.
    pose proof (proj1 (Forall_lookup _ _) Hall _ _ Hj') as Hvj. simpl in Hvj.
    specialize (Hmin _ _ Hj'). destruct Hother; [congruence|lia].
Qed.

(** C8. A Put takes the first invalid slot, or else the slot with the
    smallest timestamp, the lowest index among equals.  When the slot it
    takes is invalid and the allocation succeeds, it copies the entries into
    a block of its own and the labels into the slot, and marks the slot
    valid with the current time.  A Get that hits stamps the slot with the
    current time, after which the next Put takes another slot provided one
    is free or was last used strictly earlier. *)
Theorem cache_put_get_lru (m : memory) (key : string) (db : irdb_database_t)
    (now : Z) (a_src : address) (src : block) :
  slots m <> [] ->
  timestamps_ok (slots m) ->
  0 <= now <= UINT32_MAX ->
  entries db = Some a_src ->
  blocks m !! a_src = Some src ->
  entry_count db = len (contents src) ->
  let t := select_target (slots m) 0 0 UINT32_MAX in
  eviction_target (slots m) t
  /\ (first_invalid (slots m) t ->
      exists a,
        (a ∉ dom (blocks m)) /\
        irdb_cache_put m key db true now =
        ({| slots := <[t := stored key db a now]> (slots m);
            blocks := <[a := {| origin := kernel; contents := contents src |}]>
                        (blocks m) |}, Ok tt))
  /\ (forall i,
        find_slot (slots m) key 0 = Some i ->
        exists e,
          slots m !! i = Some e /\ valid e = true /\ path e = key /\
          irdb_cache_get m key now =
          ({| slots := <[i := touch e now]> (slots m); blocks := blocks m |},
           Ok i) /\
          forall j ej,
            j <> i -> slots m !! j = Some ej ->
            valid ej = false \/ last_access ej < now ->
            select_target (slots (fst (irdb_cache_get m key now))) 0 0 UINT32_MAX
            <> i).
Proof.
  intros Hne Hts Hnow Hsrc Hlive Hcount t. split; [|split].
  - apply select_target_spec; assumption.
  - intros (e & He & Hv & _). exists (fresh (dom (blocks m))).
    split; [apply is_fresh|].
    apply (put_invalid_slot m key db now e a_src src); assumption.
  - intros i Hf.
    destruct (get_hit m key now i Hf) as (e & He & Hv & Hp & Hget).
    exists e. split; [exact He|]. split; [exact Hv|]. split; [exact Hp|].
    split; [exact Hget|].
    intros j ej Hji Hj Hother. rewrite Hget. cbn [fst slots].
    apply (stamped_slot_kept (slots m) now i e j ej); assumption.
Qed.

(** Three databases stored, the fourth slot free. *)
Definition three_stored : memory :=
  state_after [Put "a" tv_db true 1; Put "b" tv_db true 2;
               Put "c" tv_db true 3] (start_up parsed).

Lemma three_stored_slots :
  slots three_stored =
  [warm_slot "a" 101%nat 1; warm_slot "b" 102%nat 2;
   warm_slot "c" 103%nat 3; zero_entry].
Proof. vm_compute. reflexivity. Qed.

Lemma cache_put_get_lru_witness :
  eviction_target (slots three_stored)
    (select_target (slots three_stored) 0 0 UINT32_MAX)
  /\ select_target (slots three_stored) 0 0 UINT32_MAX = 3%nat
  /\ snd (irdb_cache_put three_stored "d" tv_db true 4) = Ok tt
  /\ select_target (slots (fst (irdb_cache_get full "a" 9))) 0 0 UINT32_MAX
     = 1%nat.
Proof.
  destruct (cache_put_get_lru three_stored "d" tv_db 4 100%nat
              {| origin := libc; contents := [Protocol.power] |})
    as (Htarget & Hput & _).
  - rewrite three_stored_slots. discriminate.
  - unfold timestamps_ok. rewrite three_stored_slots.
    slots_forall ltac:(simpl; unfold UINT32_MAX; lia).
  - unfold UINT32_MAX. lia.
  - reflexivity.
  - vm_compute; reflexivity.
  - reflexivity.
  - split; [exact Htarget|]. split; [reflexivity|]. split; [|reflexivity].
    destruct Hput as (a & _ & ->); [|reflexivity].
    rewrite three_stored_slots.
    change (select_target _ 0 0 UINT32_MAX) with 3%nat.
    exists zero_entry. split; [reflexivity|]. split; [reflexivity|].
    intros [|[|[|j]]] e' Hj He'; try lia; injection He' as <-; reflexivity.
Defined.

(** Four databases stored within one millisecond of [k_uptime_get_32]. *)
Definition same_tick : memory :=
  state_after [Put "a" tv_db true 7; Put "b" tv_db true 7;
               Put "c" tv_db true 7; Put "d" tv_db true 7] (start_up parsed).

(** C8, where a re-Get does not protect: every slot is valid and every
    timestamp is 7; the key of slot 0 is looked up again in the same
    millisecond, the tie goes to slot 0, and the next Put takes the slot of
    the key that was just looked up again. *)
Lemma reget_evicted_on_tie :
  forallb valid (slots same_tick) = true /\
  path <$> slots same_tick !! 0%nat = Some "a"%string /\
  snd (irdb_cache_get same_tick "a" 7) = Ok 0%nat /\
  select_target (slots (fst (irdb_cache_get same_tick "a" 7)))
    0 0 UINT32_MAX = 0%nat.
Proof. vm_compute. repeat split; reflexivity. Qed.

(** *** Put, then Get *)

(** X17. What a Put stores into a free slot is what the next Get of the
    same key finds: the Put succeeds, and the Get returns the slot the Put
    has written, whose database points to a block of the kernel's, not the
    caller's, holding the caller's entries, with the names cut at 63
    characters; provided no slot before it holds the key already.  The key
    as stored is cut at 127 characters. *)
Theorem put_then_get (m : memory) (key : string) (db : irdb_database_t)
    (now now' : Z) (a_src : address) (src : block) :
  entries db = Some a_src ->
  blocks m !! a_src = Some src ->
  entry_count db = len (contents src) ->
  let t := select_target (slots m) 0 0 UINT32_MAX in
  first_invalid (slots m) t ->
  (forall j e', (j < t)%nat -> slots m !! j = Some e' ->
                String.eqb (path e') (strncpy key 127) = false) ->
  let m1 := fst (irdb_cache_put m key db true now) in
  let m2 := fst (irdb_cache_get m1 (strncpy key 127) now') in
  snd (irdb_cache_put m key db true now) = Ok tt /\
  snd (irdb_cache_get m1 (strncpy key 127) now') = Ok t /\
  exists e a,
    slots m2 !! t = Some e /\
    last_access e = now' /\
    manufacturer (database e) = strncpy (manufacturer db) 63 /\
    device_type (database e) = strncpy (device_type db) 63 /\
    entry_count (database e) = len (contents src) /\
    entries (database e) = Some a /\
    a <> a_src /\
    blocks m2 !! a = Some {| origin := kernel; contents := contents src |} /\
    blocks m2 !! a_src = Some src.
Proof.
  intros Hsrc Hlive Hcount t (e & He & Hv & _) Hfirst. cbv zeta.
  rewrite (put_invalid_slot m key db now e a_src src He Hv Hsrc Hlive Hcount).
  fold t. cbn [fst snd]. split; [reflexivity|].
  set (a := fresh (dom (blocks m))).
  assert (a <> a_src) as Hneq.
  { intros Heq. apply (is_fresh (dom (blocks m))). fold a. rewrite Heq.
    apply elem_of_dom. eauto. }
  pose proof (lookup_lt_Some _ _ _ He) as Hlt.
  set (m1 := {| slots := <[t := stored key db a now]> (slots m);
                blocks := <[a := {| origin := kernel;
                                    contents := contents src |}]> (blocks m) |}).
  assert (find_slot (slots m1) (strncpy key 127) 0 = Some t) as Hfind.
  { apply (find_slot_first (slots m1) (strncpy key 127) 0%nat t
             (stored key db a now)).
    - cbn [m1 slots]. apply list_lookup_insert_eq. exact Hlt.
    - reflexivity.
    - reflexivity.
    - intros j e' Hj He'. cbn [m1 slots] in He'.
      rewrite list_lookup_insert_ne in He' by lia.
      rewrite (Hfirst j e' Hj He'). apply andb_false_r. }
  destruct (get_hit m1 (strncpy key 127) now' t Hfind)
    as (e1 & He1 & _ & _ & ->).
  cbn [m1 slots] in He1. rewrite list_lookup_insert_eq in He1 by exact Hlt.
  injection He1 as <-. cbn [fst snd].
  split; [reflexivity|].
  exists (touch (stored key db a now) now'), a.
  cbn [slots blocks m1].
  split.
  { apply list_lookup_insert_eq. rewrite length_insert. exact Hlt. }
  split; [reflexivity|]. split; [reflexivity|]. split; [reflexivity|].
  split; [exact Hcount|]. split; [reflexivity|]. split; [exact Hneq|].
  split; [apply lookup_insert_eq|].
  rewrite lookup_insert_ne by congruence. exact Hlive.
Qed.

Lemma put_then_get_witness :
  snd (irdb_cache_put three_stored "d" tv_db true 4) = Ok tt /\
  snd (irdb_cache_get (fst (irdb_cache_put three_stored "d" tv_db true 4))
         (strncpy "d" 127) 5) = Ok 3%nat.
Proof.
  destruct (put_then_get three_stored "d" tv_db 4 5 100%nat
              {| origin := libc; contents := [Protocol.power] |})
    as (Hput & Hget & _).
  - reflexivity.
  - vm_compute; reflexivity.
  - reflexivity.
  - rewrite three_stored_slots.
    change (select_target _ 0 0 UINT32_MAX) with 3%nat.
    exists zero_entry. split; [reflexivity|]. split; [reflexivity|].
    intros [|[|[|j]]] e' Hj He'; try lia; injection He' as <-; reflexivity.
  - rewrite three_stored_slots.
    change (select_target _ 0 0 UINT32_MAX) with 3%nat.
    intros [|[|[|j]]] e' Hj He'; try lia; injection He' as <-; reflexivity.
  - split; [exact Hput|exact Hget].
Defined.

(** *** Releasing a cached database *)

(** X19. The block of a valid slot comes from [k_malloc], and what releases
    it is [free]: in every state the cache reaches from start-up, a Put that
    takes a valid slot is undefined, whatever its arguments, and a Clear is
    undefined as soon as one slot is valid and changes nothing otherwise.
    No database that the cache holds is ever released by a defined call. *)
Theorem release_undefined (A : gmap address block) (ops : list cache_op)
    (m : memory) :
  run_ops ops (start_up A) = Ok m ->
  (forall key db alloc_ok now e,
     slots m !! select_target (slots m) 0 0 UINT32_MAX = Some e ->
     valid e = true ->
     irdb_cache_put m key db alloc_ok now = (m, Fault InvalidFree))
  /\ irdb_cache_clear m =
     (m, if existsb valid (slots m) then Fault InvalidFree else Ok tt).
Proof.
  intros Hrun.
  pose proof (run_ops_kernel_owned ops _ _ (start_up_kernel_owned A) Hrun)
    as Hk.
  split.
  - intros key db alloc_ok now e He Hv.
    apply (put_valid_slot m _ _ _ _ e); assumption.
  - apply clear_kernel_owned. exact Hk.
Qed.

Lemma release_undefined_witness :
  irdb_cache_put full "e" tv_db true 5 = (full, Fault InvalidFree) /\
  irdb_cache_clear full = (full, Fault InvalidFree).
Proof.
  destruct (release_undefined parsed
              [Put "a" tv_db true 1; Put "b" tv_db true 2;
               Put "c" tv_db true 3; Put "d" tv_db true 4] full)
    as (Hput & Hclear).
  - apply state_after_ok. vm_compute. reflexivity.
  - split.
    + apply (Hput "e"%string tv_db true 5 (warm_slot "a" 101%nat 1)).
      * rewrite full_slots. reflexivity.
      * reflexivity.
    + rewrite Hclear, full_slots. reflexivity.
Defined.

(** *** The cache and the heaps *)

(** A list of slots owns the block at [a] when one of them points to it. *)
Definition owner (l : list irdb_cache_entry_t) (a : address) : Prop :=
  exists i e, l !! i = Some e /\ entries (database e) = Some a.

(** The callers' blocks [A] are live and unchanged; every slot that points
    to a block is valid, the block is live, is the kernel's, holds as many
    entries as the slot says and is none of the callers'; no two slots point
    to the same block; and no block is live besides these. *)
Definition memory_safe (A : gmap address block) (m : memory) : Prop :=
  (forall a b, A !! a = Some b -> blocks m !! a = Some b) /\
  (forall i e a,
     slots m !! i = Some e -> entries (database e) = Some a ->
     valid e = true /\ A !! a = None /\
     exists b, blocks m !! a = Some b /\ origin b = kernel /\
               entry_count (database e) = len (contents b)) /\
  (forall i j ei ej a,
     i <> j -> slots m !! i = Some ei -> slots m !! j = Some ej ->
     entries (database ei) = Some a -> entries (database ej) <> Some a) /\
  (forall a, is_Some (blocks m !! a) -> is_Some (A !! a) \/ owner (slots m) a).

Section SlotUpdate.

Variable A : gmap address block.
Variable m : memory.
Variable t : nat.
Variable e : irdb_cache_entry_t.

Hypothesis safe : memory_safe A m.
Hypothesis slot : slots m !! t = Some e.
Hypothesis blank : entries (database e) = None.

Lemma owner_elsewhere a :
  owner (slots m) a ->
  exists i ei, i <> t /\ slots m !! i = Some ei /\ entries (database ei) = Some a.
Proof.
  intros (i & ei & Hei & Ha). exists i, ei. split; [|auto].
  intros ->. rewrite slot in Hei. injection Hei as <-. congruence.
Qed.

(** The slot is rewritten and still points to no block. *)
Lemma rewrite_slot_safe e' :
  entries (database e') = None ->
  memory_safe A {| slots := <[t := e']> (slots m); blocks := blocks m |}.
Proof.
  intros Hnone. pose proof safe as (Hcall & Hown & Honce & Hleak).
  pose proof (lookup_lt_Some _ _ _ slot) as Hlt.
  split; [|split; [|split]]; cbn [slots blocks].
  - exact Hcall.
  - intros i ei a Hei Ha. destruct (decide (i = t)) as [->|Hit].
    + rewrite list_lookup_insert_eq in Hei by exact Hlt. injection Hei as <-.
      congruence.
    + rewrite list_lookup_insert_ne in Hei by congruence.
      apply (Hown i ei a Hei Ha).
  - intros i j ei ej a Hij Hei Hej Ha.
    destruct (decide (i = t)) as [->|Hit].
    { rewrite list_lookup_insert_eq in Hei by exact Hlt. injection Hei as <-.
      congruence. }
    destruct (decide (j = t)) as [->|Hjt].
    { rewrite list_lookup_insert_eq in Hej by exact Hlt. injection Hej as <-.
      congruence. }
    rewrite list_lookup_insert_ne in Hei by congruence.
    rewrite list_lookup_insert_ne in Hej by congruence.
    apply (Honce i j ei ej a Hij Hei Hej Ha).
  - intros a Hlive. destruct (Hleak a Hlive) as [Hc|Ho]; [left; exact Hc|].
    destruct (owner_elsewhere a Ho) as (i & ei & Hit & Hei & Ha).
    right. exists i, ei. split; [|exact Ha].
    rewrite list_lookup_insert_ne by congruence. exact Hei.
Qed.

(** The slot takes a block that was not live. *)
Lemma fill_slot_safe e' a es :
  entries (database e') = Some a -> valid e' = true ->
  entry_count (database e') = len es ->
  blocks m !! a = None ->
  memory_safe A
    {| slots := <[t := e']> (slots m);
       blocks := <[a := {| origin := kernel; contents := es |}]> (blocks m) |}.
Proof.
  intros Ha' Hv' Hcount Hfresh.
  pose proof safe as (Hcall & Hown & Honce & Hleak).
  pose proof (lookup_lt_Some _ _ _ slot) as Hlt.
  assert (forall i ei b, slots m !! i = Some ei ->
                         entries (database ei) = Some b -> b <> a) as Hother.
  { intros i ei b Hei Hb ->.
    destruct (Hown i ei a Hei Hb) as (_ & _ & b' & Hb' & _). congruence. }
  split; [|split; [|split]]; cbn [slots blocks].
  - intros b bl Hb. rewrite lookup_insert_ne; [apply Hcall; exact Hb|].
    intros <-. rewrite (Hcall a bl Hb) in Hfresh. discriminate.
  - intros i ei b Hei Hb. destruct (decide (i = t)) as [->|Hit].
    + rewrite list_lookup_insert_eq in Hei by exact Hlt. injection Hei as <-.
      rewrite Ha' in Hb. injection Hb as <-.
      split; [exact Hv'|]. split.
      * destruct (A !! a) as [bl|] eqn:HA; [|reflexivity].
        rewrite (Hcall a bl HA) in Hfresh. discriminate.
      * eexists. split; [apply lookup_insert_eq|]. split; [reflexivity|].
        exact Hcount.
    + rewrite list_lookup_insert_ne in Hei by congruence.
      rewrite lookup_insert_ne by (apply not_eq_sym, (Hother i ei b Hei Hb)).
      apply (Hown i ei b Hei Hb).
  - intros i j ei ej b Hij Hei Hej Hb.
    destruct (decide (i = t)) as [->|Hit].
    { rewrite list_lookup_insert_eq in Hei by exact Hlt. injection Hei as <-.
      rewrite list_lookup_insert_ne in Hej by congruence.
      rewrite Ha' in Hb. injection Hb as <-.
      intros Hej'. apply (Hother j ej a Hej Hej'). reflexivity. }
    rewrite list_lookup_insert_ne in Hei by congruence.
    destruct (decide (j = t)) as [->|Hjt].
    { rewrite list_lookup_insert_eq in Hej by exact Hlt. injection Hej as <-.
      rewrite Ha'. intros [= <-]. apply (Hother i ei a Hei Hb).
      reflexivity. }
    rewrite list_lookup_insert_ne in Hej by congruence.
    apply (Honce i j ei ej b Hij Hei Hej Hb).
  - intros b Hlive. destruct (decide (b = a)) as [->|Hba].
    + right. exists t, e'. split; [|exact Ha'].
      apply list_lookup_insert_eq. exact Hlt.
    + rewrite lookup_insert_ne in Hlive by congruence.
      destruct (Hleak b Hlive) as [Hc|Ho]; [left; exact Hc|].
      destruct (owner_elsewhere b Ho) as (i & ei & Hit & Hei & Hb).
      right. exists i, ei. split; [|exact Hb].
      rewrite list_lookup_insert_ne by congruence. exact Hei.
Qed.

End SlotUpdate.

Lemma get_safe A m key now :
  memory_safe A m -> memory_safe A (fst (irdb_cache_get m key now)).
Proof.
  intros Hsafe. pose proof Hsafe as (Hcall & Hown & Honce & Hleak).
  unfold irdb_cache_get.
  destruct (find_slot (slots m) key 0) as [i|]; [|exact Hsafe]. cbn [fst].
  assert (forall j e', alter (fun e => touch e now) i (slots m) !! j = Some e' ->
            exists e, slots m !! j = Some e /\ database e' = database e /\
                      valid e' = valid e) as Hsame.
  { intros j e' Hj. destruct (decide (j = i)) as [->|Hji].
    - rewrite list_lookup_alter_eq in Hj.
      destruct (slots m !! i) as [e|]; [|discriminate].
      injection Hj as <-. exists e. auto.
    - rewrite list_lookup_alter_ne in Hj by congruence. exists e'. auto. }
  split; [|split; [|split]]; cbn [slots blocks].
  - exact Hcall.
  - intros j e' a Hj Ha. destruct (Hsame j e' Hj) as (e & He & Hdb & Hv).
    rewrite Hdb in *. rewrite Hv. apply (Hown j e a He Ha).
  - intros j k ej ek a Hjk Hj Hk Ha.
    destruct (Hsame j ej Hj) as (e1 & He1 & Hdb1 & _).
    destruct (Hsame k ek Hk) as (e2 & He2 & Hdb2 & _).
    rewrite Hdb1 in *. rewrite Hdb2. apply (Honce j k e1 e2 a Hjk He1 He2 Ha).
  - intros a Hlive. destruct (Hleak a Hlive) as [Hc|(j & e & He & Ha)];
      [left; exact Hc|].
    right. destruct (decide (j = i)) as [->|Hji].
    + exists i, (touch e now). split; [|exact Ha].
      rewrite list_lookup_alter_eq, He. reflexivity.
    + exists j, e. split; [|exact Ha].
      rewrite list_lookup_alter_ne by congruence. exact He.
Qed.

(** The victim search stays within the array. *)
Lemma select_target_bound l :
  forall i target_idx oldest_time,
    select_target l i target_idx oldest_time = target_idx \/
    (i <= select_target l i target_idx oldest_time < i + length l)%nat.
Proof.
  induction l as [|e l IH]; intros i t o; cbn [select_target length].
  - left. reflexivity.
  - destruct (negb (valid e)); [right; lia|].
    destruct (last_access e <? o).
    + destruct (IH (S i) i (last_access e)) as [->|H]; right; lia.
    + destruct (IH (S i) t o) as [->|H]; [left; reflexivity|right; lia].
Qed.

Lemma select_target_in_range l :
  l <> [] -> (select_target l 0 0 UINT32_MAX < length l)%nat.
Proof.
  intros Hne. destruct (select_target_bound l 0 0 UINT32_MAX) as [->|H];
    [|lia].
  destruct l; [contradiction|simpl; lia].
Qed.

(** A Put reads a database of the caller's. *)
Definition op_ok (A : gmap address block) (op : cache_op) : Prop :=
  match op with
  | Put _ db _ _ =>
      exists a b,
        entries db = Some a /\ A !! a = Some b /\
        entry_count db = len (contents b)
  | Get _ _ | Clear => True
  end.

Lemma apply_op_safe A m op :
  memory_safe A m -> kernel_owned m -> slots m <> [] -> op_ok A op ->
  match apply_op m op with
  | Ok m' => memory_safe A m' /\ slots m' <> []
  | Err _ => False
  | Fault u => u = InvalidFree
  end.
Proof.
  intros Hsafe Hk Hne Hop.
  destruct op as [key db alloc_ok now|key now|]; cbn [apply_op].
  - destruct Hop as (a_src & src & Hsrc & HA & Hcount).
    pose proof (select_target_in_range _ Hne) as Hlt.
    destruct (lookup_lt_is_Some_2 _ _ Hlt) as [e He].
    assert (forall x, <[select_target (slots m) 0 0 UINT32_MAX := x]> (slots m)
                      <> []) as Hne'.
    { intros x E. apply (f_equal length) in E. rewrite length_insert in E.
      simpl in E. lia. }
    destruct (valid e) eqn:Hv.
    { rewrite (put_valid_slot m key db alloc_ok now e Hk He Hv). reflexivity. }
    assert (entries (database e) = None) as Hblank.
    { destruct (entries (database e)) as [a|] eqn:Ha; [|reflexivity].
      destruct Hsafe as (_ & Hown & _). destruct (Hown _ e a He Ha) as [Hve _].
      congruence. }
    destruct alloc_ok.
    + rewrite (put_invalid_slot m key db now e a_src src He Hv Hsrc
                 (proj1 Hsafe a_src src HA) Hcount).
      unfold returned. cbn [fst snd]. split; [|apply Hne'].
      apply (fill_slot_safe A m _ e Hsafe He Hblank); try reflexivity.
      * exact Hcount.
      * apply not_elem_of_dom. apply is_fresh.
    + rewrite (put_invalid_slot_no_memory m key db now e He Hv).
      unfold returned. cbn [fst snd]. split; [|apply Hne'].
      apply (rewrite_slot_safe A m _ e Hsafe He Hblank). reflexivity.
  - pose proof (get_safe A m key now Hsafe) as Hget.
    unfold irdb_cache_get in *.
    destruct (find_slot (slots m) key 0) as [i|]; unfold returned;
      cbn [fst snd] in *; (split; [exact Hget|]); [|exact Hne].
    cbn [slots]. intros E. apply (f_equal length) in E.
    rewrite length_alter in E. destruct (slots m); [contradiction|].
    discriminate.
  - rewrite (clear_kernel_owned m Hk).
    destruct (existsb valid (slots m)); unfold returned; cbn [fst snd];
      [reflexivity|]. split; assumption.
Qed.

Lemma start_up_safe A : memory_safe A (start_up A).
Proof.
  unfold start_up, empty_cache.
  split; [|split; [|split]]; cbn [slots blocks cache].
  - auto.
  - intros i e a He. apply lookup_replicate in He as [-> _]. discriminate.
  - intros i j ei ej a _ He. apply lookup_replicate in He as [-> _].
    discriminate.
  - intros a Ha. left. exact Ha.
Qed.

(** X21. Whatever sequence of Puts (whether or not their allocation
    succeeds), Gets and Clears is applied to the cache from start-up, with
    every Put reading a database of the caller's, the only undefined step it
    can take is a release through the wrong allocator; and as long as it
    takes none, the callers' blocks stay live and unchanged, every slot that
    points to a block is valid and the block is live, is the kernel's, holds
    as many entries as the slot says and belongs to that slot alone, and no
    other block is live: nothing is read out of bounds and nothing is
    leaked. *)
Theorem cache_memory_safe (A : gmap address block) (ops : list cache_op) :
  Forall (op_ok A) ops ->
  match run_ops ops (start_up A) with
  | Ok m => memory_safe A m
  | Err _ => False
  | Fault u => u = InvalidFree
  end.
Proof.
  intros Hops.
  assert (slots (start_up A) <> []) as Hne by discriminate.
  pose proof (start_up_safe A) as Hsafe.
  pose proof (start_up_kernel_owned A) as Hk.
  revert Hne Hsafe Hk. generalize (start_up A).
  induction Hops as [|op ops Hop Hops IH]; intros m Hne Hsafe Hk;
    cbn [run_ops]; [exact Hsafe|].
  pose proof (apply_op_safe A m op Hsafe Hk Hne Hop) as Hstep.
  pose proof (apply_op_kernel_owned m op) as Hk'.
  destruct (apply_op m op) as [m'|err|u]; cbn [bind];
    [|contradiction|exact Hstep].
  destruct Hstep as [Hsafe' Hne']. apply IH; auto.
Qed.

Lemma cache_memory_safe_witness :
  memory_safe parsed
    (state_after [Put "a" tv_db true 1; Put "b" tv_db false 2; Get "a" 3;
                  Put "a" tv_db true 4; Get "c" 5] (start_up parsed)).
Proof.
  pose proof (cache_memory_safe parsed
                [Put "a" tv_db true 1; Put "b" tv_db false 2; Get "a" 3;
                 Put "a" tv_db true 4; Get "c" 5]) as H.
  rewrite state_after_ok in H by (vm_compute; reflexivity).
  apply H.
  repeat (apply Forall_cons; split;
          [first [exact I
                 | exists 100%nat, {| origin := libc;
                                      contents := [Protocol.power] |};
                   split; [reflexivity|];
                   split; [vm_compute; reflexivity|reflexivity]]|]).
  apply Forall_nil. exact I.
Defined.

End CacheHeap.

(** ** ir_hal.h / ir_hal.c: the PWM transmitter and the edge receiver *)

Module Hal.

Definition IR_CARRIER_FREQ : Z := 38000.
Definition IR_PWM_DUTY : Z := 33.
Definition IR_MAX_PULSE_US : Z := 100000.
Definition NSEC_PER_SEC : Z := 1000000000.

(** What the transmitter does to the PWM peripheral and to time, in
    order. *)
Inductive action : Type :=
| pwm_set_dt (period_ns pulse_ns : Z)
| k_busy_wait (usec : Z)
| k_usleep (usec : Z).

(** [ir_hal_tx_start]; [pwm_error] is the error [pwm_set_dt] returns, if
    any. *)
Definition ir_hal_tx_start (carrier_freq : Z) (pwm_error : option errno)
    : result (list action) :=
  if carrier_freq =? 0 then Fault DivisionByZero
  else
    let period_ns := NSEC_PER_SEC / carrier_freq in
    let pulse_ns := u32 (period_ns * IR_PWM_DUTY) / 100 in
    match pwm_error with
    | Some e => Err e
    | None => Ok [pwm_set_dt period_ns pulse_ns]
    end.

Definition ir_hal_tx_stop : list action := [pwm_set_dt 0 0].

Definition ir_hal_tx_pulse (duration_us : Z) (is_mark : bool) : list action :=
  (if is_mark then [] else [pwm_set_dt 0 0])
  ++ [k_busy_wait duration_us]
  ++ (if negb is_mark then
        let period_ns := NSEC_PER_SEC / IR_CARRIER_FREQ in
        let pulse_ns := u32 (period_ns * IR_PWM_DUTY) / 100 in
        [pwm_set_dt period_ns pulse_ns]
      else []).

(** *** The receiver *)

Record ir_pulse_t : Type := {
  duration_us : Z;
  is_mark : bool
}.

(** The static [rx_state]; [callback] records whether one is registered. *)
Record rx_state_t : Type := {
  callback : bool;
  last_edge_us : Z;
  last_state : bool;
  active : bool
}.

(** [gpio_callback_handler]: [now_us] is what the 64-bit cycle counter
    reads in microseconds and [current_state] what [gpio_pin_get] returns.
    The result is the new [rx_state] and the pulse handed to the callback,
    if any. *)
Definition gpio_callback_handler (rx : rx_state_t) (now_us current_state : Z)
    : rx_state_t * option ir_pulse_t :=
  if negb (active rx) then (rx, None)
  else if current_state <? 0 then (rx, None)
  else
    let pulse :=
      if last_edge_us rx >? 0 then
        let duration := u64 (now_us - last_edge_us rx) in
        if (duration >? 0) && (duration <? IR_MAX_PULSE_US) then
          if callback rx
          then Some {| duration_us := u32 duration;
                       is_mark := negb (last_state rx) |}
          else None
        else None
      else None in
    ({| callback := callback rx; last_edge_us := now_us;
        last_state := negb (current_state =? 0); active := active rx |},
     pulse).

(** [ir_hal_rx_start] with a callback; [gpio_error] is the error
    [gpio_pin_interrupt_configure] returns, if any. *)
Definition ir_hal_rx_start (rx : rx_state_t) (cb : bool)
    (gpio_error : option errno) : rx_state_t * result unit :=
  if negb cb then (rx, Err EINVAL)
  else
    ({| callback := cb; last_edge_us := 0; last_state := false;
        active := true |},
     match gpio_error with
     | Some e => Err e
     | None => Ok tt
     end).

Definition ir_hal_rx_stop (rx : rx_state_t) : rx_state_t :=
  {| callback := callback rx; last_edge_us := last_edge_us rx;
     last_state := last_state rx; active := false |}.

(** A train of edges: each one with the time it is seen at and the level
    read after it. *)
Fixpoint receive (rx : rx_state_t) (edges : list (Z * Z))
    : rx_state_t * list ir_pulse_t :=
  match edges with
  | [] => (rx, [])
  | (now_us, current_state) :: rest =>
      let '(rx1, pulse) := gpio_callback_handler rx now_us current_state in
      let '(rx2, pulses) := receive rx1 rest in
      (rx2, option_list pulse ++ pulses)
  end.

(** *** What is on air *)

(** A stretch of time with the PWM setting in force during it. *)
Record segment : Type := {
  period_ns : Z;
  pulse_ns : Z;
  usec : Z;
  asleep : bool
}.

Fixpoint on_air (pwm : Z * Z) (trace : list action) : list segment :=
  match trace with
  | [] => []
  | pwm_set_dt period pulse :: rest => on_air (period, pulse) rest
  | k_busy_wait us :: rest =>
      {| period_ns := fst pwm; pulse_ns := snd pwm; usec := us;
         asleep := false |} :: on_air pwm rest
  | k_usleep us :: rest =>
      {| period_ns := fst pwm; pulse_ns := snd pwm; usec := us;
         asleep := true |} :: on_air pwm rest
  end.

(** The setting [ir_hal_tx_pulse] restores after a space: 38 kHz at 33 %. *)
Definition restored : Z * Z := (26315, 8683).

Definition setting (s : segment) : Z * Z := (period_ns s, pulse_ns s).

Lemma on_air_app pwm trace1 trace2 :
  on_air pwm (trace1 ++ trace2) =
  on_air pwm trace1
  ++ on_air (fold_left (fun pwm a => match a with
                                     | pwm_set_dt period pulse => (period, pulse)
                                     | _ => pwm
                                     end) trace1 pwm) trace2.
Proof.
  revert pwm. induction trace1 as [|a trace1 IH]; intros pwm; [reflexivity|].
  destruct a; simpl; rewrite IH; reflexivity.
Qed.

(** *** Edges to pulses *)

(** The pulses between consecutive edges: the time from one edge to the
    next, a mark when the level read at the first of the two was low. *)
Fixpoint gaps (previous : Z * Z) (edges : list (Z * Z)) : list ir_pulse_t :=
  match edges with
  | [] => []
  | edge :: rest =>
      {| duration_us := fst edge - fst previous;
         is_mark := snd previous =? 0 |} :: gaps edge rest
  end.

(** Edges seen at increasing times, less than 100 ms apart, with a level
    that could be read. *)
Fixpoint steady (previous : Z) (edges : list (Z * Z)) : Prop :=
  match edges with
  | [] => True
  | edge :: rest =>
      previous < fst edge < previous + IR_MAX_PULSE_US /\
      fst edge < 2 ^ 64 /\ 0 <= snd edge /\ steady (fst edge) rest
  end.

Lemma receive_steady edges :
  forall rx previous,
    active rx = true -> callback rx = true ->
    0 < fst previous -> last_edge_us rx = fst previous ->
    last_state rx = negb (snd previous =? 0) ->
    steady (fst previous) edges ->
    snd (receive rx edges) = gaps previous edges /\
    active (fst (receive rx edges)) = true.
Proof.
  induction edges as [|[now level] edges IH];
    intros rx previous Hact Hcb Hpos Hlast Hstate Hsteady.
  - split; [reflexivity|exact Hact].
  - cbn [steady fst snd] in Hsteady.
    destruct Hsteady as ((Hlo & Hhi) & H64 & Hlevel & Hrest).
    unfold IR_MAX_PULSE_US in *.
    cbn [receive]. unfold gpio_callback_handler.
    rewrite Hact, Hcb, Hlast, Hstate. cbn [negb].
    destruct (Z.ltb_spec level 0) as [|_]; [lia|].
    destruct (Z.gtb_spec (fst previous) 0) as [_|]; [|lia].
    assert (u64 (now - fst previous) = now - fst previous) as ->
      by (unfold u64; apply Z.mod_small; lia).
    destruct (Z.gtb_spec (now - fst previous) 0) as [_|]; [|lia].
    destruct (Z.ltb_spec (now - fst previous) IR_MAX_PULSE_US) as [_|];
      [|unfold IR_MAX_PULSE_US in *; lia].
    cbn [andb].
    assert (u32 (now - fst previous) = now - fst previous) as ->
      by (unfold u32; apply Z.mod_small; change (2 ^ 32) with 4294967296; lia).
    specialize (IH {| callback := true; last_edge_us := now;
                      last_state := negb (level =? 0); active := true |}
                  (now, level) eq_refl eq_refl ltac:(cbn; lia) eq_refl eq_refl
                  Hrest).
    destruct (receive _ edges) as [rx2 pulses]. cbn [fst snd] in *.
    destruct IH as [-> Ha]. split; [|exact Ha].
    cbn [option_list app gaps fst snd]. rewrite negb_involutive. reflexivity.
Qed.

Lemma receive_from_start (first : Z * Z) (edges : list (Z * Z)) :
  0 < fst first < 2 ^ 64 ->
  0 <= snd first ->
  steady (fst first) edges ->
  snd (receive {| callback := true; last_edge_us := 0; last_state := false;
                  active := true |} (first :: edges)) =
  gaps first edges.
Proof.
  intros Hfirst Hlevel Hsteady. destruct first as [now level].
  cbn [fst snd] in *. cbn [receive].
  unfold gpio_callback_handler. cbn [active negb last_edge_us callback].
  destruct (Z.ltb_spec level 0) as [|_]; [lia|].
  change (0 >? 0) with false. cbv iota.
  pose proof (receive_steady edges
                {| callback := true; last_edge_us := now;
                   last_state := negb (level =? 0); active := true |}
                (now, level) eq_refl eq_refl ltac:(cbn; lia) eq_refl eq_refl
                Hsteady) as [H _].
  destruct (receive _ edges) as [rx2 pulses]. cbn [fst snd] in *.
  rewrite H. reflexivity.
Qed.

(** X22. Reception started with a callback, then a train of edges seen at
    increasing times less than 100 ms apart: the first edge delivers
    nothing, and every later edge delivers one pulse, the time since the
    edge before, as a mark exactly when the level read at the edge before
    was low; whether the callback meant that level to be a mark is not
    asked. *)
Theorem edges_to_pulses (rx : rx_state_t) (first : Z * Z) (edges : list (Z * Z)) :
  0 < fst first < 2 ^ 64 ->
  0 <= snd first ->
  steady (fst first) edges ->
  snd (receive (fst (ir_hal_rx_start rx true None)) (first :: edges)) =
  gaps first edges.
Proof.
  intros Hfirst Hlevel Hsteady. cbn [ir_hal_rx_start negb fst].
  apply receive_from_start; assumption.
Qed.

Definition idle : rx_state_t :=
  {| callback := false; last_edge_us := 0; last_state := false;
     active := false |}.

Lemma edges_to_pulses_witness :
  snd (receive (fst (ir_hal_rx_start idle true None))
         [(1000, 0); (10000, 1); (14500, 0); (15060, 1)]) =
  [{| duration_us := 9000; is_mark := true |};
   {| duration_us := 4500; is_mark := false |};
   {| duration_us := 560; is_mark := true |}].
Proof.
  apply (edges_to_pulses idle (1000, 0) [(10000, 1); (14500, 0); (15060, 1)]).
  - cbn. lia.
  - cbn. lia.
  - cbn. unfold IR_MAX_PULSE_US. lia.
Defined.

End Hal.

(** ** ir_service.c: sending an entry, and receiving one *)

Module Service.

Definition MAX_RAW_TIMINGS : Z := 512.

(** The inner loop of [ir_service_send_entry], from index [i] on. *)
Fixpoint send_timings (timings : list Z) (i : Z) : list Hal.action :=
  match timings with
  | [] => []
  | t :: rest =>
      Hal.ir_hal_tx_pulse t (i mod 2 =? 0) ++ send_timings rest (i + 1)
  end.

(** The outer loop, with [n] repeats left after [r] done. *)
Fixpoint send_repeats (params : Protocol.irdb_protocol_params_t)
    (timings : list Z) (repeat : Z) (n : nat) (r : Z) : list Hal.action :=
  match n with
  | O => []
  | S n' =>
      send_timings timings 0
      ++ (if (r <? u32 (repeat - 1)) && (Protocol.gap params >? 0)
          then [Hal.k_usleep (Protocol.gap params)] else [])
      ++ send_repeats params timings repeat n' (r + 1)
  end.

(** [ir_service_send_entry]: what it does to the transmitter, or the error
    it returns. *)
Definition ir_service_send_entry (entry : Protocol.irdb_entry_t) (repeat : Z)
    (pwm_error : option errno) : result (list Hal.action) :=
  match Protocol.irdb_get_protocol_params (Protocol.protocol entry) with
  | None => Err ENOTSUP
  | Some params =>
      let* timings := Protocol.irdb_encode_to_raw entry MAX_RAW_TIMINGS in
      let* started :=
        Hal.ir_hal_tx_start (Protocol.frequency params) pwm_error in
      Ok (started
          ++ send_repeats params timings repeat (Z.to_nat repeat) 0
          ++ Hal.ir_hal_tx_stop)
  end.

(** [ir_service_send_command] on the service's database, [None] when none
    is loaded. *)
Definition ir_service_send_command (current_db : option (list Protocol.irdb_entry_t))
    (function_name : string) (repeat : Z) (pwm_error : option errno)
    : result (list Hal.action) :=
  match current_db with
  | None => Err EINVAL
  | Some db =>
      match Protocol.irdb_find_function db function_name with
      | None => Err ENOENT
      | Some entry => ir_service_send_entry entry repeat pwm_error
      end
  end.

(** *** What a transmission consists of *)

Definition busy_waits (trace : list Hal.action) : list Z :=
  flat_map (fun a => match a with Hal.k_busy_wait us => [us] | _ => [] end) trace.

Definition sleeps (trace : list Hal.action) : list Z :=
  flat_map (fun a => match a with Hal.k_usleep us => [us] | _ => [] end) trace.

Lemma send_timings_waits timings :
  forall i, busy_waits (send_timings timings i) = timings /\
            sleeps (send_timings timings i) = [].
Proof.
  induction timings as [|t timings IH]; intros i; [split; reflexivity|].
  cbn [send_timings]. unfold busy_waits, sleeps in *.
  rewrite !flat_map_app. destruct (IH (i + 1)) as [-> ->].
  unfold Hal.ir_hal_tx_pulse. destruct (i mod 2 =? 0); split; reflexivity.
Qed.

Lemma send_repeats_waits params timings repeat :
  0 < Protocol.gap params ->
  forall n r,
    0 <= r -> r + Z.of_nat n = repeat -> repeat < 2 ^ 32 ->
    busy_waits (send_repeats params timings repeat n r) =
      concat (replicate n timings) /\
    sleeps (send_repeats params timings repeat n r) =
      replicate (n - 1) (Protocol.gap params).
Proof.
  intros Hgap. induction n as [|n IH]; intros r Hr Hsum Hmax;
    [split; reflexivity|].
  cbn [send_repeats]. unfold busy_waits, sleeps in *.
  rewrite !flat_map_app.
  destruct (send_timings_waits timings 0) as [Hw Hs].
  unfold busy_waits, sleeps in Hw, Hs. rewrite Hw, Hs.
  destruct (IH (r + 1) ltac:(lia) ltac:(lia) Hmax) as [-> ->].
  assert (u32 (repeat - 1) = repeat - 1) as ->
    by (unfold u32; apply Z.mod_small; lia).
  destruct (Z.gtb_spec (Protocol.gap params) 0) as [_|]; [|lia].
  destruct (Z.ltb_spec r (repeat - 1)) as [Hmore|Hlast]; cbn [andb flat_map app].
  - split; [reflexivity|].
    destruct n as [|n]; [lia|]. cbn. rewrite Nat.sub_0_r. reflexivity.
  - split; [reflexivity|].
    assert (n = 0%nat) as -> by lia. reflexivity.
Qed.

(** X23. Sending an entry has three outcomes.  A protocol without a row in
    the table gives [ENOTSUP]; an error of the PWM driver is passed on;
    otherwise the transmitter busy-waits through the frame of the entry,
    once per repeat and in order, and sleeps for the gap of the protocol
    between one repeat and the next.  The buffer of 512 durations is
    enough for every protocol, so [ENOMEM] is never returned. *)
Theorem send_entry_outcome (entry : Protocol.irdb_entry_t) (repeat : Z)
    (pwm_error : option errno) :
  0 <= repeat < 2 ^ 32 ->
  match Protocol.irdb_get_protocol_params (Protocol.protocol entry), pwm_error with
  | None, _ => ir_service_send_entry entry repeat pwm_error = Err ENOTSUP
  | Some _, Some e => ir_service_send_entry entry repeat pwm_error = Err e
  | Some params, None =>
      exists frame trace,
        Protocol.irdb_encode_to_raw entry
          (Protocol.frame_length (Protocol.protocol entry)) = Ok frame /\
        ir_service_send_entry entry repeat pwm_error = Ok trace /\
        busy_waits trace = concat (replicate (Z.to_nat repeat) frame) /\
        sleeps trace = replicate (Z.to_nat repeat - 1) (Protocol.gap params)
  end.
Proof.
  intros Hrep. unfold ir_service_send_entry.
  destruct (Protocol.irdb_get_protocol_params (Protocol.protocol entry))
    as [params|] eqn:Hp; [|destruct pwm_error; reflexivity].
  destruct (Protocol.table_row_facts _ _ Hp) as (Hlen & Hfreq & Hgap).
  destruct (Protocol.encode_frame entry params MAX_RAW_TIMINGS Hp
              ltac:(unfold MAX_RAW_TIMINGS; lia)) as (frame & Henc & Hflen).
  destruct (Protocol.encode_frame entry params
              (Protocol.frame_length (Protocol.protocol entry)) Hp
              ltac:(lia)) as (frame' & Henc' & _).
  assert (frame' = frame) as ->.
  { pose proof (Protocol.encode_layout entry params MAX_RAW_TIMINGS Hp) as H1.
    pose proof (Protocol.encode_layout entry params
                  (Protocol.frame_length (Protocol.protocol entry)) Hp) as H2.
    rewrite (Protocol.encoded_length_frame entry params Hp) in H1, H2.
    rewrite H1 in Henc by (unfold MAX_RAW_TIMINGS; lia).
    rewrite H2 in Henc' by lia. congruence. }
  rewrite Henc. cbn [bind]. unfold Hal.ir_hal_tx_start.
  destruct (Z.eqb_spec (Protocol.frequency params) 0) as [|_]; [lia|].
  destruct pwm_error as [err|]; [reflexivity|]. cbn [bind].
  exists frame. eexists. split; [exact Henc'|]. split; [reflexivity|].
  destruct (send_repeats_waits params frame repeat ltac:(lia)
              (Z.to_nat repeat) 0 ltac:(lia) ltac:(lia) ltac:(lia))
    as [Hw Hs].
  unfold busy_waits, sleeps in *. rewrite !flat_map_app, Hw, Hs.
  cbn. rewrite !app_nil_r. split; reflexivity.
Qed.

Lemma send_entry_outcome_witness :
  exists frame trace,
    Protocol.irdb_encode_to_raw Protocol.power 67 = Ok frame /\
    ir_service_send_entry Protocol.power 3 None = Ok trace /\
    busy_waits trace = concat (replicate 3 frame) /\
    sleeps trace = [108000; 108000].
Proof.
  apply (send_entry_outcome Protocol.power 3 None). lia.
Defined.

(** *** The carrier a transmission is sent on *)

Definition lit (pwm : Z * Z) (t : Z) : Hal.segment :=
  {| Hal.period_ns := fst pwm; Hal.pulse_ns := snd pwm; Hal.usec := t;
     Hal.asleep := false |}.

Definition nap (pwm : Z * Z) (t : Z) : Hal.segment :=
  {| Hal.period_ns := fst pwm; Hal.pulse_ns := snd pwm; Hal.usec := t;
     Hal.asleep := true |}.

(** A frame sent with the PWM set to [pwm] beforehand: the first mark goes
    out on [pwm], every space with the PWM off, and every later mark on
    the setting restored after a space. *)
Fixpoint mark_space (pwm : Z * Z) (timings : list Z) : list Hal.segment :=
  match timings with
  | mark :: space :: rest =>
      lit pwm mark :: lit (0, 0) space :: mark_space Hal.restored rest
  | [mark] => [lit pwm mark]
  | [] => []
  end.

Definition setting_after (pwm : Z * Z) (timings : list Z) : Z * Z :=
  match timings with
  | _ :: _ :: _ => Hal.restored
  | _ => pwm
  end.

Lemma even_next i : (i mod 2 =? 0) = true -> ((i + 1) mod 2 =? 0) = false.
Proof. intros H. rewrite Learning.parity_next, H. reflexivity. Qed.

Lemma even_next_next i :
  (i mod 2 =? 0) = true -> ((i + 1 + 1) mod 2 =? 0) = true.
Proof.
  intros H. rewrite Learning.parity_next, Learning.parity_next, H. reflexivity.
Qed.

Lemma send_timings_on_air n :
  forall timings i pwm k,
    (length timings <= n)%nat -> (i mod 2 =? 0) = true ->
    Hal.on_air pwm (send_timings timings i ++ k) =
    mark_space pwm timings ++ Hal.on_air (setting_after pwm timings) k.
Proof.
  induction n as [|n IH]; intros timings i pwm k Hlen Heven.
  - destruct timings; [reflexivity|simpl in Hlen; lia].
  - destruct timings as [|mark [|space rest]]; [reflexivity| |].
    + cbn [send_timings]. rewrite Heven. reflexivity.
    + cbn [send_timings]. rewrite Heven, (even_next i Heven).
      cbn [Hal.ir_hal_tx_pulse negb app Hal.on_air mark_space setting_after].
      change (Hal.NSEC_PER_SEC / Hal.IR_CARRIER_FREQ,
              u32 (Hal.NSEC_PER_SEC / Hal.IR_CARRIER_FREQ * Hal.IR_PWM_DUTY) / 100)
        with Hal.restored.
      unfold lit at 1 2. cbn [fst snd]. f_equal. f_equal.
      rewrite (IH rest (i + 1 + 1) Hal.restored k)
        by (first [simpl in Hlen; lia | apply even_next_next; exact Heven]).
      f_equal. destruct rest as [|? [|? ?]]; reflexivity.
Qed.

Lemma send_repeats_on_air params frame repeat :
  0 < Protocol.gap params -> (2 <= length frame)%nat ->
  forall n r pwm k,
    0 <= r -> r + Z.of_nat n = repeat -> repeat < 2 ^ 32 ->
    Hal.on_air pwm (send_repeats params frame repeat n r ++ k) =
    match n with
    | O => Hal.on_air pwm k
    | S n' =>
        mark_space pwm frame
        ++ concat (replicate n' (nap Hal.restored (Protocol.gap params)
                                 :: mark_space Hal.restored frame))
        ++ Hal.on_air Hal.restored k
    end.
Proof.
  intros Hgap Hlen. induction n as [|n IH]; intros r pwm k Hr Hsum Hmax;
    [reflexivity|].
  cbn [send_repeats]. rewrite <- !app_assoc.
  rewrite (send_timings_on_air (length frame) frame 0 pwm) by (lia || reflexivity).
  assert (setting_after pwm frame = Hal.restored) as ->
    by (destruct frame as [|? [|? ?]]; simpl in Hlen; try lia; reflexivity).
  f_equal.
  assert (u32 (repeat - 1) = repeat - 1) as ->
    by (unfold u32; apply Z.mod_small; lia).
  destruct (Z.gtb_spec (Protocol.gap params) 0) as [_|]; [|lia].
  destruct (Z.ltb_spec r (repeat - 1)) as [Hmore|Hlast]; cbn [andb app].
  - destruct n as [|n]; [lia|].
    cbn [Hal.on_air]. rewrite (IH (r + 1)) by lia.
    cbn [replicate concat fst snd]. rewrite <- !app_assoc. reflexivity.
  - assert (n = 0%nat) as -> by lia. reflexivity.
Qed.

(** X24. What goes on air when an entry is sent at least once.  Only the
    first mark of the transmission is sent on the carrier of the protocol,
    and at a duty of 33 %, not the duty cycle of the table; every space is
    sent with the PWM off; every later mark, of this and of all later
    repeats, is sent on 38 kHz, whatever the protocol; and the gap between
    two repeats is slept through with that 38 kHz carrier on. *)
Theorem send_entry_on_air (entry : Protocol.irdb_entry_t)
    (params : Protocol.irdb_protocol_params_t) (repeat : Z) :
  Protocol.irdb_get_protocol_params (Protocol.protocol entry) = Some params ->
  0 < repeat < 2 ^ 32 ->
  let period_ns := Hal.NSEC_PER_SEC / Protocol.frequency params in
  let carrier := (period_ns, period_ns * 33 / 100) in
  exists frame trace,
    Protocol.irdb_encode_to_raw entry MAX_RAW_TIMINGS = Ok frame /\
    ir_service_send_entry entry repeat None = Ok trace /\
    Hal.on_air (0, 0) trace =
    mark_space carrier frame
    ++ concat (replicate (Z.to_nat repeat - 1)
                 (nap Hal.restored (Protocol.gap params)
                  :: mark_space Hal.restored frame)).
Proof.
  intros Hp Hrep. cbv zeta. unfold ir_service_send_entry. rewrite Hp.
  destruct (Protocol.table_row_facts _ _ Hp) as (Hlen & Hfreq & Hgap).
  destruct (Protocol.encode_frame entry params MAX_RAW_TIMINGS Hp
              ltac:(unfold MAX_RAW_TIMINGS; lia)) as (frame & Henc & Hflen).
  rewrite Henc. cbn [bind]. unfold Hal.ir_hal_tx_start.
  destruct (Z.eqb_spec (Protocol.frequency params) 0) as [|_]; [lia|].
  cbn [bind].
  exists frame. eexists. split; [reflexivity|]. split; [reflexivity|].
  cbn [app Hal.on_air].
  assert (u32 (Hal.NSEC_PER_SEC / Protocol.frequency params * Hal.IR_PWM_DUTY)
          = Hal.NSEC_PER_SEC / Protocol.frequency params * 33) as ->.
  { unfold u32, Hal.NSEC_PER_SEC, Hal.IR_PWM_DUTY. apply Z.mod_small.
    assert (0 <= 1000000000 / Protocol.frequency params <= 27778).
    { split; [apply Z.div_pos; lia|].
      apply Z.div_le_upper_bound; lia. }
    change (2 ^ 32) with 4294967296. lia. }
  unfold len in Hflen.
  rewrite (send_repeats_on_air params frame repeat ltac:(lia) ltac:(lia)
             (Z.to_nat repeat) 0) by lia.
  destruct (Z.to_nat repeat) as [|n] eqn:Hn; [lia|].
  change (Hal.on_air Hal.restored Hal.ir_hal_tx_stop) with (@nil Hal.segment).
  rewrite app_nil_r. replace (S n - 1)%nat with n by lia. reflexivity.
Qed.

Lemma send_entry_on_air_witness :
  exists frame trace,
    Protocol.irdb_encode_to_raw Protocol.rc5_play MAX_RAW_TIMINGS = Ok frame /\
    ir_service_send_entry Protocol.rc5_play 2 None = Ok trace /\
    Hal.on_air (0, 0) trace =
    mark_space (27777, 9166) frame
    ++ concat (replicate 1 (nap Hal.restored 113792
                            :: mark_space Hal.restored frame)).
Proof.
  apply (send_entry_on_air Protocol.rc5_play Protocol.rc5_params 2).
  - reflexivity.
  - lia.
Defined.

(** X25. Sending does not tell the two halves of an RC5 symbol apart: it
    takes the durations at even positions for marks, and both halves last
    889 microseconds.  So every RC5 entry, whatever its device and
    function, is sent as the same transmission. *)
Theorem rc5_entries_sent_alike (entry1 entry2 : Protocol.irdb_entry_t)
    (repeat : Z) (pwm_error : option errno) :
  Protocol.protocol entry1 = Protocol.IRDB_PROTOCOL_RC5 ->
  Protocol.protocol entry2 = Protocol.IRDB_PROTOCOL_RC5 ->
  ir_service_send_entry entry1 repeat pwm_error =
  ir_service_send_entry entry2 repeat pwm_error.
Proof.
  intros H1 H2. unfold ir_service_send_entry.
  rewrite (Protocol.rc5_frame entry1 MAX_RAW_TIMINGS H1)
    by (unfold MAX_RAW_TIMINGS; lia).
  rewrite (Protocol.rc5_frame entry2 MAX_RAW_TIMINGS H2)
    by (unfold MAX_RAW_TIMINGS; lia).
  rewrite H1, H2. reflexivity.
Qed.

Definition rc5_stop : Protocol.irdb_entry_t :=
  {| Protocol.function_name := "Stop"; Protocol.protocol := Protocol.IRDB_PROTOCOL_RC5;
     Protocol.device := 5; Protocol.subdevice := 0; Protocol.function := 54 |}.

Lemma rc5_entries_sent_alike_witness :
  ir_service_send_entry Protocol.rc5_play 1 None = ir_service_send_entry rc5_stop 1 None.
Proof.
  apply (rc5_entries_sent_alike Protocol.rc5_play rc5_stop 1 None); reflexivity.
Defined.

(** *** Sending by name *)

Lemma find_function_case db query1 query2 :
  Forall (fun e => Protocol.c_string (Protocol.function_name e)) db ->
  Protocol.c_string query1 -> Protocol.c_string query2 ->
  Protocol.lower query1 = Protocol.lower query2 ->
  Protocol.irdb_find_function db query1 = Protocol.irdb_find_function db query2.
Proof.
  intros Hdb H1 H2 Hq. unfold Protocol.irdb_find_function.
  induction Hdb as [|e db He Hdb IH]; [reflexivity|]. cbn [find].
  pose proof (Protocol.strcasecmp_lower _ _ He H1) as Hiff1.
  pose proof (Protocol.strcasecmp_lower _ _ He H2) as Hiff2.
  rewrite IH.
  destruct (Z.eqb_spec (Protocol.strcasecmp (Protocol.function_name e) query1) 0)
    as [E1|N1];
    destruct (Z.eqb_spec (Protocol.strcasecmp (Protocol.function_name e) query2) 0)
      as [E2|N2]; try reflexivity; exfalso.
  - apply N2, Hiff2. rewrite <- Hq. apply Hiff1. exact E1.
  - apply N1, Hiff1. rewrite Hq. apply Hiff2. exact E2.
Qed.

(** X30. Sending a command by name does not depend on the case of the
    letters of the name: two names that differ in case only select the same
    entry of the database and give the same transmission, or fail alike. *)
Theorem send_command_ignores_case (db : list Protocol.irdb_entry_t)
    (query1 query2 : string) (repeat : Z) (pwm_error : option errno) :
  Forall (fun e => Protocol.c_string (Protocol.function_name e)) db ->
  Protocol.c_string query1 -> Protocol.c_string query2 ->
  Protocol.lower query1 = Protocol.lower query2 ->
  ir_service_send_command (Some db) query1 repeat pwm_error =
  ir_service_send_command (Some db) query2 repeat pwm_error.
Proof.
  intros Hdb H1 H2 Hq. unfold ir_service_send_command.
  rewrite (find_function_case db query1 query2 Hdb H1 H2 Hq). reflexivity.
Qed.

Lemma send_command_ignores_case_witness :
  ir_service_send_command (Some [Protocol.power; Protocol.volume_up])
    "POWER" 1 None =
  ir_service_send_command (Some [Protocol.power; Protocol.volume_up])
    "power" 1 None.
Proof.
  apply (send_command_ignores_case [Protocol.power; Protocol.volume_up]
           "POWER" "power" 1 None).
  - repeat (apply Forall_cons; split;
            [simpl; repeat split; vm_compute; congruence|]).
    apply Forall_nil. exact I.
  - simpl. repeat split; vm_compute; congruence.
  - simpl. repeat split; vm_compute; congruence.
  - reflexivity.
Defined.

(** *** Receiving *)

(** [service_state.rx]; [timings] is the array of [MAX_RAW_TIMINGS]
    durations. *)
Record rx_t : Type := {
  callback : bool;
  timings : list Z;
  timing_count : Z;
  timeout_timer : option Z;
  active : bool
}.

(** [service_state], with the [rx_state] of the HAL it drives and the
    entries its receive callback has been handed so far.  [current_db] is
    the array of entries of the database. *)
Record service_state_t : Type := {
  current_db : list Protocol.irdb_entry_t;
  db_loaded : bool;
  rx : rx_t;
  hal : Hal.rx_state_t;
  handed : list Protocol.irdb_entry_t
}.

Definition set_rx (s : service_state_t) (r : rx_t) : service_state_t :=
  {| current_db := current_db s; db_loaded := db_loaded s; rx := r;
     hal := hal s; handed := handed s |}.

Definition set_hal (s : service_state_t) (h : Hal.rx_state_t) : service_state_t :=
  {| current_db := current_db s; db_loaded := db_loaded s; rx := rx s;
     hal := h; handed := handed s |}.

Definition rx_timeout_handler (s : service_state_t) : service_state_t :=
  if (timing_count (rx s) >? 0) && callback (rx s) then
    let s1 :=
      match Protocol.irdb_decode_from_raw (current_db s)
              (take (Z.to_nat (timing_count (rx s))) (timings (rx s))) with
      | Ok decoded_entry =>
          {| current_db := current_db s; db_loaded := db_loaded s; rx := rx s;
             hal := hal s; handed := handed s ++ [decoded_entry] |}
      | _ => s
      end in
    set_rx s1
      {| callback := callback (rx s1); timings := timings (rx s1);
         timing_count := 0; timeout_timer := timeout_timer (rx s1);
         active := active (rx s1) |}
  else s.

Definition hal_rx_callback (s : service_state_t) (pulse : Hal.ir_pulse_t)
    : service_state_t :=
  if negb (active (rx s)) then s
  else
    let r := rx s in
    let '(timings1, count1) :=
      if timing_count r <? MAX_RAW_TIMINGS
      then (<[Z.to_nat (timing_count r) := Hal.duration_us pulse]> (timings r),
            u32 (timing_count r + 1))
      else (timings r, timing_count r) in
    set_rx s
      {| callback := callback r; timings := timings1; timing_count := count1;
         timeout_timer := Some 150; active := active r |}.

(** [ir_service_start_receive]; [gpio_error] is the error the HAL meets
    when it enables the edge interrupt, if any. *)
Definition ir_service_start_receive (s : service_state_t) (cb : bool)
    (gpio_error : option errno) : service_state_t * result unit :=
  if negb cb then (s, Err EINVAL)
  else if negb (db_loaded s) then (s, Err EINVAL)
  else
    let s1 :=
      set_rx s
        {| callback := cb; timings := timings (rx s); timing_count := 0;
           timeout_timer := timeout_timer (rx s); active := true |} in
    let '(h, ret) := Hal.ir_hal_rx_start (hal s1) true gpio_error in
    (set_hal s1 h, ret).

Definition ir_service_stop_receive (s : service_state_t) : service_state_t :=
  set_hal
    (set_rx s
       {| callback := callback (rx s); timings := timings (rx s);
          timing_count := timing_count (rx s); timeout_timer := None;
          active := false |})
    (Hal.ir_hal_rx_stop (hal s)).

(** An edge on the receiver pin: the HAL measures, and hands a pulse to
    [hal_rx_callback], which does not touch the HAL. *)
Definition on_edge (s : service_state_t) (edge : Z * Z) : service_state_t :=
  let '(h, pulse) := Hal.gpio_callback_handler (hal s) (fst edge) (snd edge) in
  match pulse with
  | Some p => set_hal (hal_rx_callback s p) h
  | None => set_hal s h
  end.

Definition on_edges (s : service_state_t) (edges : list (Z * Z))
    : service_state_t :=
  fold_left on_edge edges s.

(** The edges of a transmission that begins at [now_us] with the pin at
    [level]: one edge after each duration, the level toggling. *)
Fixpoint edges_after (now_us level : Z) (durations : list Z) : list (Z * Z) :=
  match durations with
  | [] => []
  | d :: rest => (now_us + d, 1 - level) :: edges_after (now_us + d) (1 - level) rest
  end.

Definition feed (s : service_state_t) (pulses : list Hal.ir_pulse_t)
    : service_state_t :=
  fold_left hal_rx_callback pulses s.

Lemma hal_rx_callback_hal s p : hal (hal_rx_callback s p) = hal s.
Proof.
  unfold hal_rx_callback. destruct (negb (active (rx s))); [reflexivity|].
  destruct (timing_count (rx s) <? MAX_RAW_TIMINGS); reflexivity.
Qed.

Lemma hal_rx_callback_set_hal s p h :
  set_hal (hal_rx_callback s p) h = hal_rx_callback (set_hal s h) p.
Proof.
  unfold hal_rx_callback. cbn [set_hal rx].
  destruct (negb (active (rx s))); [reflexivity|].
  destruct (timing_count (rx s) <? MAX_RAW_TIMINGS); reflexivity.
Qed.

Lemma feed_set_hal pulses :
  forall s h, set_hal (feed s pulses) h = feed (set_hal s h) pulses.
Proof.
  induction pulses as [|p pulses IH]; intros s h; [reflexivity|].
  cbn [feed fold_left]. fold (feed (hal_rx_callback s p) pulses).
  fold (feed (hal_rx_callback (set_hal s h) p) pulses).
  rewrite IH, hal_rx_callback_set_hal. reflexivity.
Qed.

Lemma set_hal_set_hal s h1 h2 : set_hal (set_hal s h1) h2 = set_hal s h2.
Proof. reflexivity. Qed.

(** Edges go through the HAL first, then through the service. *)
Lemma on_edges_feed edges :
  forall s,
    on_edges s edges =
    feed (set_hal s (fst (Hal.receive (hal s) edges)))
      (snd (Hal.receive (hal s) edges)).
Proof.
  induction edges as [|[now level] edges IH]; intros s.
  - destruct s; reflexivity.
  - cbn [on_edges fold_left Hal.receive]. fold (on_edges (on_edge s (now, level)) edges).
    rewrite IH. unfold on_edge. cbn [fst snd].
    destruct (Hal.gpio_callback_handler (hal s) now level) as [h pulse].
    destruct pulse as [p|]; cbn [hal set_hal].
    + destruct (Hal.receive h edges) as [h2 pulses]. cbn [fst snd].
      rewrite set_hal_set_hal, hal_rx_callback_set_hal. reflexivity.
    + destruct (Hal.receive h edges) as [h2 pulses]. reflexivity.
Qed.

(** The buffer after the pulses [pulses] have been stored behind the
    [stored] ones. *)
Lemma feed_stores pulses :
  forall s stored,
    active (rx s) = true ->
    length (timings (rx s)) = 512%nat ->
    timing_count (rx s) = len stored ->
    (length stored <= 512)%nat ->
    take (length stored) (timings (rx s)) = stored ->
    let s' := feed s pulses in
    let kept := take 512 (stored ++ map Hal.duration_us pulses) in
    timing_count (rx s') = len kept /\
    take (length kept) (timings (rx s')) = kept /\
    callback (rx s') = callback (rx s) /\
    current_db s' = current_db s /\ handed s' = handed s.
Proof.
  induction pulses as [|p pulses IH]; intros s stored Hact Hlen Hcount Hle Hst;
    cbv zeta.
  - cbn [feed fold_left map]. rewrite app_nil_r, take_ge by lia. auto.
  - cbn [feed fold_left map].
    fold (feed (hal_rx_callback s p) pulses).
    unfold hal_rx_callback. rewrite Hact. cbn [negb].
    unfold MAX_RAW_TIMINGS. rewrite Hcount.
    destruct (Z.ltb_spec (len stored) 512) as [Hroom|Hfull].
    + unfold len in Hroom.
      specialize (IH (set_rx s
                        {| callback := callback (rx s);
                           timings := <[Z.to_nat (len stored) := Hal.duration_us p]>
                                        (timings (rx s));
                           timing_count := u32 (len stored + 1);
                           timeout_timer := Some 150; active := true |})
                    (stored ++ [Hal.duration_us p])).
      cbv zeta in IH. cbn [set_rx rx active timings timing_count callback
                           current_db handed] in IH.
      rewrite <- app_assoc in IH. cbn [app] in IH.
      apply IH.
      * reflexivity.
      * rewrite length_insert. exact Hlen.
      * unfold u32, len. rewrite length_app. cbn [length].
        rewrite Z.mod_small; [lia|]. change (2 ^ 32) with 4294967296. lia.
      * rewrite length_app. cbn [length]. lia.
      * unfold len. rewrite Nat2Z.id, length_app. cbn [length].
        replace (length stored + 1)%nat with (S (length stored)) by lia.
        rewrite Learning.take_insert_next by lia. rewrite Hst. reflexivity.
    + unfold len in Hfull. assert (length stored = 512%nat) as H512 by lia.
      specialize (IH (set_rx s
                        {| callback := callback (rx s);
                           timings := timings (rx s);
                           timing_count := len stored;
                           timeout_timer := Some 150; active := true |})
                    stored).
      cbv zeta in IH. cbn [set_rx rx active timings timing_count callback
                           current_db handed] in IH.
      rewrite (take_app_le stored (Hal.duration_us p :: map Hal.duration_us pulses))
        by lia.
      rewrite (take_app_le stored (map Hal.duration_us pulses)) in IH by lia.
      apply IH; auto.
Qed.

Lemma sum_bound durations :
  Forall (fun d => 0 < d < 100000) durations ->
  0 <= Learning.sum durations <= len durations * 100000.
Proof.
  unfold Learning.sum, len.
  induction 1 as [|d l Hd Hl IH]; cbn [fold_right length]; lia.
Qed.

Lemma edges_after_steady durations :
  forall now level,
    Forall (fun d => 0 < d < 100000) durations ->
    (level = 0 \/ level = 1) ->
    now + Learning.sum durations < 2 ^ 64 ->
    Hal.steady now (edges_after now level durations) /\
    map Hal.duration_us (Hal.gaps (now, level) (edges_after now level durations))
    = durations.
Proof.
  induction durations as [|d durations IH]; intros now level Hd Hlevel Hmax.
  - split; [exact I|reflexivity].
  - apply Forall_cons in Hd as [Hd Hrest].
    pose proof (sum_bound durations Hrest) as Hpos.
    unfold Learning.sum in *. cbn [fold_right] in Hmax.
    destruct (IH (now + d) (1 - level) Hrest ltac:(lia) ltac:(lia)) as [Hs Hg].
    split.
    + cbn [edges_after Hal.steady fst snd]. unfold Hal.IR_MAX_PULSE_US.
      repeat split; try lia. exact Hs.
    + cbn [edges_after Hal.gaps map fst snd Hal.duration_us]. rewrite Hg.
      f_equal. lia.
Qed.

(** X26. A frame sent by the encoder comes back as the entry it was made
    from.  With a database loaded whose first entry is an in-range NEC2 or
    Samsung32 entry, reception started, and the edges of that entry's
    frame seen on the pin, the expiry of the receive timer hands the
    callback exactly that entry and empties the buffer. *)
Theorem service_loopback (s : service_state_t) (e : Protocol.irdb_entry_t)
    (p : Protocol.irdb_protocol_params_t) (rest : list Protocol.irdb_entry_t)
    (now_us : Z) :
  Protocol.protocol e = Protocol.IRDB_PROTOCOL_NEC2
  \/ Protocol.protocol e = Protocol.IRDB_PROTOCOL_SAMSUNG32 ->
  Protocol.irdb_get_protocol_params (Protocol.protocol e) = Some p ->
  Protocol.in_range p e ->
  db_loaded s = true ->
  current_db s = e :: rest ->
  length (timings (rx s)) = 512%nat ->
  0 < now_us < 2 ^ 63 ->
  exists frame,
    Protocol.irdb_encode_to_raw e MAX_RAW_TIMINGS = Ok frame /\
    let s1 := fst (ir_service_start_receive s true None) in
    let s2 := on_edges s1 ((now_us, 0) :: edges_after now_us 0 frame) in
    let s3 := rx_timeout_handler s2 in
    handed s3 = handed s ++ [e] /\ timing_count (rx s3) = 0.
Proof.
  intros Hproto Hp Hr Hloaded Hdb Hlen Hnow.
  destruct (Protocol.table_row_facts _ _ Hp) as (Hfl & _ & _).
  destruct (Protocol.encode_frame e p MAX_RAW_TIMINGS Hp
              ltac:(unfold MAX_RAW_TIMINGS; lia)) as (frame & Henc & Hflen).
  exists frame. split; [exact Henc|]. cbv zeta.
  pose proof (Protocol.encode_layout e p MAX_RAW_TIMINGS Hp) as Hlay.
  rewrite (Protocol.encoded_length_frame e p Hp) in Hlay.
  rewrite Hlay in Henc by (unfold MAX_RAW_TIMINGS; lia).
  injection Henc as Hframe.
  assert (Forall (fun d => 0 < d < 100000) (Protocol.trailer_of p)) as Htr.
  { destruct Hproto as [Hproto | Hproto]; rewrite Hproto in Hp;
      injection Hp as <-; cbn; repeat constructor; lia. }
  pose proof (Protocol.frame_durations e p _ Hp Htr) as Hdur.
  rewrite Hframe in Hdur.
  pose proof (sum_bound frame Hdur) as Hsum.
  destruct (edges_after_steady frame now_us 0 Hdur ltac:(lia))
    as [Hsteady Hgaps].
  { change (2 ^ 64) with 18446744073709551616.
    change (2 ^ 63) with 9223372036854775808 in Hnow. lia. }
  (* starting *)
  unfold ir_service_start_receive. cbn [negb]. rewrite Hloaded. cbn [negb].
  cbn [Hal.ir_hal_rx_start negb fst].
  (* the edges *)
  rewrite on_edges_feed. cbn [hal set_hal].
  pose proof (Hal.receive_from_start (now_us, 0) (edges_after now_us 0 frame)
                ltac:(cbn; change (2 ^ 64) with 18446744073709551616;
                      change (2 ^ 63) with 9223372036854775808 in Hnow; lia)
                ltac:(cbn; lia) Hsteady) as Hpulses.
  destruct (Hal.receive _ ((now_us, 0) :: edges_after now_us 0 frame))
    as [h2 pulses].
  cbn [fst snd] in *. subst pulses.
  rewrite set_hal_set_hal.
  (* the buffer *)
  set (s1 := set_hal _ h2).
  pose proof (feed_stores (Hal.gaps (now_us, 0) (edges_after now_us 0 frame))
                s1 [] eq_refl Hlen eq_refl ltac:(cbn; lia) eq_refl) as Hfeed.
  cbv zeta in Hfeed. cbn [app] in Hfeed. rewrite Hgaps in Hfeed.
  unfold len in Hflen.
  rewrite (take_ge frame) in Hfeed by lia.
  destruct Hfeed as (Hcount & Hbuf & Hcb & Hcdb & Hhanded).
  set (s2 := feed s1 _) in *. clearbody s2.
  (* the timer *)
  unfold rx_timeout_handler. rewrite Hcount, Hcb.
  cbn [s1 set_hal set_rx rx callback].
  destruct (Z.gtb_spec (len frame) 0) as [_|]; [|unfold len in *; lia].
  cbn [andb]. unfold len at 1. rewrite Nat2Z.id, Hbuf, Hcdb.
  cbn [s1 set_hal set_rx current_db]. rewrite Hdb.
  assert (Protocol.irdb_decode_from_raw (e :: rest) frame = Ok e) as ->.
  { apply Protocol.decode_head; [unfold len; lia|].
    rewrite <- Hframe. apply Protocol.entry_matches_own_frame; assumption. }
  cbn [set_rx handed rx timing_count]. rewrite Hhanded. split; reflexivity.
Qed.

(** The service as [ir_service_init] leaves it, with a database loaded. *)
Definition loaded_with (db : list Protocol.irdb_entry_t) : service_state_t :=
  {| current_db := db; db_loaded := true;
     rx := {| callback := false; timings := replicate 512 0; timing_count := 0;
              timeout_timer := None; active := false |};
     hal := Hal.idle; handed := [] |}.

Lemma service_loopback_witness :
  exists frame,
    Protocol.irdb_encode_to_raw Protocol.volume_up MAX_RAW_TIMINGS = Ok frame /\
    let s1 := fst (ir_service_start_receive
                     (loaded_with [Protocol.volume_up; Protocol.power]) true None) in
    let s2 := on_edges s1 ((1000, 0) :: edges_after 1000 0 frame) in
    let s3 := rx_timeout_handler s2 in
    handed s3 = [] ++ [Protocol.volume_up] /\ timing_count (rx s3) = 0.
Proof.
  apply (service_loopback (loaded_with [Protocol.volume_up; Protocol.power])
           Protocol.volume_up Protocol.nec2_params [Protocol.power] 1000).
  - left. reflexivity.
  - reflexivity.
  - unfold Protocol.in_range. repeat split; vm_compute; congruence.
  - reflexivity.
  - reflexivity.
  - reflexivity.
  - lia.
Defined.

End Service.

(** ** ir_learning.c: replaying a learned signal *)

Module Replay.

(** The inner loop of [ir_learning_replay], with [n] pulses left from index
    [i] on. *)
Fixpoint replay_timings (signal : Learning.ir_learned_signal_t) (n : nat) (i : Z)
    : result (list Hal.action) :=
  match n with
  | O => Ok []
  | S n' =>
      let* t := Learning.read_timing signal i in
      let* rest := replay_timings signal n' (i + 1) in
      Ok (Hal.ir_hal_tx_pulse t (i mod 2 =? 0) ++ rest)
  end.

(** The outer loop, with [n] repeats left after [r] done. *)
Fixpoint replay_repeats (signal : Learning.ir_learned_signal_t)
    (repeat_count : Z) (n : nat) (r : Z) : result (list Hal.action) :=
  match n with
  | O => Ok []
  | S n' =>
      let* pulses :=
        replay_timings signal (Z.to_nat (Learning.timing_count signal)) 0 in
      let* rest := replay_repeats signal repeat_count n' (r + 1) in
      Ok (pulses
          ++ (if r <? u32 (repeat_count - 1) then [Hal.k_usleep 108000] else [])
          ++ rest)
  end.

Definition ir_learning_replay (signal : Learning.ir_learned_signal_t)
    (repeat_count : Z) (pwm_error : option errno) : result (list Hal.action) :=
  if negb (Learning.valid signal) then Err EINVAL
  else
    let carrier :=
      if Learning.carrier_freq signal >? 0 then Learning.carrier_freq signal
      else 38000 in
    let* started := Hal.ir_hal_tx_start carrier pwm_error in
    let* sent :=
      replay_repeats signal repeat_count (Z.to_nat repeat_count) 0 in
    Ok (started ++ sent ++ Hal.ir_hal_tx_stop).

Lemma replay_timings_ok signal buf :
  Learning.timings signal = Some buf ->
  forall n i,
    (i + n <= length buf)%nat ->
    replay_timings signal n (Z.of_nat i) =
    Ok (Service.send_timings (take n (drop i buf)) (Z.of_nat i)).
Proof.
  intros Hb. induction n as [|n IH]; intros i Hlen; [reflexivity|].
  cbn [replay_timings].
  destruct (lookup_lt_is_Some_2 buf i ltac:(lia)) as [t Ht].
  rewrite (Learning.read_timing_ok _ _ _ _ Hb Ht). cbn [bind].
  replace (Z.of_nat i + 1) with (Z.of_nat (S i)) by lia.
  rewrite IH by lia. cbn [bind].
  rewrite (drop_S _ _ _ Ht). cbn [take Service.send_timings].
  replace (Z.of_nat i + 1) with (Z.of_nat (S i)) by lia. reflexivity.
Qed.

Lemma replay_repeats_ok signal repeat_count :
  Learning.well_formed signal ->
  forall n r,
    0 <= r -> r + Z.of_nat n = repeat_count -> repeat_count < 2 ^ 32 ->
    exists sent,
      replay_repeats signal repeat_count n r = Ok sent /\
      Service.busy_waits sent = concat (replicate n (Learning.pulses signal)) /\
      Service.sleeps sent = replicate (n - 1) 108000.
Proof.
  intros (buf & Hb & Hc & Hl & _).
  induction n as [|n IH]; intros r Hr Hsum Hmax.
  - exists []. repeat split; reflexivity.
  - cbn [replay_repeats].
    rewrite (replay_timings_ok signal buf Hb _ 0%nat)
      by (unfold len in Hl; lia).
    cbn [bind]. rewrite drop_0.
    destruct (IH (r + 1) ltac:(lia) ltac:(lia) Hmax) as (rest & -> & Hw & Hs).
    cbn [bind]. eexists. split; [reflexivity|].
    unfold Service.busy_waits, Service.sleeps in *.
    rewrite !flat_map_app, Hw, Hs.
    destruct (Service.send_timings_waits
                (take (Z.to_nat (Learning.timing_count signal)) buf) (Z.of_nat 0))
      as [Hw0 Hs0].
    unfold Service.busy_waits, Service.sleeps in Hw0, Hs0. rewrite Hw0, Hs0.
    assert (Learning.pulses signal =
            take (Z.to_nat (Learning.timing_count signal)) buf) as ->
      by (unfold Learning.pulses; rewrite Hb; reflexivity).
    assert (u32 (repeat_count - 1) = repeat_count - 1) as ->
      by (unfold u32; apply Z.mod_small; lia).
    destruct (Z.ltb_spec r (repeat_count - 1)) as [Hmore|Hlast];
      cbn [flat_map app replicate concat].
    + split; [reflexivity|].
      destruct n as [|n]; [lia|]. cbn. rewrite Nat.sub_0_r. reflexivity.
    + split; [reflexivity|].
      assert (n = 0%nat) as -> by lia. reflexivity.
Qed.

(** X27. Replaying a valid, readable signal whose carrier frequency is
    zero, as every captured signal's is: the PWM is started at the default
    38 kHz, the transmitter busy-waits through the pulses of the signal in
    order, once per repeat, sleeps 108 ms between one repeat and the next,
    and the PWM is switched off at the end. *)
Theorem replay_outcome (signal : Learning.ir_learned_signal_t)
    (repeat_count : Z) :
  Learning.valid signal = true ->
  Learning.well_formed signal ->
  Learning.carrier_freq signal = 0 ->
  0 <= repeat_count < 2 ^ 32 ->
  exists sent,
    ir_learning_replay signal repeat_count None =
      Ok (Hal.pwm_set_dt 26315 8683 :: sent ++ [Hal.pwm_set_dt 0 0]) /\
    Service.busy_waits sent =
      concat (replicate (Z.to_nat repeat_count) (Learning.pulses signal)) /\
    Service.sleeps sent = replicate (Z.to_nat repeat_count - 1) 108000.
Proof.
  intros Hv Hw Hcf Hrep. unfold ir_learning_replay. rewrite Hv, Hcf.
  cbn [negb]. change (0 >? 0) with false. cbv iota.
  destruct (replay_repeats_ok signal repeat_count Hw (Z.to_nat repeat_count) 0
              ltac:(lia) ltac:(lia) ltac:(lia)) as (sent & Hsent & Hwaits & Hs).
  exists sent. rewrite Hsent. split; [reflexivity|]. split; assumption.
Qed.

Lemma replay_outcome_witness :
  exists sent,
    ir_learning_replay (Learning.signal_of [9000; 4500; 560]) 2 None =
      Ok (Hal.pwm_set_dt 26315 8683 :: sent ++ [Hal.pwm_set_dt 0 0]) /\
    Service.busy_waits sent = concat (replicate 2 [9000; 4500; 560]) /\
    Service.sleeps sent = [108000].
Proof.
  apply (replay_outcome (Learning.signal_of [9000; 4500; 560]) 2).
  - reflexivity.
  - apply Learning.signal_of_well_formed;
      [reflexivity | Learning.pulses_in_range].
  - reflexivity.
  - lia.
Defined.

End Replay.
